(** * mbuild.port: the Port connector, its alignment algorithm and its clone

    A shallow embedding of [mbuild/port.py].  Python objects live in a
    store indexed by allocation order, so that object identity, in-place
    mutation and aliasing are explicit.  numpy's float64 arithmetic is
    read in exact real arithmetic ([R]): every statement below is about the
    geometry the code computes, not about rounding. *)

From stdpp Require Import base list gmap strings.
From Stdlib Require Import Reals Lra Psatz RNsatz.

Local Open Scope R_scope.

(** ** Exceptions *)

Inductive error : Type :=
| DegenerateVectorError   (* a near-zero vector was to be normalised *)
| IndexError              (* sequence index out of range *)
| AttributeError          (* attribute missing on the receiver *)
| KeyError                (* no child under the label *)
| RecursionError.         (* traversal deeper than the store is large *)

Inductive result (A : Type) : Type :=
| Ok (a : A)
| Raise (e : error).
Arguments Ok {A} a.
Arguments Raise {A} e.

Global Instance result_ret : MRet result := fun A a => Ok a.
Global Instance result_bind : MBind result := fun A B k r =>
  match r with
  | Ok a => k a
  | Raise e => Raise e
  end.

(** ** VectorMath *)

Module Vec.

Record Vec3 : Type := mk { x : R; y : R; z : R }.

Definition zero : Vec3 := mk 0 0 0.
Definition add (a b : Vec3) : Vec3 := mk (x a + x b) (y a + y b) (z a + z b).
Definition sub (a b : Vec3) : Vec3 := mk (x a - x b) (y a - y b) (z a - z b).
Definition neg (a : Vec3) : Vec3 := mk (- x a) (- y a) (- z a).
Definition scale (k : R) (a : Vec3) : Vec3 := mk (k * x a) (k * y a) (k * z a).
Definition divide (a : Vec3) (k : R) : Vec3 := mk (x a / k) (y a / k) (z a / k).

Definition dot (a b : Vec3) : R := x a * x b + y a * y b + z a * z b.

(** [np.cross] *)
Definition cross (a b : Vec3) : Vec3 :=
  mk (y a * z b - z a * y b) (z a * x b - x a * z b) (x a * y b - y a * x b).

Definition norm (a : Vec3) : R := sqrt (dot a a).

(** [np.mean(rows, axis=0)] *)
Definition sum (ps : list Vec3) : Vec3 := foldr add zero ps.
Definition mean (ps : list Vec3) : Vec3 := divide (sum ps) (INR (length ps)).

(** [np.clip(c, lo, hi)] *)
Definition clip (c lo hi : R) : R := Rmin hi (Rmax c lo).

(** [np.allclose(a, b)] with numpy's default [rtol=1e-05], [atol=1e-08]:
    every component satisfies [|a - b| <= atol + rtol * |b|]. *)
Definition rtol : R := 1e-5.
Definition atol : R := 1e-8.
Definition isclose (a b : R) : Prop := Rabs (a - b) <= atol + rtol * Rabs b.
Definition allclose (a b : Vec3) : Prop :=
  isclose (x a) (x b) /\ isclose (y a) (y b) /\ isclose (z a) (z b).

Definition isclose_dec (a b : R) : {isclose a b} + {~ isclose a b} :=
  Rle_dec (Rabs (a - b)) (atol + rtol * Rabs b).

Definition allclose_dec (a b : Vec3) : {allclose a b} + {~ allclose a b}.
Proof.
  unfold allclose.
  destruct (isclose_dec (x a) (x b)); [|right; tauto].
  destruct (isclose_dec (y a) (y b)); [|right; tauto].
  destruct (isclose_dec (z a) (z b)); [left; tauto|right; tauto].
Defined.

(** Modelled from the spec: [mbuild.coordinate_transform.unit_vector] is not
    part of the sources at hand.  Spec 4.1: "returns [v / |v|]; fails with
    [DegenerateVectorError] when [|v| ≈ 0]".  In exact arithmetic the only
    vector of negligible length is the zero vector. *)
Definition unit_vector (v : Vec3) : result Vec3 :=
  if Req_dec_T (norm v) 0 then Raise DegenerateVectorError
  else Ok (divide v (norm v)).

(** Modelled from the spec: [mbuild.coordinate_transform.angle] is not part
    of the sources at hand.  Spec 4.1: "returns
    [arccos(clamp(unit_vector(a)·unit_vector(b), -1, 1))]". *)
Definition angle (a b : Vec3) : result R :=
  ua ← unit_vector a;
  ub ← unit_vector b;
  Ok (acos (clip (dot ua ub) (-1) 1)).

Record Mat3 : Type := rows { r1 : Vec3; r2 : Vec3; r3 : Vec3 }.

Definition apply (m : Mat3) (v : Vec3) : Vec3 :=
  mk (dot (r1 m) v) (dot (r2 m) v) (dot (r3 m) v).

(** Modelled from the spec: the rotation matrix of
    [mbuild.coordinate_transform] is not part of the sources at hand.
    Spec 4.1: "the 3×3 matrix rotating by [theta] radians about
    [unit_vector(axis)] using the standard axis–angle (Rodrigues) formula;
    fails with [DegenerateVectorError] if [axis ≈ 0]". *)
Definition rotation_matrix (theta : R) (axis : Vec3) : result Mat3 :=
  n ← unit_vector axis;
  let c := cos theta in
  let s := sin theta in
  let t := 1 - c in
  Ok (rows
        (mk (c + x n * x n * t) (x n * y n * t - z n * s) (x n * z n * t + y n * s))
        (mk (y n * x n * t + z n * s) (c + y n * y n * t) (y n * z n * t - x n * s))
        (mk (z n * x n * t - y n * s) (z n * y n * t + x n * s) (c + z n * z n * t))).

End Vec.

Abbreviation Vec3 := Vec.Vec3.

(** ** The object store

    Every Python object is a cell of the store; its identity is its index
    ([id(obj)]).  Constructors append a cell, attribute assignments
    overwrite one, and nothing is ever freed. *)

Abbreviation loc := nat.

Record Particle : Type := mkParticle {
  p_name : string;
  p_pos : Vec3;
  p_port_particle : bool
}.

Record Compound : Type := mkCompound {
  c_name : string;
  c_port_particle : bool;
  c_children : list (string * loc)   (* label -> child, in insertion order *)
}.

Inductive Obj : Type :=
| OParticle (p : Particle)
| OCompound (c : Compound)
| OPort (c : Compound) (anchor : option loc) (used : bool).

Abbreviation heap := (list Obj).

Definition alloc (o : Obj) (h : heap) : loc * heap := (length h, h ++ [o]).

Definition children_of (h : heap) (l : loc) : result (list (string * loc)) :=
  match h !! l with
  | Some (OCompound c) | Some (OPort c _ _) => Ok (c_children c)
  | _ => Raise AttributeError
  end.

Definition with_children (o : Obj) (kids : list (string * loc)) : Obj :=
  match o with
  | OParticle p => OParticle p
  | OCompound c => OCompound (mkCompound (c_name c) (c_port_particle c) kids)
  | OPort c a u => OPort (mkCompound (c_name c) (c_port_particle c) kids) a u
  end.

(** A new instance of the class of [o] carrying its name and flags (and, for
    a particle, its position), with no child and no attribute of its own. *)
Definition blank_copy (o : Obj) : Obj :=
  match o with
  | OParticle p => OParticle p
  | OCompound c => OCompound (mkCompound (c_name c) (c_port_particle c) [])
  | OPort c _ _ => OPort (mkCompound (c_name c) (c_port_particle c) []) None false
  end.

Definition position (h : heap) (l : loc) : result Vec3 :=
  match h !! l with
  | Some (OParticle p) => Ok (p_pos p)
  | _ => Raise AttributeError
  end.

Definition set_position (l : loc) (v : Vec3) (h : heap) : heap :=
  match h !! l with
  | Some (OParticle p) =>
      <[l := OParticle (mkParticle (p_name p) v (p_port_particle p))]> h
  | _ => h
  end.

Definition anchor_of (h : heap) (l : loc) : result (option loc) :=
  match h !! l with
  | Some (OPort _ a _) => Ok a
  | _ => Raise AttributeError
  end.

Definition used_of (h : heap) (l : loc) : result bool :=
  match h !! l with
  | Some (OPort _ _ u) => Ok u
  | _ => Raise AttributeError
  end.

Definition set_anchor (l : loc) (a : option loc) (h : heap) : result heap :=
  match h !! l with
  | Some (OPort c _ u) => Ok (<[l := OPort c a u]> h)
  | _ => Raise AttributeError
  end.

Definition set_used (l : loc) (u : bool) (h : heap) : result heap :=
  match h !! l with
  | Some (OPort c a _) => Ok (<[l := OPort c a u]> h)
  | _ => Raise AttributeError
  end.

(** ** Compound: children, flattened particles, rigid transforms *)

Section traversal.
Context {A B : Type} (f : A -> result (list B)).

Fixpoint concat_results (l : list A) : result (list B) :=
  match l with
  | [] => Ok []
  | a :: l' => bs ← f a; rest ← concat_results l'; Ok (bs ++ rest)
  end.
End traversal.

Fixpoint collect {A B : Type} (f : A -> result B) (l : list A) : result (list B) :=
  match l with
  | [] => Ok []
  | a :: l' => b ← f a; bs ← collect f l'; Ok (b :: bs)
  end.

(** Modelled from the spec: [Compound.add] is not part of the sources at
    hand.  Spec 3: children are an "ordered mapping name→(Particle|Compound)"
    whose insertion order is preserved; [add] attaches a child under a
    label. *)
Definition add (parent child : loc) (label : string) (h : heap) : result heap :=
  kids ← children_of h parent;
  match h !! parent with
  | Some o => Ok (<[parent := with_children o (kids ++ [(label, child)])]> h)
  | None => Raise AttributeError
  end.

(** Modelled from the spec: the particle traversal behind
    [Compound.xyz_with_ports] is not part of the sources at hand.  Spec 4.2:
    "pre-order over insertion-ordered children, ghosts included".  The fuel
    is the recursion depth; [particles] gives it the size of the store, which
    no path of an ownership tree exceeds. *)
Fixpoint particles_from (fuel : nat) (h : heap) (l : loc) : result (list loc) :=
  match fuel with
  | O => Raise RecursionError
  | S k =>
      match h !! l with
      | Some (OParticle _) => Ok [l]
      | Some (OCompound c) | Some (OPort c _ _) =>
          concat_results (fun kid : string * loc => particles_from k h (snd kid))
                         (c_children c)
      | None => Raise AttributeError
      end
  end.

Definition particles (h : heap) (l : loc) : result (list loc) :=
  particles_from (S (length h)) h l.

(** [self.xyz_with_ports] (getter): one row per particle of the subtree. *)
Definition xyz_with_ports (h : heap) (l : loc) : result (list Vec3) :=
  locs ← particles h l;
  collect (position h) locs.

(** [self.xyz_with_ports = arr] (setter): row [i] goes to the [i]-th particle. *)
Definition assign_positions (locs : list loc) (arr : list Vec3) (h : heap) : heap :=
  foldl (fun h' (lv : loc * Vec3) => set_position (fst lv) (snd lv) h') h (zip locs arr).

Definition set_xyz_with_ports (l : loc) (arr : list Vec3) (h : heap) : result heap :=
  locs ← particles h l;
  Ok (assign_positions locs arr h).

(** Modelled from the spec: [Compound.rotate] is not part of the sources at
    hand.  Spec 4.2: "applies [rotation_matrix(theta, axis)] to the position
    of every Particle in the subtree (positions are transformed about the
    current coordinate origin)". *)
Definition rotate (theta : R) (axis : Vec3) (l : loc) (h : heap) : result heap :=
  m ← Vec.rotation_matrix theta axis;
  xyz ← xyz_with_ports h l;
  set_xyz_with_ports l (map (Vec.apply m) xyz) h.

(** Modelled from the spec: [Compound.translate] is not part of the sources
    at hand.  Spec 4.2: "adds [delta] to every descendant Particle's
    position". *)
Definition translate (delta : Vec3) (l : loc) (h : heap) : result heap :=
  xyz ← xyz_with_ports h l;
  set_xyz_with_ports l (map (fun p => Vec.add p delta) xyz) h.

(** [Port.center]: [np.mean(self.xyz_with_ports, axis=0)].  Spec 4.2 gives
    the same centroid for every Compound. *)
Definition center (h : heap) (l : loc) : result Vec3 :=
  xyz ← xyz_with_ports h l;
  Ok (Vec.mean xyz).

(** Modelled from the spec: [Compound.translate_to] is not part of the
    sources at hand.  Spec 4.2: "computes [delta = point - self.center], then
    calls [translate(delta)]". *)
Definition translate_to (point : Vec3) (l : loc) (h : heap) : result heap :=
  c ← center h l;
  translate (Vec.sub point c) l h.

(** [Port.direction]:
    [unit_vector(self.xyz_with_ports[1] - self.xyz_with_ports[0])]. *)
Definition direction (h : heap) (l : loc) : result Vec3 :=
  xyz ← xyz_with_ports h l;
  match xyz !! 1%nat, xyz !! 0%nat with
  | Some p1, Some p0 => Vec.unit_vector (Vec.sub p1 p0)
  | _, _ => Raise IndexError
  end.

(** ** CloneEngine *)

Abbreviation clone_map := (gmap loc loc).

Section clone_methods.
(** [existing._clone(clone_of, root_container)], dispatched on the class
    of [existing]; one level of recursion deeper. *)
Variable _clone : loc -> clone_map -> option loc -> heap ->
                  result (loc * clone_map * heap).

(** Modelled from the spec: [mbuild.clone] is not part of the sources at
    hand.  Spec 4.4: look the referenced node up in the identity map; "if
    found, point the clone's reference at the mapped counterpart; if not
    found, deep-clone that referenced node independently" -- both are what
    [_clone] does on a node.  [clone] calls the [_clone] method of what it
    is given; [None] has no such method, and the call of line 80 on a Port
    without anchor raises [AttributeError]. *)
Definition clone_ref (existing : option loc) (clone_of : clone_map)
    (root_container : option loc) (h : heap)
    : result (option loc * clone_map * heap) :=
  match existing with
  | None => Raise AttributeError
  | Some l =>
      '(newone, clone_of, h) ← _clone l clone_of root_container h;
      Ok (Some newone, clone_of, h)
  end.

Fixpoint clone_children (kids : list (string * loc)) (newone : loc)
    (clone_of : clone_map) (root_container : option loc) (h : heap)
    : result (clone_map * heap) :=
  match kids with
  | [] => Ok (clone_of, h)
  | (label, child) :: rest =>
      '(newchild, clone_of, h) ← _clone child clone_of root_container h;
      h ← add newone newchild label h;
      clone_children rest newone clone_of root_container h
  end.

(** Modelled from the spec: [Compound._clone] is not part of the sources
    at hand.  Spec 4.4, phase 1: "recursively duplicate every
    Compound/Particle, preserving names, flags, positions, and child
    ordering; record a mapping from each original node's identity to its
    newly created counterpart"; "the map short-circuits to the in-progress
    clone".  The new object has the class of the original. *)
Definition Compound_clone (self : loc) (clone_of : clone_map)
    (root_container : option loc) (h : heap)
    : result (loc * clone_map * heap) :=
  match clone_of !! self with
  | Some newone => Ok (newone, clone_of, h)
  | None =>
      match h !! self with
      | Some (OParticle p) =>
          let '(newone, h) := alloc (OParticle p) h in
          Ok (newone, <[self := newone]> clone_of, h)
      | Some o =>
          kids ← children_of h self;
          let '(newone, h) := alloc (blank_copy o) h in
          let clone_of := <[self := newone]> clone_of in
          '(clone_of, h) ← clone_children kids newone clone_of root_container h;
          Ok (newone, clone_of, h)
      | None => Raise AttributeError
      end
  end.

(** [Port._clone] *)
Definition Port_clone (self : loc) (clone_of : clone_map)
    (root_container : option loc) (h : heap)
    : result (loc * clone_map * heap) :=
  '(newone, clone_of, h) ← Compound_clone self clone_of root_container h;
  a ← anchor_of h self;
  '(a', clone_of, h) ← clone_ref a clone_of root_container h;
  h ← set_anchor newone a' h;
  u ← used_of h self;
  h ← set_used newone u h;
  Ok (newone, clone_of, h).
End clone_methods.

Fixpoint clone_from (fuel : nat) (self : loc) (clone_of : clone_map)
    (root_container : option loc) (h : heap)
    : result (loc * clone_map * heap) :=
  match fuel with
  | O => Raise RecursionError
  | S k =>
      match h !! self with
      | Some (OPort _ _ _) => Port_clone (clone_from k) self clone_of root_container h
      | Some _ => Compound_clone (clone_from k) self clone_of root_container h
      | None => Raise AttributeError
      end
  end.

(** [clone(existing)]: a fresh identity map ([clone_of=None]), no root
    container. *)
Definition clone (existing : loc) (h : heap) : result (loc * heap) :=
  '(newone, _, h) ← clone_from (S (length h)) existing ∅ None h;
  Ok (newone, h).

(** ** Port *)

Definition default_direction : Vec3 := Vec.mk 0 1 0.
Definition z_axis : Vec3 := Vec.mk 0 0 1.

Definition middle_pos : Vec3 := Vec.mk 0.005 0.0025 (-0.0025).
Definition top_pos : Vec3 := Vec.mk 0.005 0.0225 (-0.0025).
Definition left_pos : Vec3 := Vec.mk (-0.015) (-0.0075) (-0.0025).
Definition right_pos : Vec3 := Vec.mk 0.005 (-0.0175) 0.0075.

(** [Particle(name='G', pos=..., port_particle=True)] added to [parent]
    under [label]. *)
Definition add_ghost (parent : loc) (pos : Vec3) (label : string) (h : heap)
    : result heap :=
  let '(g, h) := alloc (OParticle (mkParticle "G" pos true)) h in
  add parent g label h.

(** [Port.__init__], lines 38-59: the object, its two sub-frames and the
    occupancy flag. *)
Definition Port_build (anchor : option loc) (h : heap)
    : result (loc * loc * loc * heap) :=
  let '(self, h) := alloc (OPort (mkCompound "Port" true []) None false) h in
  h ← set_anchor self anchor h;
  let '(up, h) := alloc (OCompound (mkCompound "subport" true [])) h in
  h ← add_ghost up middle_pos "middle" h;
  h ← add_ghost up top_pos "top" h;
  h ← add_ghost up left_pos "left" h;
  h ← add_ghost up right_pos "right" h;
  '(down, h) ← clone up h;
  h ← add self up "up" h;
  h ← add self down "down" h;
  h ← set_used self false h;
  Ok (self, up, down, h).

Inductive branch : Type := Antiparallel | Parallel | General.

(** The tests of lines 61-62 and 65-66. *)
Definition alignment (orientation : Vec3) : result branch :=
  u ← Vec.unit_vector (Vec.neg orientation);
  if Vec.allclose_dec default_direction u then Ok Antiparallel
  else
    u ← Vec.unit_vector orientation;
    if Vec.allclose_dec default_direction u then Ok Parallel
    else Ok General.

(** [Port.__init__], lines 61-71. *)
Definition Port_orient (self down : loc) (orientation : Vec3) (h : heap)
    : result heap :=
  b ← alignment orientation;
  match b with
  | Antiparallel =>
      h ← rotate PI z_axis down h;
      rotate PI z_axis self h
  | Parallel =>
      rotate PI z_axis down h
  | General =>
      let normal := Vec.cross default_direction orientation in
      theta ← Vec.angle default_direction orientation;
      h ← rotate theta normal self h;
      rotate PI normal down h
  end.

(** [Port.__init__], lines 73-76. *)
Definition Port_place (self : loc) (anchor : option loc) (orientation : Vec3)
    (separation : R) (h : heap) : result heap :=
  h ← match anchor with
      | Some a => pos ← position h a; translate_to pos self h
      | None => Ok h
      end;
  u ← Vec.unit_vector orientation;
  translate (Vec.scale separation u) self h.

(** [Port.__init__(anchor=None, orientation=None, separation=0)] *)
Definition Port_init (anchor : option loc) (orientation : option Vec3)
    (separation : R) (h : heap) : result (loc * heap) :=
  let orientation := default default_direction orientation in
  '(self, up, down, h) ← Port_build anchor h;
  h ← Port_orient self down orientation h;
  h ← Port_place self anchor orientation separation h;
  Ok (self, h).

(** * Vocabulary of the statements *)

(** Modelled from the spec: [Compound.__getitem__] is not part of the sources
    at hand.  Spec 3: the children of a Compound are a mapping from label to
    child; the docstring of [Port] reads them as [self['up']] and
    [self['down']]. *)
Fixpoint lookup_label (label : string) (kids : list (string * loc)) : option loc :=
  match kids with
  | [] => None
  | (k, v) :: rest => if String.eqb k label then Some v else lookup_label label rest
  end.

Definition getitem (h : heap) (l : loc) (label : string) : result loc :=
  kids ← children_of h l;
  match lookup_label label kids with
  | Some child => Ok child
  | None => Raise KeyError
  end.

Definition kids_of (o : Obj) : list (string * loc) :=
  match o with
  | OParticle _ => []
  | OCompound c | OPort c _ _ => c_children c
  end.

Definition is_particle (h : heap) (i : loc) : Prop :=
  exists p, h !! i = Some (OParticle p).

(** The anchor handed to the constructor, if any, is a particle of the
    store. *)
Definition anchor_is_particle (h : heap) (anchor : option loc) : Prop :=
  forall a, anchor = Some a -> exists A, position h a = Ok A.

(** ** Tolerances *)

(** Componentwise closeness of two vectors. *)
Definition close_to (tol : R) (a b : Vec3) : Prop :=
  Rabs (Vec.x a - Vec.x b) <= tol /\
  Rabs (Vec.y a - Vec.y b) <= tol /\
  Rabs (Vec.z a - Vec.z b) <= tol.

(** The tests of lines 61-62 and 65-66, as properties of the orientation. *)
Definition antiparallel_to_default (o : Vec3) : Prop :=
  exists w, Vec.unit_vector (Vec.neg o) = Ok w /\ Vec.allclose default_direction w.

Definition parallel_to_default (o : Vec3) : Prop :=
  exists w, Vec.unit_vector o = Ok w /\ Vec.allclose default_direction w.

(** ** The cells of a Port

    A sub-frame is four positions; a Port is eleven consecutive cells: the
    Port, "up" and its four ghosts, "down" and its four ghosts. *)

Record Frame : Type := mkFrame {
  f_middle : Vec3; f_top : Vec3; f_left : Vec3; f_right : Vec3
}.

Definition canonical : Frame := mkFrame middle_pos top_pos left_pos right_pos.

Definition frame_map (f : Vec3 -> Vec3) (fr : Frame) : Frame :=
  mkFrame (f (f_middle fr)) (f (f_top fr)) (f (f_left fr)) (f (f_right fr)).

Definition frame_rows (fr : Frame) : list Vec3 :=
  [f_middle fr; f_top fr; f_left fr; f_right fr].

Definition frame_axis (fr : Frame) : Vec3 := Vec.sub (f_top fr) (f_middle fr).

Definition frame_sum (fr : Frame) : Vec3 :=
  Vec.add (Vec.add (f_middle fr) (f_top fr)) (Vec.add (f_left fr) (f_right fr)).

Definition ghost (v : Vec3) : Obj := OParticle (mkParticle "G" v true).

Definition subport_cell (k1 k2 k3 k4 : loc) : Obj :=
  OCompound (mkCompound "subport" true
    [("middle", k1); ("top", k2); ("left", k3); ("right", k4)]).

Definition port_cells (n : loc) (a : option loc) (u : bool) (up down : Frame)
    : list Obj :=
  [ OPort (mkCompound "Port" true [("up", n + 1); ("down", n + 6)]) a u;
    subport_cell (n + 2) (n + 3) (n + 4) (n + 5);
    ghost (f_middle up); ghost (f_top up); ghost (f_left up); ghost (f_right up);
    subport_cell (n + 7) (n + 8) (n + 9) (n + 10);
    ghost (f_middle down); ghost (f_top down); ghost (f_left down);
    ghost (f_right down) ]%nat.

(** The common shape of [rotate] and [translate]. *)
Definition move (f : Vec3 -> Vec3) (l : loc) (h : heap) : result heap :=
  xyz ← xyz_with_ports h l;
  set_xyz_with_ports l (map f xyz) h.

(** A half turn about the z axis negates x and y. *)
Definition half_turn_z (v : Vec3) : Vec3 :=
  Vec.mk (- Vec.x v) (- Vec.y v) (Vec.z v).

(** The positions lines 61-71 leave in the two sub-frames. *)
Definition orient_frames (orientation : Vec3) : result (Frame * Frame) :=
  b ← alignment orientation;
  match b with
  | Antiparallel =>
      m ← Vec.rotation_matrix PI z_axis;
      Ok (frame_map (Vec.apply m) canonical,
          frame_map (Vec.apply m) (frame_map (Vec.apply m) canonical))
  | Parallel =>
      m ← Vec.rotation_matrix PI z_axis;
      Ok (canonical, frame_map (Vec.apply m) canonical)
  | General =>
      let normal := Vec.cross default_direction orientation in
      theta ← Vec.angle default_direction orientation;
      m ← Vec.rotation_matrix theta normal;
      m' ← Vec.rotation_matrix PI normal;
      Ok (frame_map (Vec.apply m) canonical,
          frame_map (Vec.apply m') (frame_map (Vec.apply m) canonical))
  end.

Definition shift (delta : Vec3) (fs : Frame * Frame) : Frame * Frame :=
  (frame_map (fun p => Vec.add p delta) (fst fs),
   frame_map (fun p => Vec.add p delta) (snd fs)).

Definition centroid (fs : Frame * Frame) : Vec3 :=
  Vec.mean (frame_rows (fst fs) ++ frame_rows (snd fs)).

(** The positions lines 73-76 leave in the two sub-frames. *)
Definition place_frames (anchor_pos : option Vec3) (orientation : Vec3)
    (separation : R) (fs : Frame * Frame) : result (Frame * Frame) :=
  let fs := match anchor_pos with
            | Some pos => shift (Vec.sub pos (centroid fs)) fs
            | None => fs
            end in
  u ← Vec.unit_vector orientation;
  Ok (shift (Vec.scale separation u) fs).

Definition anchor_position (h : heap) (anchor : option loc) : result (option Vec3) :=
  match anchor with
  | Some a => pos ← position h a; Ok (Some pos)
  | None => Ok None
  end.

(** ** Rigid maps *)

(** A map of space that is additive and keeps scalar products. *)
Definition linear_isometry (L : Vec3 -> Vec3) : Prop :=
  (forall p q, L (Vec.add p q) = Vec.add (L p) (L q)) /\
  (forall p q, L (Vec.sub p q) = Vec.sub (L p) (L q)) /\
  (forall p q, Vec.dot (L p) (L q) = Vec.dot p q).

(** Squared distance between two points. *)
Definition dist2 (p q : Vec3) : R := Vec.dot (Vec.sub p q) (Vec.sub p q).

(** ** Traversals *)

(** What a traversal sees of a cell: everything but a particle's position. *)
Definition skeleton (o : Obj) : Obj :=
  match o with
  | OParticle p => OParticle (mkParticle (p_name p) Vec.zero (p_port_particle p))
  | _ => o
  end.

Definition same_skeleton (h h' : heap) : Prop :=
  forall i, skeleton <$> (h !! i) = skeleton <$> (h' !! i).

Local Close Scope R_scope.

(** ** Clones *)

(** The ownership tree below a cell is at most [d] deep, and every Port in
    it has an anchor, which is a particle (spec 3). *)
Fixpoint height_le (orig : heap) (d : nat) (l : loc) : Prop :=
  match d with
  | O => False
  | S d' =>
      match orig !! l with
      | Some (OParticle _) => True
      | Some (OCompound c) =>
          Forall (fun kid : string * loc => height_le orig d' (snd kid)) (c_children c)
      | Some (OPort c a _) =>
          Forall (fun kid : string * loc => height_le orig d' (snd kid)) (c_children c) /\
          match a with
          | Some a => is_particle orig a /\ 1 <= d'
          | None => False
          end
      | None => False
      end
  end.

(** The state of a clone in progress: the cells of [orig] are untouched, and
    the identity map sends cells of [orig] to cells made since, one each,
    each a copy of its original's class, name, flag and position; an anchor
    that a copy of a Port has received is the image of the original's, and
    comes with the original's occupancy flag. *)
Record clone_inv (orig : heap) (m : clone_map) (h : heap) : Prop := {
  inv_orig : take (length orig) h = orig;
  inv_len : length orig <= length h;
  inv_map : forall k v, m !! k = Some v ->
      k < length orig /\ length orig <= v < length h /\
      blank_copy <$> (h !! v) = blank_copy <$> (orig !! k);
  inv_inj : forall k k' v, m !! k = Some v -> m !! k' = Some v -> k = k';
  inv_port : forall k v c' a' u',
      m !! k = Some v -> h !! v = Some (OPort c' (Some a') u') ->
      exists c a, orig !! k = Some (OPort c (Some a) u') /\ m !! a = Some a'
}.

(** Cells made before a step keep their class, name, flag and children. *)
Definition frame (h h' : heap) : Prop :=
  length h <= length h' /\
  forall v, v < length h ->
    blank_copy <$> (h' !! v) = blank_copy <$> (h !! v) /\
    kids_of <$> (h' !! v) = kids_of <$> (h !! v).

(** A Port that has its anchor keeps it, and its occupancy flag. *)
Definition keeps_ports (h h' : heap) : Prop :=
  forall v c a u, h !! v = Some (OPort c (Some a) u) ->
    exists c', h' !! v = Some (OPort c' (Some a) u).

Definition relabelled (m : clone_map) (kids kids' : list (string * loc)) : Prop :=
  Forall2 (fun kid kid' : string * loc =>
             fst kid = fst kid' /\ m !! (snd kid) = Some (snd kid')) kids kids'.

(** The copy [o'] of a Port [o] has the occupancy flag of [o] and, as its
    anchor, the image of the anchor of [o]. *)
Definition port_image (m : clone_map) (o o' : Obj) : Prop :=
  match o with
  | OPort _ a u =>
      exists c' a0 a', a = Some a0 /\ o' = OPort c' (Some a') u /\ m !! a0 = Some a'
  | _ => True
  end.

(** Every entry the step added to the map is a finished copy: its children
    are the images of the original's children, under the same labels, and
    a Port has its anchor and flag -- but for the Port [skip], whose
    [_clone] is still running. *)
Definition completed_upto (skip : option loc) (orig : heap) (m : clone_map)
    (h : heap) (m' : clone_map) (h' : heap) : Prop :=
  forall k v, m' !! k = Some v -> m !! k = None ->
    length h <= v /\
    exists o o', orig !! k = Some o /\ h' !! v = Some o' /\
                 relabelled m' (kids_of o) (kids_of o') /\
                 (skip <> Some k -> port_image m' o o').

Definition completed : heap -> clone_map -> heap -> clone_map -> heap -> Prop :=
  completed_upto None.

Definition clone_post_upto (skip : option loc) (orig : heap) (m : clone_map)
    (h : heap) (l : loc) (res : result (loc * clone_map * heap)) : Prop :=
  exists l' m' h',
    res = Ok (l', m', h') /\
    clone_inv orig m' h' /\ m ⊆ m' /\ m' !! l = Some l' /\
    frame h h' /\ keeps_ports h h' /\ completed_upto skip orig m h m' h'.

Definition clone_post : heap -> clone_map -> heap -> loc ->
    result (loc * clone_map * heap) -> Prop :=
  clone_post_upto None.

(** The node reached from [l] along a path of labels. *)
Fixpoint follow (h : heap) (l : loc) (path : list string) : option loc :=
  match path with
  | [] => Some l
  | label :: rest =>
      match getitem h l label with
      | Ok child => follow h child rest
      | Raise _ => None
      end
  end.

Local Open Scope R_scope.

(** ** Sample stores *)

(** A lone atom at the origin. *)
Definition carbon : Obj := OParticle (mkParticle "C" Vec.zero false).

(** An atom at (1, 1, 1) and a consumed Port anchored to it. *)
Definition sample_store : heap :=
  OParticle (mkParticle "C" (Vec.mk 1 1 1) false)
    :: port_cells 1 (Some 0%nat) true canonical canonical.

(** An atom at (1, 1, 1) and a consumed Port anchored to it, the two
    children of one Compound. *)
Definition sample_tree : heap :=
  OCompound (mkCompound "CH" false [("C", 1%nat); ("port", 2%nat)])
    :: OParticle (mkParticle "C" (Vec.mk 1 1 1) false)
    :: port_cells 2 (Some 1%nat) true canonical canonical.

(** * Supporting lemmas *)

(** ** Vectors *)

Section vector_facts.
Import Vec.
Implicit Types (u v w : Vec3) (k : R).

Lemma vec_eq u v : x u = x v -> y u = y v -> z u = z v -> u = v.
Proof. destruct u, v; simpl; intros; subst; reflexivity. Qed.

Lemma dot_self_nonneg v : 0 <= dot v v.
Proof. unfold dot. nra. Qed.

Lemma norm_nonneg v : 0 <= norm v.
Proof. apply sqrt_pos. Qed.

Lemma norm_square v : norm v * norm v = dot v v.
Proof. apply sqrt_sqrt, dot_self_nonneg. Qed.

Lemma norm_zero v : norm v = 0 <-> v = zero.
Proof.
  split.
  - intros H. pose proof (norm_square v) as Hs. rewrite H in Hs.
    unfold dot in Hs. apply vec_eq; simpl; nra.
  - intros ->. unfold norm, dot; simpl.
    replace (0 * 0 + 0 * 0 + 0 * 0) with 0 by ring. apply sqrt_0.
Qed.

Lemma norm_neg v : norm (neg v) = norm v.
Proof. unfold norm, dot; simpl. f_equal. ring. Qed.

Lemma norm_scale k v : 0 <= k -> norm (scale k v) = k * norm v.
Proof.
  intros Hk. unfold norm.
  replace (dot (scale k v) (scale k v)) with (k² * dot v v)
    by (unfold dot, Rsqr; simpl; ring).
  rewrite sqrt_mult by (auto using Rle_0_sqr, dot_self_nonneg).
  rewrite sqrt_Rsqr by assumption. reflexivity.
Qed.

Lemma unit_vector_Ok v u :
  unit_vector v = Ok u -> norm v <> 0 /\ u = divide v (norm v).
Proof.
  unfold unit_vector. destruct (Req_dec_T (norm v) 0); [discriminate|].
  intros [= <-]. auto.
Qed.

Lemma unit_vector_nonzero v :
  v <> zero -> unit_vector v = Ok (divide v (norm v)).
Proof.
  intros Hv. unfold unit_vector.
  destruct (Req_dec_T (norm v) 0) as [E|]; [|reflexivity].
  apply norm_zero in E. contradiction.
Qed.

Lemma unit_vector_dot v u : unit_vector v = Ok u -> dot u u = 1.
Proof.
  intros [Hn ->]%unit_vector_Ok.
  pose proof (norm_square v) as Hs. unfold dot in *; simpl.
  field_simplify_eq; [|assumption]. nra.
Qed.

Lemma unit_vector_of_unit u : dot u u = 1 -> unit_vector u = Ok u.
Proof.
  intros H. unfold unit_vector, norm. rewrite H, sqrt_1.
  destruct (Req_dec_T 1 0); [lra|].
  f_equal. apply vec_eq; simpl; field.
Qed.

Lemma unit_vector_scale k u :
  0 < k -> dot u u = 1 -> unit_vector (scale k u) = Ok u.
Proof.
  intros Hk Hu. unfold unit_vector.
  assert (Hn : norm (scale k u) = k).
  { rewrite norm_scale by lra. unfold norm. rewrite Hu, sqrt_1. ring. }
  rewrite Hn. destruct (Req_dec_T k 0); [lra|].
  f_equal. apply vec_eq; simpl; field; lra.
Qed.

Lemma unit_vector_neg v u :
  unit_vector v = Ok u -> unit_vector (neg v) = Ok (neg u).
Proof.
  intros [Hn ->]%unit_vector_Ok. unfold unit_vector. rewrite norm_neg.
  destruct (Req_dec_T (norm v) 0); [contradiction|].
  f_equal. apply vec_eq; simpl; field; assumption.
Qed.

Lemma apply_sub m u v : apply m (sub u v) = sub (apply m u) (apply m v).
Proof. apply vec_eq; unfold apply, dot; simpl; ring. Qed.

Lemma apply_scale m k v : apply m (scale k v) = scale k (apply m v).
Proof. apply vec_eq; unfold apply, dot; simpl; ring. Qed.

Lemma apply_add m u v : apply m (add u v) = add (apply m u) (apply m v).
Proof. apply vec_eq; unfold apply, dot; simpl; ring. Qed.
End vector_facts.

(** ** Rotations *)

Section rotation_facts.
Import Vec.
Implicit Types (u v w o : Vec3) (k : R).

Lemma z_axis_unit : unit_vector z_axis = Ok z_axis.
Proof. apply unit_vector_of_unit. unfold dot, z_axis; simpl; ring. Qed.

Lemma default_direction_unit : unit_vector default_direction = Ok default_direction.
Proof. apply unit_vector_of_unit. unfold dot, default_direction; simpl; ring. Qed.

Lemma rotation_matrix_PI_z :
  exists m, rotation_matrix PI z_axis = Ok m /\ forall v, apply m v = half_turn_z v.
Proof.
  unfold rotation_matrix. rewrite z_axis_unit. simpl.
  eexists; split; [reflexivity|].
  intros v. rewrite cos_PI, sin_PI.
  apply vec_eq; unfold apply, dot; simpl; ring.
Qed.

(** A half turn about any axis negates the vectors orthogonal to it. *)
Lemma rotation_matrix_PI_orthogonal axis :
  axis <> zero ->
  exists m, rotation_matrix PI axis = Ok m /\
            forall v, dot axis v = 0 -> apply m v = neg v.
Proof.
  intros Ha. unfold rotation_matrix.
  rewrite (unit_vector_nonzero _ Ha). simpl.
  eexists; split; [reflexivity|].
  intros v Hv. rewrite cos_PI, sin_PI.
  assert (Hn : norm axis <> 0) by (rewrite norm_zero; assumption).
  set (n := divide axis (norm axis)).
  assert (Hnv : dot n v = 0).
  { transitivity (dot axis v / norm axis); [|rewrite Hv; field; assumption].
    unfold n, dot; simpl; field; assumption. }
  apply vec_eq; unfold apply; simpl.
  - transitivity (- x v + 2 * x n * dot n v); [unfold dot; simpl; ring|].
    rewrite Hnv; ring.
  - transitivity (- y v + 2 * y n * dot n v); [unfold dot; simpl; ring|].
    rewrite Hnv; ring.
  - transitivity (- z v + 2 * z n * dot n v); [unfold dot; simpl; ring|].
    rewrite Hnv; ring.
Qed.

Lemma cross_default o :
  cross default_direction o = mk (z o) 0 (- x o).
Proof. apply vec_eq; simpl; ring. Qed.

Lemma cross_default_orthogonal o : dot (cross default_direction o) o = 0.
Proof. unfold dot; simpl; ring. Qed.

(** The rotation of the general branch carries the default direction onto
    the unit vector of the orientation. *)
Lemma alignment_rotation o u :
  cross default_direction o <> zero ->
  unit_vector o = Ok u ->
  exists theta m,
    angle default_direction o = Ok theta /\
    rotation_matrix theta (cross default_direction o) = Ok m /\
    apply m default_direction = u.
Proof.
  intros Hc Hu.
  destruct (unit_vector_Ok _ _ Hu) as [HN ->].
  unfold angle. rewrite default_direction_unit, Hu. simpl.
  unfold rotation_matrix. rewrite (unit_vector_nonzero _ Hc). simpl.
  do 2 eexists. split; [reflexivity|]. split; [reflexivity|].
  assert (HL : norm (cross default_direction o) <> 0) by (rewrite norm_zero; assumption).
  pose proof (norm_nonneg o) as HN0.
  pose proof (norm_nonneg (cross default_direction o)) as HL0.
  pose proof (norm_square o) as HN2.
  pose proof (norm_square (cross default_direction o)) as HL2.
  set (N := norm o) in *. set (L := norm (cross default_direction o)) in *.
  unfold dot in HN2, HL2. simpl in HL2.
  set (c := dot default_direction (divide o N)).
  assert (Hc_eq : c = y o / N) by (unfold c, dot; simpl; field; assumption).
  assert (Hbound : -1 <= c <= 1).
  { rewrite Hc_eq. assert (0 < N) by lra. split.
    - apply Rmult_le_reg_r with N; [assumption|]. field_simplify; [|lra]. nra.
    - apply Rmult_le_reg_r with N; [assumption|]. field_simplify; [|lra]. nra. }
  assert (Hclip : clip c (-1) 1 = c).
  { unfold clip. rewrite Rmax_left by lra. rewrite Rmin_right by lra. reflexivity. }
  rewrite Hclip, (cos_acos c Hbound), (sin_acos c Hbound).
  assert (Hs : sqrt (1 - c²) = L / N).
  { replace (1 - c²) with ((L / N)²).
    - apply sqrt_Rsqr. apply Rmult_le_pos; [lra|]. left. apply Rinv_0_lt_compat. lra.
    - rewrite Hc_eq. unfold Rsqr. field_simplify_eq; [|lra]. nra. }
  rewrite Hs, Hc_eq.
  apply vec_eq; unfold apply, dot; simpl; field_simplify_eq; try (split; assumption); try assumption; nra.
Qed.
End rotation_facts.

(** ** What [np.allclose] to the default direction gives *)

Section tolerance_facts.
Import Vec.

Lemma isclose_zero_small r : isclose 0 r -> Rabs r <= 2e-8.
Proof.
  unfold isclose, atol, rtol. rewrite Rminus_0_l, Rabs_Ropp.
  pose proof (Rabs_pos r). lra.
Qed.

Lemma allclose_default_unit u :
  dot u u = 1 -> allclose default_direction u -> close_to 1e-6 default_direction u.
Proof.
  intros Hu (Hx & Hy & Hz). simpl in Hx, Hy, Hz.
  apply isclose_zero_small in Hx, Hz.
  unfold isclose, atol, rtol in Hy. unfold dot in Hu.
  assert (Hx2 : (x u) * (x u) <= 4e-16).
  { unfold Rabs in Hx. destruct (Rcase_abs (x u)); nra. }
  assert (Hz2 : (z u) * (z u) <= 4e-16).
  { unfold Rabs in Hz. destruct (Rcase_abs (z u)); nra. }
  assert (Hy1 : y u <= 1) by nra.
  assert (Hy0 : 0.9 <= y u).
  { unfold Rabs in Hy. destruct (Rcase_abs (1 - y u)), (Rcase_abs (y u)); lra. }
  assert (Hgap : 1 - y u <= 1e-15) by nra.
  unfold close_to; simpl. repeat split.
  - rewrite Rminus_0_l, Rabs_Ropp. lra.
  - rewrite Rabs_right by lra. lra.
  - rewrite Rminus_0_l, Rabs_Ropp. lra.
Qed.
End tolerance_facts.

Local Close Scope R_scope.

(** ** Running the constructor on the store

    The store is kept in the form [h0 ++ cells], the references into
    [cells] in the form [length h0 + k]. *)

Section cells.
Implicit Types (h cells : heap) (k : nat).

Lemma lookup_cells (h0 : heap) cells k : (h0 ++ cells) !! (length h0 + k)%nat = cells !! k.
Proof. rewrite lookup_app_r by lia. f_equal. lia. Qed.

Lemma alloc_cells o (h0 : heap) cells :
  alloc o (h0 ++ cells) = ((length h0 + length cells)%nat, h0 ++ (cells ++ [o])).
Proof. unfold alloc. rewrite length_app, <- app_assoc. reflexivity. Qed.

Lemma alloc_fresh o (h0 : heap) : alloc o h0 = ((length h0 + 0)%nat, h0 ++ [o]).
Proof. unfold alloc. rewrite Nat.add_0_r. reflexivity. Qed.

Lemma insert_cells (h0 : heap) cells k o :
  <[(length h0 + k)%nat := o]> (h0 ++ cells) = h0 ++ <[k := o]> cells.
Proof. apply insert_app_r. Qed.

End cells.

Lemma fuel_split n k : S (n + S k) = S (S (n + k)).
Proof. lia. Qed.

Section clone_steps.
Implicit Types (h cells : heap) (m : clone_map) (l k : nat) (rc : option loc).

Lemma add_cells h cells k o child label :
  cells !! k = Some o -> (forall p, o <> OParticle p) ->
  add (length h + k) child label (h ++ cells) =
    Ok (h ++ <[k := with_children o
                 (match o with
                  | OCompound c | OPort c _ _ => c_children c
                  | OParticle _ => []
                  end ++ [(label, child)])]> cells).
Proof.
  intros Hk Ho. unfold add, children_of. rewrite lookup_cells, Hk.
  destruct o; [exfalso; eapply Ho; reflexivity| |];
    cbn [mbind result_bind]; rewrite insert_cells; reflexivity.
Qed.

Lemma clone_from_particle_cells f h cells k m rc p :
  cells !! k = Some (OParticle p) -> m !! (length h + k)%nat = None ->
  clone_from (S f) (length h + k) m rc (h ++ cells) =
    Ok ((length h + length cells)%nat,
        <[(length h + k)%nat := (length h + length cells)%nat]> m,
        h ++ (cells ++ [OParticle p])).
Proof.
  intros Hk Hm. cbn [clone_from]. rewrite lookup_cells, Hk. cbv beta iota.
  unfold Compound_clone.
  rewrite Hm, lookup_cells, Hk, alloc_cells. reflexivity.
Qed.

Lemma clone_from_compound_cells f h cells k m rc c :
  cells !! k = Some (OCompound c) -> m !! (length h + k)%nat = None ->
  clone_from (S f) (length h + k) m rc (h ++ cells) =
    '(m', h') ← clone_children (clone_from f) (c_children c)
                  (length h + length cells)
                  (<[(length h + k)%nat := (length h + length cells)%nat]> m) rc
                  (h ++ (cells ++ [blank_copy (OCompound c)]));
    Ok ((length h + length cells)%nat, m', h').
Proof.
  intros Hk Hm. cbn [clone_from]. rewrite lookup_cells, Hk. cbv beta iota.
  unfold Compound_clone, children_of.
  rewrite Hm, lookup_cells, Hk. cbn [mbind result_bind].
  rewrite alloc_cells. reflexivity.
Qed.
End clone_steps.

Ltac cells_step :=
  first
    [ rewrite lookup_cells
    | rewrite insert_cells
    | rewrite alloc_cells
    | erewrite add_cells by (first [reflexivity | discriminate])
    | erewrite clone_from_particle_cells
        by (first [reflexivity | rewrite ?lookup_insert_ne by lia; apply lookup_empty])
    | progress cbn [mbind result_bind mret result_ret fst snd length app lookup
                    list_lookup insert list_insert with_children blank_copy
                    c_children c_name c_port_particle clone_children] ].

Lemma Port_build_cells anchor (h0 : heap) :
  Port_build anchor h0 =
    Ok ((length h0 + 0)%nat, (length h0 + 1)%nat, (length h0 + 6)%nat,
        h0 ++ port_cells (length h0) anchor false canonical canonical).
Proof.
  unfold Port_build. rewrite alloc_fresh.
  unfold set_anchor, add_ghost, set_used.
  repeat cells_step.
  unfold clone. rewrite length_app. cbn [length].
  rewrite fuel_split.
  erewrite clone_from_compound_cells; [|reflexivity|apply lookup_empty].
  repeat cells_step.
  reflexivity.
Qed.

Lemma rotate_move theta axis l h :
  rotate theta axis l h = m ← Vec.rotation_matrix theta axis; move (Vec.apply m) l h.
Proof. reflexivity. Qed.

Lemma translate_move delta l h :
  translate delta l h = move (fun p => Vec.add p delta) l h.
Proof. reflexivity. Qed.

Lemma set_position_cells (h0 : heap) cells k v :
  set_position (length h0 + k) v (h0 ++ cells) = h0 ++ set_position k v cells.
Proof.
  unfold set_position. rewrite lookup_cells.
  destruct (cells !! k) as [[p| |]|]; try reflexivity. apply insert_cells.
Qed.

Section particles_steps.
Context (h0 cells : heap) (f k : nat).

Lemma particles_from_particle_cells p :
  cells !! k = Some (OParticle p) ->
  particles_from (S f) (h0 ++ cells) (length h0 + k) = Ok [(length h0 + k)%nat].
Proof. intros Hk. cbn [particles_from]. rewrite lookup_cells, Hk. reflexivity. Qed.

Lemma particles_from_compound_cells c :
  cells !! k = Some (OCompound c) ->
  particles_from (S f) (h0 ++ cells) (length h0 + k) =
    concat_results (fun kid : string * loc => particles_from f (h0 ++ cells) (snd kid))
                   (c_children c).
Proof. intros Hk. cbn [particles_from]. rewrite lookup_cells, Hk. reflexivity. Qed.

Lemma particles_from_port_cells c a u :
  cells !! k = Some (OPort c a u) ->
  particles_from (S f) (h0 ++ cells) (length h0 + k) =
    concat_results (fun kid : string * loc => particles_from f (h0 ++ cells) (snd kid))
                   (c_children c).
Proof. intros Hk. cbn [particles_from]. rewrite lookup_cells, Hk. reflexivity. Qed.
End particles_steps.

Ltac particles_eval :=
  repeat first
    [ erewrite particles_from_particle_cells by reflexivity
    | erewrite particles_from_compound_cells by reflexivity
    | erewrite particles_from_port_cells by reflexivity
    | progress cbn [mbind result_bind concat_results c_children snd app] ].

Ltac cells_eval :=
  repeat first
    [ rewrite lookup_cells
    | rewrite set_position_cells
    | progress cbn [mbind result_bind mret result_ret fst snd length app lookup
                    list_lookup insert list_insert c_children p_pos p_name
                    p_port_particle collect
                    port_cells subport_cell ghost zip zip_with foldl map
                    set_position frame_rows frame_map
                    f_middle f_top f_left f_right] ].

Section port_cells_facts.
Context (h0 : heap) (a : option loc) (u : bool) (up down : Frame).
Let n := length h0.
Let h := h0 ++ port_cells n a u up down.

Lemma particles_port_cells :
  particles h (n + 0) =
    Ok [n + 2; n + 3; n + 4; n + 5; n + 7; n + 8; n + 9; n + 10]%nat.
Proof.
  unfold particles, h, n. rewrite length_app. cbn [length port_cells].
  rewrite !fuel_split. particles_eval. reflexivity.
Qed.

Lemma particles_up_cells :
  particles h (n + 1) = Ok [n + 2; n + 3; n + 4; n + 5]%nat.
Proof.
  unfold particles, h, n. rewrite length_app. cbn [length port_cells].
  rewrite !fuel_split. particles_eval. reflexivity.
Qed.

Lemma particles_down_cells :
  particles h (n + 6) = Ok [n + 7; n + 8; n + 9; n + 10]%nat.
Proof.
  unfold particles, h, n. rewrite length_app. cbn [length port_cells].
  rewrite !fuel_split. particles_eval. reflexivity.
Qed.

Lemma xyz_port_cells :
  xyz_with_ports h (n + 0) = Ok (frame_rows up ++ frame_rows down).
Proof.
  unfold xyz_with_ports. rewrite particles_port_cells.
  unfold position, h, n. cells_eval. reflexivity.
Qed.

Lemma xyz_up_cells : xyz_with_ports h (n + 1) = Ok (frame_rows up).
Proof.
  unfold xyz_with_ports. rewrite particles_up_cells.
  unfold position, h, n. cells_eval. reflexivity.
Qed.

Lemma xyz_down_cells : xyz_with_ports h (n + 6) = Ok (frame_rows down).
Proof.
  unfold xyz_with_ports. rewrite particles_down_cells.
  unfold position, h, n. cells_eval. reflexivity.
Qed.

Lemma move_port_cells f :
  move f (n + 0) h =
    Ok (h0 ++ port_cells n a u (frame_map f up) (frame_map f down)).
Proof.
  unfold move, set_xyz_with_ports. rewrite xyz_port_cells, particles_port_cells.
  unfold assign_positions, h, n. cells_eval. reflexivity.
Qed.

Lemma move_down_cells f :
  move f (n + 6) h = Ok (h0 ++ port_cells n a u up (frame_map f down)).
Proof.
  unfold move, set_xyz_with_ports. rewrite xyz_down_cells, particles_down_cells.
  unfold assign_positions, h, n. cells_eval. reflexivity.
Qed.

Lemma center_port_cells :
  center h (n + 0) = Ok (Vec.mean (frame_rows up ++ frame_rows down)).
Proof. unfold center. rewrite xyz_port_cells. reflexivity. Qed.

Lemma direction_port_cells :
  direction h (n + 0) = Vec.unit_vector (Vec.sub (f_top up) (f_middle up)).
Proof. unfold direction. rewrite xyz_port_cells. reflexivity. Qed.

Lemma direction_up_cells :
  direction h (n + 1) = Vec.unit_vector (Vec.sub (f_top up) (f_middle up)).
Proof. unfold direction. rewrite xyz_up_cells. reflexivity. Qed.

Lemma direction_down_cells :
  direction h (n + 6) = Vec.unit_vector (Vec.sub (f_top down) (f_middle down)).
Proof. unfold direction. rewrite xyz_down_cells. reflexivity. Qed.
End port_cells_facts.

Local Open Scope R_scope.

(** ** Moving a subtree, in any store *)

Section traversal_facts.
Implicit Types (h : heap) (l i : loc) (locs : list loc) (vs : list Vec3).

Lemma concat_results_ext {A B} (f g : A -> result (list B)) (xs : list A) :
  (forall a, a ∈ xs -> f a = g a) -> concat_results f xs = concat_results g xs.
Proof.
  induction xs as [|a xs IH]; intros H; [reflexivity|]. cbn [concat_results].
  rewrite (H a) by (left). rewrite IH; [reflexivity|].
  intros b Hb. apply H. right. exact Hb.
Qed.

Lemma particles_from_skeleton fuel h h' l :
  same_skeleton h h' -> particles_from fuel h l = particles_from fuel h' l.
Proof.
  intros Hs. revert l. induction fuel as [|k IH]; intros l; [reflexivity|].
  cbn [particles_from]. specialize (Hs l).
  destruct (h !! l) as [[p|c|c a u]|], (h' !! l) as [[p'|c'|c' a' u']|];
    cbn in Hs; try discriminate; try reflexivity.
  - injection Hs as <-. apply concat_results_ext; auto.
  - injection Hs as <- _ _. apply concat_results_ext; auto.
Qed.

Lemma same_skeleton_length h h' : same_skeleton h h' -> length h = length h'.
Proof.
  intros Hs. destruct (Nat.lt_trichotomy (length h) (length h')) as [Hlt|[E|Hlt]];
    [|exact E|]; exfalso.
  - specialize (Hs (length h)). rewrite (lookup_ge_None_2 h) in Hs by lia.
    destruct (lookup_lt_is_Some_2 h' (length h) Hlt) as [o Ho].
    rewrite Ho in Hs. discriminate.
  - specialize (Hs (length h')). rewrite (lookup_ge_None_2 h') in Hs by lia.
    destruct (lookup_lt_is_Some_2 h (length h') Hlt) as [o Ho].
    rewrite Ho in Hs. discriminate.
Qed.

Lemma particles_skeleton h h' l :
  same_skeleton h h' -> particles h l = particles h' l.
Proof.
  intros Hs. unfold particles. rewrite (same_skeleton_length _ _ Hs).
  apply particles_from_skeleton, Hs.
Qed.

Lemma set_position_skeleton i v h : same_skeleton h (set_position i v h).
Proof.
  intros j. unfold set_position. destruct (h !! i) as [[p| |]|] eqn:Hi; try reflexivity.
  destruct (decide (j = i)) as [->|Hne].
  - rewrite list_lookup_insert_eq by (eapply lookup_lt_Some; eassumption).
    rewrite Hi. reflexivity.
  - rewrite list_lookup_insert_ne by auto. reflexivity.
Qed.

Lemma same_skeleton_trans h1 h2 h3 :
  same_skeleton h1 h2 -> same_skeleton h2 h3 -> same_skeleton h1 h3.
Proof. intros H1 H2 i. rewrite H1. apply H2. Qed.

Lemma assign_positions_skeleton locs vs h :
  same_skeleton h (assign_positions locs vs h).
Proof.
  unfold assign_positions. revert vs h. induction locs as [|i locs IH]; intros vs h.
  - intros j. reflexivity.
  - destruct vs as [|v vs]; [intros j; reflexivity|]. cbn [zip zip_with foldl fst snd].
    eapply same_skeleton_trans; [apply set_position_skeleton|apply IH].
Qed.

Lemma concat_results_Forall {A B} (P : B -> Prop) (f : A -> result (list B))
    (xs : list A) (bs : list B) :
  (forall a r, a ∈ xs -> f a = Ok r -> Forall P r) ->
  concat_results f xs = Ok bs -> Forall P bs.
Proof.
  revert bs. induction xs as [|a xs IH]; intros bs H; cbn [concat_results].
  - intros [= <-]. constructor.
  - destruct (f a) as [r|] eqn:Hf; [|discriminate]. cbn [mbind result_bind].
    destruct (concat_results f xs) as [rest|] eqn:Hr; [|discriminate].
    cbn [mbind result_bind]. intros [= <-]. apply Forall_app. split.
    + eapply H; [left|exact Hf].
    + apply IH; [|reflexivity]. intros b r' Hb. apply H. right. exact Hb.
Qed.

Lemma particles_from_are_particles fuel h l locs :
  particles_from fuel h l = Ok locs -> Forall (is_particle h) locs.
Proof.
  revert l locs. induction fuel as [|k IH]; intros l locs; [discriminate|].
  cbn [particles_from]. destruct (h !! l) as [[p|c|c a u]|] eqn:Hl; try discriminate.
  - intros [= <-]. repeat constructor. exists p. exact Hl.
  - apply concat_results_Forall. intros kid r _. apply IH.
  - apply concat_results_Forall. intros kid r _. apply IH.
Qed.

Lemma collect_positions h locs :
  Forall (is_particle h) locs ->
  exists xyz, collect (position h) locs = Ok xyz /\ length xyz = length locs.
Proof.
  induction 1 as [|i locs [p Hp] _ (xyz & IH & Hlen)]; cbn [collect].
  - exists []. auto.
  - assert (Hi : position h i = Ok (p_pos p)) by (unfold position; rewrite Hp; reflexivity).
    rewrite Hi. cbn [mbind result_bind]. rewrite IH.
    cbn [mbind result_bind]. exists (p_pos p :: xyz). cbn [length]. auto.
Qed.

Lemma position_set_position_eq i v h :
  is_particle h i -> position (set_position i v h) i = Ok v.
Proof.
  intros [p Hp]. unfold set_position, position. rewrite Hp.
  rewrite list_lookup_insert_eq by (eapply lookup_lt_Some; eassumption). reflexivity.
Qed.

Lemma position_set_position_ne i j v h :
  i <> j -> position (set_position i v h) j = position h j.
Proof.
  intros Hne. unfold set_position, position.
  destruct (h !! i) as [[p| |]|]; try reflexivity.
  rewrite list_lookup_insert_ne by auto. reflexivity.
Qed.

Lemma is_particle_set_position i j v h :
  is_particle h j -> is_particle (set_position i v h) j.
Proof.
  intros [p Hp]. pose proof (set_position_skeleton i v h j) as Hs.
  rewrite Hp in Hs. destruct (set_position i v h !! j) as [[q| |]|] eqn:Hq;
    try discriminate. exists q. exact Hq.
Qed.

Lemma position_assign_notin locs vs h j :
  j ∉ locs -> position (assign_positions locs vs h) j = position h j.
Proof.
  unfold assign_positions. revert vs h. induction locs as [|i locs IH]; intros vs h Hj.
  - reflexivity.
  - destruct vs as [|v vs]; [reflexivity|]. cbn [zip zip_with foldl fst snd].
    apply not_elem_of_cons in Hj as [Hne Hj].
    rewrite (IH vs _ Hj). apply position_set_position_ne. auto.
Qed.

Lemma collect_assign_positions locs vs h :
  NoDup locs -> Forall (is_particle h) locs -> length vs = length locs ->
  collect (position (assign_positions locs vs h)) locs = Ok vs.
Proof.
  unfold assign_positions. revert vs h.
  induction locs as [|i locs IH]; intros vs h Hnd Hp Hlen.
  - destruct vs; [reflexivity|discriminate].
  - destruct vs as [|v vs]; [discriminate|]. cbn [zip zip_with foldl fst snd collect].
    apply NoDup_cons in Hnd as [Hi Hnd]. apply Forall_cons in Hp as [Hpi Hp].
    pose proof (position_assign_notin locs vs (set_position i v h) i Hi) as Hpos.
    unfold assign_positions in Hpos. rewrite Hpos.
    rewrite (position_set_position_eq _ _ _ Hpi). cbn [mbind result_bind].
    rewrite IH; [reflexivity|exact Hnd| |].
    + eapply Forall_impl; [exact Hp|]. intros j. apply is_particle_set_position.
    + cbn [length] in Hlen. lia.
Qed.
End traversal_facts.

Section move_facts.
Implicit Types (h : heap) (l : loc) (locs : list loc).

(** Moving every particle of a subtree that owns each of them once: the
    rows read back are the rows written. *)
Lemma move_rows f h l locs :
  particles h l = Ok locs -> NoDup locs ->
  exists xyz h',
    xyz_with_ports h l = Ok xyz /\ length xyz = length locs /\
    move f l h = Ok h' /\
    xyz_with_ports h' l = Ok (map f xyz).
Proof.
  intros Hp Hnd.
  pose proof (particles_from_are_particles _ _ _ _ Hp) as Hall.
  destruct (collect_positions _ _ Hall) as (xyz & Hxyz & Hlen).
  exists xyz, (assign_positions locs (map f xyz) h).
  assert (Hget : xyz_with_ports h l = Ok xyz).
  { unfold xyz_with_ports. rewrite Hp. exact Hxyz. }
  split; [exact Hget|]. split; [exact Hlen|]. split.
  - unfold move, set_xyz_with_ports. rewrite Hget. cbn [mbind result_bind].
    rewrite Hp. reflexivity.
  - unfold xyz_with_ports.
    rewrite <- (particles_skeleton h _ l (assign_positions_skeleton _ _ _)), Hp.
    cbn [mbind result_bind]. apply collect_assign_positions; try assumption.
    rewrite length_map. exact Hlen.
Qed.
End move_facts.

Section mean_facts.
Import Vec.

Lemma sum_shift delta (ps : list Vec3) :
  sum (map (fun p => add p delta) ps) = add (sum ps) (scale (INR (length ps)) delta).
Proof.
  induction ps as [|p ps IH].
  - apply vec_eq; simpl; ring.
  - cbn [map sum foldr length]. fold (sum (map (fun p => add p delta) ps)).
    fold (sum ps). rewrite IH, S_INR. apply vec_eq; simpl; ring.
Qed.

Lemma mean_shift delta (ps : list Vec3) :
  ps <> [] -> mean (map (fun p => add p delta) ps) = add (mean ps) delta.
Proof.
  intros Hne. unfold mean. rewrite sum_shift, length_map.
  assert (Hn : INR (length ps) <> 0).
  { apply not_0_INR. destruct ps; [contradiction|discriminate]. }
  apply vec_eq; simpl; field; exact Hn.
Qed.
End mean_facts.

(** ** The store after construction *)

Section port_init_cells.
Context (h0 : heap) (anchor : option loc).
Let n := length h0.

Lemma rotate_port_cells theta axis af u up down :
  rotate theta axis (n + 0) (h0 ++ port_cells n af u up down) =
    m ← Vec.rotation_matrix theta axis;
    Ok (h0 ++ port_cells n af u (frame_map (Vec.apply m) up)
                (frame_map (Vec.apply m) down)).
Proof.
  rewrite rotate_move. destruct (Vec.rotation_matrix theta axis); [|reflexivity].
  apply move_port_cells.
Qed.

Lemma rotate_down_cells theta axis af u up down :
  rotate theta axis (n + 6) (h0 ++ port_cells n af u up down) =
    m ← Vec.rotation_matrix theta axis;
    Ok (h0 ++ port_cells n af u up (frame_map (Vec.apply m) down)).
Proof.
  rewrite rotate_move. destruct (Vec.rotation_matrix theta axis); [|reflexivity].
  apply move_down_cells.
Qed.

Lemma translate_port_cells delta af u up down :
  translate delta (n + 0) (h0 ++ port_cells n af u up down) =
    Ok (h0 ++ port_cells n af u (fst (shift delta (up, down)))
                (snd (shift delta (up, down)))).
Proof. rewrite translate_move. apply move_port_cells. Qed.

Lemma Port_orient_cells u up down o :
  Port_orient (n + 0) (n + 6) o (h0 ++ port_cells n anchor u up down) =
    b ← alignment o;
    match b with
    | Antiparallel =>
        m ← Vec.rotation_matrix PI z_axis;
        Ok (h0 ++ port_cells n anchor u (frame_map (Vec.apply m) up)
                    (frame_map (Vec.apply m) (frame_map (Vec.apply m) down)))
    | Parallel =>
        m ← Vec.rotation_matrix PI z_axis;
        Ok (h0 ++ port_cells n anchor u up (frame_map (Vec.apply m) down))
    | General =>
        let normal := Vec.cross default_direction o in
        theta ← Vec.angle default_direction o;
        m ← Vec.rotation_matrix theta normal;
        m' ← Vec.rotation_matrix PI normal;
        Ok (h0 ++ port_cells n anchor u (frame_map (Vec.apply m) up)
                    (frame_map (Vec.apply m') (frame_map (Vec.apply m) down)))
    end.
Proof.
  unfold Port_orient. destruct (alignment o) as [[| |]|e]; cbn [mbind result_bind].
  - rewrite rotate_down_cells.
    destruct (Vec.rotation_matrix PI z_axis) as [m|e] eqn:Hm;
      cbn [mbind result_bind]; [|reflexivity].
    rewrite rotate_port_cells, Hm. reflexivity.
  - apply rotate_down_cells.
  - destruct (Vec.angle default_direction o) as [theta|e];
      cbn [mbind result_bind]; [|reflexivity].
    rewrite rotate_port_cells.
    destruct (Vec.rotation_matrix theta _) as [m|e];
      cbn [mbind result_bind]; [|reflexivity].
    apply rotate_down_cells.
  - reflexivity.
Qed.

Lemma position_old_cell cells a :
  (a < n)%nat -> position (h0 ++ cells) a = position h0 a.
Proof. intros Ha. unfold position. rewrite lookup_app_l by exact Ha. reflexivity. Qed.

Hypothesis anchor_exists : forall a, anchor = Some a -> (a < n)%nat.

Lemma Port_place_cells af u up down o s :
  Port_place (n + 0) anchor o s (h0 ++ port_cells n af u up down) =
    pos ← anchor_position h0 anchor;
    '(up', down') ← place_frames pos o s (up, down);
    Ok (h0 ++ port_cells n af u up' down').
Proof.
  unfold Port_place, place_frames, anchor_position.
  destruct anchor as [a|] eqn:Ha.
  - rewrite position_old_cell by (apply anchor_exists; reflexivity).
    destruct (position h0 a) as [pos|e]; cbn [mbind result_bind]; [|reflexivity].
    unfold translate_to. unfold n. rewrite center_port_cells. cbn [mbind result_bind].
    rewrite translate_port_cells. cbn [mbind result_bind].
    destruct (Vec.unit_vector o) as [w|e]; cbn [mbind result_bind]; [|reflexivity].
    rewrite translate_port_cells. reflexivity.
  - cbn [mbind result_bind].
    destruct (Vec.unit_vector o) as [w|e]; cbn [mbind result_bind]; [|reflexivity].
    unfold n. rewrite translate_port_cells. reflexivity.
Qed.

(** The store after construction: the store before it, followed by the
    eleven cells of the Port. *)
Lemma Port_init_cells orientation s :
  Port_init anchor orientation s h0 =
    let o := default default_direction orientation in
    '(up, down) ← orient_frames o;
    pos ← anchor_position h0 anchor;
    '(up', down') ← place_frames pos o s (up, down);
    Ok ((n + 0)%nat, h0 ++ port_cells n anchor false up' down').
Proof.
  unfold Port_init. rewrite Port_build_cells. cbn [mbind result_bind]. cbv zeta.
  fold n. rewrite Port_orient_cells. unfold orient_frames.
  set (o := default default_direction orientation).
  destruct (alignment o) as [[| |]|e]; cbn [mbind result_bind]; [| | |reflexivity].
  - destruct (Vec.rotation_matrix PI z_axis) as [m|e];
      cbn [mbind result_bind]; [|reflexivity].
    rewrite Port_place_cells.
    destruct (anchor_position h0 anchor); cbn [mbind result_bind]; [|reflexivity].
    destruct (place_frames _ _ _ _) as [[up' down']|e]; reflexivity.
  - destruct (Vec.rotation_matrix PI z_axis) as [m|e];
      cbn [mbind result_bind]; [|reflexivity].
    rewrite Port_place_cells.
    destruct (anchor_position h0 anchor); cbn [mbind result_bind]; [|reflexivity].
    destruct (place_frames _ _ _ _) as [[up' down']|e]; reflexivity.
  - cbv zeta.
    destruct (Vec.angle default_direction o) as [theta|e];
      cbn [mbind result_bind]; [|reflexivity].
    destruct (Vec.rotation_matrix theta _) as [m|e];
      cbn [mbind result_bind]; [|reflexivity].
    destruct (Vec.rotation_matrix PI _) as [m'|e];
      cbn [mbind result_bind]; [|reflexivity].
    rewrite Port_place_cells.
    destruct (anchor_position h0 anchor); cbn [mbind result_bind]; [|reflexivity].
    destruct (place_frames _ _ _ _) as [[up' down']|e]; reflexivity.
Qed.
End port_init_cells.

(** ** Geometry of the sub-frames *)

Section frame_facts.
Import Vec.
Implicit Types (fr up down : Frame) (m : Mat3) (u v o : Vec3).

Lemma frame_axis_canonical : frame_axis canonical = scale 0.02 default_direction.
Proof. apply vec_eq; simpl; lra. Qed.

Lemma frame_sum_canonical : frame_sum canonical = zero.
Proof. apply vec_eq; simpl; lra. Qed.

Lemma frame_axis_apply m fr :
  frame_axis (frame_map (apply m) fr) = apply m (frame_axis fr).
Proof. unfold frame_axis. cbn [frame_map f_top f_middle]. symmetry. apply apply_sub. Qed.

Lemma frame_sum_apply m fr :
  frame_sum (frame_map (apply m) fr) = apply m (frame_sum fr).
Proof.
  unfold frame_sum. cbn [frame_map f_top f_middle f_left f_right].
  rewrite !apply_add. reflexivity.
Qed.

Lemma frame_axis_shift delta fr :
  frame_axis (frame_map (fun p => add p delta) fr) = frame_axis fr.
Proof. apply vec_eq; simpl; ring. Qed.

Lemma apply_zero m : apply m zero = zero.
Proof. apply vec_eq; unfold apply, dot; simpl; ring. Qed.

Lemma centroid_sums up down :
  centroid (up, down) = divide (add (frame_sum up) (frame_sum down)) 8.
Proof.
  unfold centroid, mean. cbn [fst snd frame_rows app length].
  replace (INR 8) with 8 by (simpl; ring).
  apply vec_eq; simpl; field.
Qed.

Lemma centroid_shift delta up down :
  centroid (shift delta (up, down)) = add (centroid (up, down)) delta.
Proof.
  unfold shift. cbn [fst snd]. rewrite !centroid_sums.
  apply vec_eq; simpl; field.
Qed.

Lemma half_turn_z_default :
  half_turn_z (scale 0.02 default_direction) = scale 0.02 (neg default_direction).
Proof. apply vec_eq; simpl; ring. Qed.

Lemma neg_unit u : dot u u = 1 -> dot (neg u) (neg u) = 1.
Proof. unfold dot; simpl. intros <-. ring. Qed.

Lemma neg_neg v : neg (neg v) = v.
Proof. apply vec_eq; simpl; ring. Qed.

Lemma scale_neg k v : scale k (neg v) = neg (scale k v).
Proof. apply vec_eq; simpl; ring. Qed.

Lemma close_to_neg tol u v : close_to tol u v -> close_to tol (neg u) (neg v).
Proof.
  unfold close_to; simpl. intros (Hx & Hy & Hz).
  repeat split.
  - replace (- x u - - x v) with (- (x u - x v)) by ring. rewrite Rabs_Ropp. exact Hx.
  - replace (- y u - - y v) with (- (y u - y v)) by ring. rewrite Rabs_Ropp. exact Hy.
  - replace (- z u - - z v) with (- (z u - z v)) by ring. rewrite Rabs_Ropp. exact Hz.
Qed.

Lemma close_to_refl tol u : 0 <= tol -> close_to tol u u.
Proof.
  intros Ht. unfold close_to.
  rewrite !Rminus_diag, Rabs_R0. auto.
Qed.

(** Outside the two dedicated branches the rotation axis is not zero. *)
Lemma general_branch_axis o :
  alignment o = Ok General -> cross default_direction o <> zero.
Proof.
  unfold alignment. intros Hal Hz.
  rewrite cross_default in Hz. injection Hz as Hz Hx.
  assert (Hox : x o = 0) by lra. clear Hx.
  assert (Hn : norm o = Rabs (y o)).
  { unfold norm, dot. rewrite Hox, Hz.
    replace (0 * 0 + y o * y o + 0 * 0) with ((y o)²) by (unfold Rsqr; ring).
    apply sqrt_Rsqr_abs. }
  destruct (unit_vector (neg o)) as [w|] eqn:Hw; [|discriminate].
  cbn [mbind result_bind] in Hal.
  destruct (allclose_dec default_direction w) as [|Hnw]; [discriminate|].
  destruct (unit_vector o) as [u|] eqn:Hu; [|discriminate].
  cbn [mbind result_bind] in Hal.
  destruct (allclose_dec default_direction u) as [|Hnu]; [discriminate|].
  destruct (unit_vector_Ok _ _ Hu) as [HN ->].
  destruct (unit_vector_Ok _ _ Hw) as [_ ->]. rewrite norm_neg in Hnw.
  rewrite Hn in *.
  assert (Hy : y o <> 0) by (intros E; rewrite E, Rabs_R0 in HN; lra).
  unfold allclose, isclose, atol, rtol in Hnu, Hnw. simpl in Hnu, Hnw.
  rewrite Hox, Hz in Hnu, Hnw.
  destruct (Rcase_abs (y o)) as [Hneg|Hpos].
  - apply Hnw. rewrite (Rabs_left _ Hneg).
    replace (- 0 / - y o) with 0 by (field; lra).
    replace (- y o / - y o) with 1 by (field; lra).
    rewrite !Rminus_diag, Rabs_R0, Rabs_R1. lra.
  - apply Hnu. rewrite (Rabs_right _ Hpos).
    replace (0 / y o) with 0 by (field; lra).
    replace (y o / y o) with 1 by (field; lra).
    rewrite !Rminus_diag, Rabs_R0, Rabs_R1. lra.
Qed.

Lemma alignment_total o : o <> zero -> exists b, alignment o = Ok b.
Proof.
  intros Ho. unfold alignment.
  assert (Hn : neg o <> zero).
  { intros E. apply Ho. rewrite <- (neg_neg o), E. apply vec_eq; simpl; ring. }
  rewrite (unit_vector_nonzero _ Hn), (unit_vector_nonzero _ Ho).
  cbn [mbind result_bind].
  destruct (allclose_dec _ _); [eauto|]. destruct (allclose_dec _ _); eauto.
Qed.
End frame_facts.

Section orient_facts.
Import Vec.
Implicit Types (fr up down : Frame) (m : Mat3) (u v o : Vec3).

Lemma default_direction_dot : dot default_direction default_direction = 1.
Proof. unfold dot; simpl; ring. Qed.

Lemma frame_sum_apply2 m m' fr :
  frame_sum fr = zero -> frame_sum (frame_map (apply m') (frame_map (apply m) fr)) = zero.
Proof. intros H. rewrite !frame_sum_apply, H, !apply_zero. reflexivity. Qed.

Lemma centroid_zero up down :
  frame_sum up = zero -> frame_sum down = zero -> centroid (up, down) = zero.
Proof.
  intros Hu Hd. rewrite centroid_sums, Hu, Hd. apply vec_eq; simpl; field.
Qed.

(** The eight canonical points have their centroid at the origin. *)
Lemma canonical_centroid : centroid (canonical, canonical) = zero.
Proof. apply centroid_zero; apply frame_sum_canonical. Qed.

(** What the alignment step establishes, branch by branch. *)
Lemma orient_frames_spec o u b :
  unit_vector o = Ok u -> alignment o = Ok b ->
  exists up down du,
    orient_frames o = Ok (up, down) /\
    unit_vector (frame_axis up) = Ok du /\
    unit_vector (frame_axis down) = Ok (neg du) /\
    dot du du = 1 /\
    close_to 1e-6 du u /\
    du = match b with
         | Antiparallel => neg default_direction
         | Parallel => default_direction
         | General => u
         end /\
    frame_sum up = zero /\ frame_sum down = zero.
Proof.
  intros Hu Hb. unfold orient_frames. rewrite Hb. cbn [mbind result_bind].
  pose proof (unit_vector_dot _ _ Hu) as Hu1.
  destruct b.
  - (* antiparallel *)
    destruct rotation_matrix_PI_z as (m & -> & Hm). cbn [mbind result_bind].
    do 3 eexists. split; [reflexivity|].
    rewrite !frame_axis_apply, frame_axis_canonical, !Hm, half_turn_z_default.
    assert (Hback : half_turn_z (scale 0.02 (neg default_direction))
                    = scale 0.02 default_direction) by (apply vec_eq; simpl; ring).
    rewrite Hback.
    split; [apply unit_vector_scale; [lra|apply neg_unit, default_direction_dot]|].
    rewrite neg_neg.
    split; [apply unit_vector_scale; [lra|apply default_direction_dot]|].
    split; [apply neg_unit, default_direction_dot|].
    split; [|split; [reflexivity|]].
    + unfold alignment in Hb. rewrite (unit_vector_neg _ _ Hu) in Hb.
      cbn [mbind result_bind] in Hb.
      destruct (allclose_dec default_direction (neg u)) as [Hc|]; [|].
      * rewrite <- (neg_neg u). apply close_to_neg.
        apply allclose_default_unit; [apply neg_unit; exact Hu1|exact Hc].
      * rewrite Hu in Hb. cbn [mbind result_bind] in Hb.
        destruct (allclose_dec _ _); discriminate.
    + split; [rewrite frame_sum_apply, frame_sum_canonical; apply apply_zero|].
      apply frame_sum_apply2, frame_sum_canonical.
  - (* parallel *)
    destruct rotation_matrix_PI_z as (m & -> & Hm). cbn [mbind result_bind].
    do 3 eexists. split; [reflexivity|].
    rewrite !frame_axis_apply, frame_axis_canonical, !Hm, half_turn_z_default.
    split; [apply unit_vector_scale; [lra|apply default_direction_dot]|].
    split; [apply unit_vector_scale; [lra|apply neg_unit, default_direction_dot]|].
    split; [apply default_direction_dot|].
    split; [|split; [reflexivity|]].
    + unfold alignment in Hb. rewrite (unit_vector_neg _ _ Hu) in Hb.
      cbn [mbind result_bind] in Hb.
      destruct (allclose_dec default_direction (neg u)); [discriminate|].
      rewrite Hu in Hb. cbn [mbind result_bind] in Hb.
      destruct (allclose_dec default_direction u) as [Hc|]; [|discriminate].
      apply allclose_default_unit; assumption.
    + split; [apply frame_sum_canonical|].
      rewrite frame_sum_apply, frame_sum_canonical; apply apply_zero.
  - (* general *)
    pose proof (general_branch_axis _ Hb) as Hax.
    destruct (alignment_rotation _ _ Hax Hu) as (theta & m & -> & Hm & Hmd).
    destruct (rotation_matrix_PI_orthogonal _ Hax) as (m' & Hm' & Hflip).
    cbv zeta. cbn [mbind result_bind]. rewrite Hm, Hm'. cbn [mbind result_bind].
    do 3 eexists. split; [reflexivity|].
    rewrite !frame_axis_apply, frame_axis_canonical, !apply_scale, Hmd.
    assert (Horth : dot (cross default_direction o) u = 0).
    { destruct (unit_vector_Ok _ _ Hu) as [HN ->].
      pose proof (cross_default_orthogonal o) as Hc.
      unfold dot in *; simpl in *. field_simplify_eq; [|exact HN]. lra. }
    rewrite (Hflip _ Horth), scale_neg.
    split; [apply unit_vector_scale; [lra|exact Hu1]|].
    split; [rewrite <- scale_neg; apply unit_vector_scale;
            [lra|apply neg_unit; exact Hu1]|].
    split; [exact Hu1|].
    split; [apply close_to_refl; lra|].
    split; [reflexivity|].
    split; [rewrite frame_sum_apply, frame_sum_canonical; apply apply_zero|].
    apply frame_sum_apply2, frame_sum_canonical.
Qed.
End orient_facts.

Local Close Scope R_scope.

(** ** The clone engine keeps its invariant *)

Section inv_facts.
Context (orig : heap).
Implicit Types (m : clone_map) (h : heap) (l k v : loc).

Lemma inv_lookup_orig m h i :
  clone_inv orig m h -> i < length orig -> h !! i = orig !! i.
Proof.
  intros Hinv Hi. transitivity (take (length orig) h !! i).
  - rewrite lookup_take_lt by exact Hi. reflexivity.
  - rewrite (inv_orig _ _ _ Hinv). reflexivity.
Qed.

Lemma inv_lookup_Some m h i o :
  clone_inv orig m h -> orig !! i = Some o -> h !! i = Some o.
Proof.
  intros Hinv Ho. rewrite (inv_lookup_orig m h i Hinv); [exact Ho|].
  eapply lookup_lt_Some; exact Ho.
Qed.

Lemma frame_refl h : frame h h.
Proof. split; [lia|]. auto. Qed.

Lemma frame_trans h1 h2 h3 : frame h1 h2 -> frame h2 h3 -> frame h1 h3.
Proof.
  intros [L1 F1] [L2 F2]. split; [lia|]. intros v Hv.
  destruct (F1 v Hv) as [A1 B1]. destruct (F2 v ltac:(lia)) as [A2 B2].
  split; congruence.
Qed.

Lemma frame_alloc h o : frame h (h ++ [o]).
Proof.
  split; [rewrite length_app; lia|]. intros v Hv.
  rewrite lookup_app_l by exact Hv. auto.
Qed.

Lemma frame_insert h i o o' :
  h !! i = Some o -> blank_copy o' = blank_copy o -> kids_of o' = kids_of o ->
  frame h (<[i := o']> h).
Proof.
  intros Hi Hb Hk. split; [rewrite length_insert; lia|]. intros v Hv.
  destruct (decide (v = i)) as [->|Hne].
  - rewrite list_lookup_insert_eq by exact Hv. rewrite Hi. cbn. rewrite Hb, Hk. auto.
  - rewrite list_lookup_insert_ne by auto. auto.
Qed.

Lemma keeps_ports_refl h : keeps_ports h h.
Proof. intros v c a u H. eauto. Qed.

Lemma keeps_ports_trans h1 h2 h3 :
  keeps_ports h1 h2 -> keeps_ports h2 h3 -> keeps_ports h1 h3.
Proof.
  intros K1 K2 v c a u H. destruct (K1 _ _ _ _ H) as [c' H'].
  exact (K2 _ _ _ _ H').
Qed.

Lemma keeps_ports_alloc h o : keeps_ports h (h ++ [o]).
Proof.
  intros v c a u H. exists c.
  rewrite lookup_app_l by (eapply lookup_lt_Some; exact H). exact H.
Qed.

Lemma keeps_ports_insert h i o o' :
  h !! i = Some o ->
  (forall c a u, o = OPort c (Some a) u -> exists c', o' = OPort c' (Some a) u) ->
  keeps_ports h (<[i := o']> h).
Proof.
  intros Hi Ho v c a u Hv. destruct (decide (v = i)) as [->|Hne].
  - rewrite Hi in Hv. injection Hv as ->. destruct (Ho _ _ _ eq_refl) as [c' ->].
    exists c'. apply list_lookup_insert_eq. eapply lookup_lt_Some; exact Hi.
  - exists c. rewrite list_lookup_insert_ne by auto. exact Hv.
Qed.

Lemma inv_alloc m h l o o' :
  clone_inv orig m h -> orig !! l = Some o -> blank_copy o' = blank_copy o ->
  m !! l = None -> (forall c a u, o' <> OPort c (Some a) u) ->
  clone_inv orig (<[l := length h]> m) (h ++ [o']).
Proof.
  intros Hinv Hl Hb Hm Hnp. pose proof (inv_len _ _ _ Hinv) as Hlen. split.
  - rewrite take_app_le by exact Hlen. apply (inv_orig _ _ _ Hinv).
  - rewrite length_app. lia.
  - intros k v Hkv. rewrite length_app. cbn [length].
    destruct (decide (k = l)) as [->|Hne].
    + rewrite lookup_insert_eq in Hkv. injection Hkv as <-.
      split; [eapply lookup_lt_Some; exact Hl|]. split; [lia|].
      rewrite lookup_app_r by lia. rewrite Nat.sub_diag. cbn. rewrite Hl. cbn.
      f_equal. exact Hb.
    + rewrite lookup_insert_ne in Hkv by auto.
      destruct (inv_map _ _ _ Hinv k v Hkv) as (Hk & Hv & Hs).
      split; [exact Hk|]. split; [lia|].
      rewrite lookup_app_l by lia. exact Hs.
  - intros k k' v Hk Hk'.
    destruct (decide (k = l)) as [->|Hne], (decide (k' = l)) as [->|Hne'].
    + reflexivity.
    + rewrite lookup_insert_eq in Hk. injection Hk as <-.
      rewrite lookup_insert_ne in Hk' by auto.
      destruct (inv_map _ _ _ Hinv k' _ Hk') as (_ & Hv & _). lia.
    + rewrite lookup_insert_eq in Hk'. injection Hk' as <-.
      rewrite lookup_insert_ne in Hk by auto.
      destruct (inv_map _ _ _ Hinv k _ Hk) as (_ & Hv & _). lia.
    + rewrite lookup_insert_ne in Hk, Hk' by auto.
      exact (inv_inj _ _ _ Hinv k k' v Hk Hk').
  - intros k v c' a' u' Hk Hv. destruct (decide (k = l)) as [->|Hne].
    + rewrite lookup_insert_eq in Hk. injection Hk as <-.
      rewrite lookup_app_r, Nat.sub_diag in Hv by lia. injection Hv as ->.
      exfalso. eapply Hnp. reflexivity.
    + rewrite lookup_insert_ne in Hk by auto.
      destruct (inv_map _ _ _ Hinv k v Hk) as (_ & Hlt & _).
      rewrite lookup_app_l in Hv by lia.
      destruct (inv_port _ _ _ Hinv k v c' a' u' Hk Hv) as (c & a & Hok & Ha).
      exists c, a. split; [exact Hok|].
      rewrite lookup_insert_ne; [exact Ha|]. intros <-. congruence.
Qed.

(** Overwriting a cell made since the clone began, keeping its class,
    name and flag; an anchor it gets is the image of its original's. *)
Lemma inv_overwrite m h i o o' :
  clone_inv orig m h -> length orig <= i -> h !! i = Some o ->
  blank_copy o' = blank_copy o ->
  (forall k c' a' u', m !! k = Some i -> o' = OPort c' (Some a') u' ->
     exists c a, orig !! k = Some (OPort c (Some a) u') /\ m !! a = Some a') ->
  clone_inv orig m (<[i := o']> h).
Proof.
  intros Hinv Hi Ho Hb Hp. split.
  - rewrite take_insert_ge by exact Hi. apply (inv_orig _ _ _ Hinv).
  - rewrite length_insert. apply (inv_len _ _ _ Hinv).
  - intros k v Hkv. rewrite length_insert.
    destruct (inv_map _ _ _ Hinv k v Hkv) as (Hk & Hv & Hs).
    split; [exact Hk|]. split; [exact Hv|].
    destruct (decide (v = i)) as [->|Hne].
    + rewrite list_lookup_insert_eq by lia. rewrite <- Hs, Ho. cbn. f_equal. exact Hb.
    + rewrite list_lookup_insert_ne by auto. exact Hs.
  - apply (inv_inj _ _ _ Hinv).
  - intros k v c' a' u' Hk Hv. destruct (decide (v = i)) as [->|Hne].
    + rewrite list_lookup_insert_eq in Hv by (eapply lookup_lt_Some; exact Ho).
      injection Hv as Hv. exact (Hp k c' a' u' Hk Hv).
    + rewrite list_lookup_insert_ne in Hv by auto.
      exact (inv_port _ _ _ Hinv k v c' a' u' Hk Hv).
Qed.

Lemma inv_insert m h i o o' :
  clone_inv orig m h -> length orig <= i -> h !! i = Some o ->
  blank_copy o' = blank_copy o ->
  (forall c a u, o' = OPort c (Some a) u -> exists c0, o = OPort c0 (Some a) u) ->
  clone_inv orig m (<[i := o']> h).
Proof.
  intros Hinv Hi Ho Hb Hp. eapply inv_overwrite; try eassumption.
  intros k c' a' u' Hk E. destruct (Hp _ _ _ E) as [c0 ->].
  exact (inv_port _ _ _ Hinv k i c0 a' u' Hk Ho).
Qed.

Lemma relabelled_mono m m' kids kids' :
  m ⊆ m' -> relabelled m kids kids' -> relabelled m' kids kids'.
Proof.
  intros Hsub Hrel. eapply Forall2_impl; [exact Hrel|].
  intros kid kid' [Hl Hm]. split; [exact Hl|].
  eapply lookup_weaken; eassumption.
Qed.

(** A finished copy of a Port stays one while Ports keep what they have. *)
Lemma port_image_keep m m' h1 h2 v o o1 o2 :
  port_image m o o1 -> m ⊆ m' -> keeps_ports h1 h2 ->
  h1 !! v = Some o1 -> h2 !! v = Some o2 -> port_image m' o o2.
Proof.
  intros Hp Hsub Hk H1 H2. destruct o as [p|c|c a u]; [exact I..|].
  destruct Hp as (c' & a0 & a' & -> & -> & Ha).
  destruct (Hk _ _ _ _ H1) as [c'' H2']. rewrite H2 in H2'. injection H2' as ->.
  exists c'', a0, a'. split; [reflexivity|]. split; [reflexivity|].
  eapply lookup_weaken; eassumption.
Qed.

Lemma completed_refl skip m h h' : completed_upto skip orig m h m h'.
Proof. intros k v Hk Hn. congruence. Qed.

Lemma completed_weaken skip m h m' h' :
  completed orig m h m' h' -> completed_upto skip orig m h m' h'.
Proof.
  intros Hc k v Hk Hn. destruct (Hc k v Hk Hn) as (Hv & o & o' & Ho & Ho' & Hrel & Hp).
  split; [exact Hv|]. exists o, o'. split; [exact Ho|]. split; [exact Ho'|].
  split; [exact Hrel|]. intros _. apply Hp. discriminate.
Qed.

Lemma completed_step skip m h m1 h1 m2 h2 :
  completed_upto skip orig m h m1 h1 -> completed_upto skip orig m1 h1 m2 h2 ->
  clone_inv orig m1 h1 -> m1 ⊆ m2 -> frame h h1 -> frame h1 h2 ->
  keeps_ports h1 h2 ->
  completed_upto skip orig m h m2 h2.
Proof.
  intros C1 C2 Hinv Hsub [L1 _] [L2 F2] K2 k v Hk Hn.
  destruct (m1 !! k) as [v1|] eqn:Hk1.
  - assert (v1 = v) as ->.
    { pose proof (lookup_weaken _ _ _ _ Hk1 Hsub). congruence. }
    destruct (C1 k v Hk1 Hn) as (Hv & o & o' & Ho & Ho' & Hrel & Hp).
    split; [exact Hv|].
    destruct (inv_map _ _ _ Hinv k v Hk1) as (_ & Hlt & _).
    destruct (F2 v ltac:(lia)) as [_ Hkids]. rewrite Ho' in Hkids.
    destruct (h2 !! v) as [o2|] eqn:Ho2; [|discriminate].
    injection Hkids as Hkids.
    exists o, o2. split; [exact Ho|]. split; [reflexivity|].
    split; [rewrite Hkids; eapply relabelled_mono; eassumption|].
    intros Hs. eapply port_image_keep; [exact (Hp Hs)|exact Hsub|exact K2|exact Ho'|exact Ho2].
  - destruct (C2 k v Hk Hk1) as (Hv & Hrest). split; [lia|exact Hrest].
Qed.

(** Once the Port left out has its anchor and flag, nothing is left out. *)
Lemma completed_upgrade l m h m' h' :
  completed_upto (Some l) orig m h m' h' ->
  (forall v o o', m' !! l = Some v -> orig !! l = Some o -> h' !! v = Some o' ->
     port_image m' o o') ->
  completed orig m h m' h'.
Proof.
  intros Hc Hl k v Hk Hn. destruct (Hc k v Hk Hn) as (Hv & o & o' & Ho & Ho' & Hrel & Hp).
  split; [exact Hv|]. exists o, o'. split; [exact Ho|]. split; [exact Ho'|].
  split; [exact Hrel|]. intros _.
  destruct (decide (k = l)) as [->|Hne].
  - exact (Hl v o o' Hk Ho Ho').
  - apply Hp. congruence.
Qed.
End inv_facts.

Section object_facts.
Implicit Types (o : Obj).

Lemma blank_copy_with_children o kids :
  blank_copy (with_children o kids) = blank_copy o.
Proof. destruct o; reflexivity. Qed.

Lemma kids_of_with_children o kids :
  (forall p, o <> OParticle p) -> kids_of (with_children o kids) = kids.
Proof. destruct o; intros H; [exfalso; eapply H; reflexivity|reflexivity..]. Qed.

Lemma with_children_port o kids c a u :
  with_children o kids = OPort c a u -> exists c0, o = OPort c0 a u.
Proof. destruct o as [p|c0|c0 a0 u0]; intros [=]. subst. eauto. Qed.

Lemma port_with_children o kids c a u :
  o = OPort c a u -> exists c', with_children o kids = OPort c' a u.
Proof. intros ->. cbn. eauto. Qed.

Lemma kids_of_blank_copy o : kids_of (blank_copy o) = [].
Proof. destruct o; reflexivity. Qed.

Lemma blank_copy_idemp o : blank_copy (blank_copy o) = blank_copy o.
Proof. destruct o; reflexivity. Qed.

Lemma blank_copy_no_anchor o c a u : blank_copy o <> OPort c (Some a) u.
Proof. destruct o; discriminate. Qed.

Lemma blank_copy_not_particle o o' :
  blank_copy o' = blank_copy o -> (forall p, o <> OParticle p) ->
  forall p, o' <> OParticle p.
Proof.
  intros Hb Ho q ->. destruct o; try discriminate. eapply Ho; reflexivity.
Qed.

Lemma children_of_lookup (h : heap) l o :
  h !! l = Some o -> (forall p, o <> OParticle p) -> children_of h l = Ok (kids_of o).
Proof.
  intros Hl Ho. unfold children_of. rewrite Hl.
  destruct o; [exfalso; eapply Ho; reflexivity|reflexivity..].
Qed.
End object_facts.

Section clone_spec.
Context (orig : heap) (rc : option loc) (d' : nat).
Context (rec : loc -> clone_map -> option loc -> heap -> result (loc * clone_map * heap)).
Hypothesis rec_spec : forall child m h,
  height_le orig d' child -> clone_inv orig m h ->
  clone_post orig m h child (rec child m rc h).

Implicit Types (m : clone_map) (h : heap) (l k v : loc).

Lemma clone_children_spec kids : forall newone m h o_new,
  Forall (fun kid : string * loc => height_le orig d' (snd kid)) kids ->
  clone_inv orig m h -> length orig <= newone ->
  h !! newone = Some o_new -> (forall p, o_new <> OParticle p) ->
  exists m' h' o_new' kids',
    clone_children rec kids newone m rc h = Ok (m', h') /\
    clone_inv orig m' h' /\ m ⊆ m' /\
    h' !! newone = Some o_new' /\ blank_copy o_new' = blank_copy o_new /\
    kids_of o_new' = kids_of o_new ++ kids' /\ relabelled m' kids kids' /\
    length h <= length h' /\
    (forall v, v < length h -> v <> newone ->
       blank_copy <$> (h' !! v) = blank_copy <$> (h !! v) /\
       kids_of <$> (h' !! v) = kids_of <$> (h !! v)) /\
    keeps_ports h h' /\
    completed orig m h m' h'.
Proof.
  induction kids as [|[label child] rest IH]; intros newone m h o_new Hh Hinv Hnew Ho Hnp.
  - exists m, h, o_new, []. cbn [clone_children].
    split; [reflexivity|]. split; [exact Hinv|]. split; [reflexivity|].
    split; [exact Ho|]. split; [reflexivity|]. split; [rewrite app_nil_r; reflexivity|].
    split; [constructor|]. split; [lia|]. split; [auto|].
    split; [apply keeps_ports_refl|apply completed_refl].
  - apply Forall_cons in Hh as [Hchild Hrest]. cbn [snd] in Hchild.
    destruct (rec_spec child m h Hchild Hinv)
      as (newchild & m1 & h1 & Hrec & Hinv1 & Hsub1 & Hm1 & [Hlen1 Hfr1] & Hkp1 & Hcomp1).
    cbn [clone_children]. rewrite Hrec. cbn [mbind result_bind].
    assert (Hnl : newone < length h) by (eapply lookup_lt_Some; exact Ho).
    destruct (Hfr1 newone Hnl) as [Hb1 Hk1]. rewrite Ho in Hb1, Hk1.
    destruct (h1 !! newone) as [o1|] eqn:Ho1; [|discriminate].
    injection Hb1 as Hb1. injection Hk1 as Hk1.
    pose proof (blank_copy_not_particle _ _ Hb1 Hnp) as Hnp1.
    unfold add. rewrite (children_of_lookup _ _ _ Ho1 Hnp1). cbn [mbind result_bind].
    rewrite Ho1. cbn [mbind result_bind].
    set (o2 := with_children o1 (kids_of o1 ++ [(label, newchild)])).
    set (h2 := <[newone := o2]> h1).
    assert (Hinv2 : clone_inv orig m1 h2).
    { eapply inv_insert; [exact Hinv1|exact Hnew|exact Ho1| |].
      - apply blank_copy_with_children.
      - intros c a u E. eapply with_children_port. exact E. }
    assert (Hkp12 : keeps_ports h1 h2).
    { eapply keeps_ports_insert; [exact Ho1|].
      intros c a u E. eapply port_with_children. exact E. }
    assert (Ho2 : h2 !! newone = Some o2).
    { unfold h2. apply list_lookup_insert_eq. lia. }
    assert (Hnp2 : forall p, o2 <> OParticle p).
    { eapply blank_copy_not_particle; [|exact Hnp1]. apply blank_copy_with_children. }
    destruct (IH newone m1 h2 o2 Hrest Hinv2 Hnew Ho2 Hnp2)
      as (m' & h' & o' & kids'' & Hcc & Hinv' & Hsub' & Ho' & Hb' & Hk' & Hrel
          & Hlen' & Hfr' & Hkp' & Hcomp').
    assert (Hlen2 : length h2 = length h1) by (unfold h2; apply length_insert).
    assert (Hkp1' : keeps_ports h1 h') by (eapply keeps_ports_trans; eassumption).
    exists m', h', o', ((label, newchild) :: kids'').
    split; [exact Hcc|]. split; [exact Hinv'|].
    split; [etrans; eassumption|]. split; [exact Ho'|].
    split; [rewrite Hb'; unfold o2; rewrite blank_copy_with_children; exact Hb1|].
    split.
    { rewrite Hk'. unfold o2. rewrite (kids_of_with_children _ _ Hnp1), Hk1.
      rewrite <- app_assoc. reflexivity. }
    split.
    { constructor; [|exact Hrel]. cbn [fst snd]. split; [reflexivity|].
      eapply lookup_weaken; eassumption. }
    split; [lia|]. split.
    { intros v Hv Hne. destruct (Hfr' v ltac:(lia) Hne) as [A B].
      destruct (Hfr1 v Hv) as [A1 B1].
      unfold h2 in A, B. rewrite list_lookup_insert_ne in A, B by auto.
      split; congruence. }
    split; [eapply keeps_ports_trans; eassumption|].
    intros k v Hk Hn.
    destruct (m1 !! k) as [v1|] eqn:Hk1'.
    + assert (v1 = v) as ->.
      { pose proof (lookup_weaken _ _ _ _ Hk1' Hsub'). congruence. }
      destruct (Hcomp1 k v Hk1' Hn) as (Hv & o & oc & Hok & Hoc & Hrelc & Hpc).
      split; [exact Hv|].
      destruct (inv_map _ _ _ Hinv1 k v Hk1') as (_ & Hlt & _).
      destruct (Hfr' v ltac:(lia) ltac:(lia)) as [_ B].
      unfold h2 in B. rewrite list_lookup_insert_ne in B by lia. rewrite Hoc in B.
      destruct (h' !! v) as [oc'|] eqn:Hoc'; [|discriminate]. injection B as B.
      exists o, oc'. split; [exact Hok|]. split; [reflexivity|].
      split; [rewrite B; eapply relabelled_mono; eassumption|].
      intros Hs. eapply port_image_keep;
        [exact (Hpc Hs)|exact Hsub'|exact Hkp1'|exact Hoc|exact Hoc'].
    + destruct (Hcomp' k v Hk Hk1') as (Hv & Hrest'). split; [lia|exact Hrest'].
Qed.

(** [Compound._clone] on any node.  On a Port it is the first line of
    [Port._clone]: the copy has its children, not yet its anchor and flag. *)
Lemma Compound_clone_spec l m h o :
  orig !! l = Some o ->
  Forall (fun kid : string * loc => height_le orig d' (snd kid)) (kids_of o) ->
  clone_inv orig m h ->
  clone_post_upto (Some l) orig m h l (Compound_clone rec l m rc h).
Proof.
  intros Hl Hkids Hinv. unfold Compound_clone.
  destruct (m !! l) as [v|] eqn:Hm.
  { exists v, m, h. split; [reflexivity|]. split; [exact Hinv|].
    split; [reflexivity|]. split; [exact Hm|].
    split; [apply frame_refl|]. split; [apply keeps_ports_refl|apply completed_refl]. }
  rewrite (inv_lookup_Some _ _ _ _ _ Hinv Hl).
  pose proof (inv_len _ _ _ Hinv) as Hlen.
  assert (Hsub : m ⊆ <[l := length h]> m) by (apply insert_subseteq; exact Hm).
  pose proof (inv_lookup_Some _ _ _ _ _ Hinv Hl) as Hhl.
  destruct o as [p|c|c a u].
  1: { unfold alloc.
    exists (length h), (<[l := length h]> m), (h ++ [OParticle p]).
    split; [reflexivity|].
    split; [eapply inv_alloc; [exact Hinv|exact Hl|reflexivity|exact Hm|discriminate]|].
    split; [exact Hsub|]. split; [apply lookup_insert_eq|].
    split; [apply frame_alloc|]. split; [apply keeps_ports_alloc|].
    intros k v Hk Hn. destruct (decide (k = l)) as [->|Hne].
    + rewrite lookup_insert_eq in Hk. injection Hk as <-. split; [lia|].
      exists (OParticle p), (OParticle p). split; [exact Hl|].
      split; [rewrite lookup_app_r, Nat.sub_diag by lia; reflexivity|].
      split; [constructor|]. intros _. exact I.
    + rewrite lookup_insert_ne in Hk by auto. congruence. }
  all: rewrite (children_of_lookup _ _ _ Hhl ltac:(intros p; discriminate)).
  all: cbn [mbind result_bind]; unfold alloc.
  all: match goal with |- context [blank_copy ?o] => set (o0 := o) in * end.
  all: assert (Hinv1 : clone_inv orig (<[l := length h]> m) (h ++ [blank_copy o0]))
         by (eapply inv_alloc; [exact Hinv|exact Hl|apply blank_copy_idemp|exact Hm
                               |intros; apply blank_copy_no_anchor]).
  all: assert (Ho1 : (h ++ [blank_copy o0]) !! length h = Some (blank_copy o0))
         by (rewrite lookup_app_r, Nat.sub_diag by lia; reflexivity).
  all: destruct (clone_children_spec (kids_of o0) (length h) _ _ _ Hkids Hinv1 Hlen Ho1
                   ltac:(intros p; discriminate))
         as (m' & h' & o' & kids' & Hcc & Hinv' & Hsub' & Ho' & Hb' & Hk' & Hrel
             & Hlen' & Hfr' & Hkp' & Hcomp').
  all: rewrite Hcc; cbn [mbind result_bind].
  all: exists (length h), m', h'.
  all: split; [reflexivity|]; split; [exact Hinv'|].
  all: split; [etrans; eassumption|].
  all: split; [eapply lookup_weaken; [apply lookup_insert_eq|exact Hsub']|].
  all: rewrite length_app in Hlen'; cbn [length] in Hlen'.
  all: split;
       [split; [lia|]; intros v Hv;
        destruct (Hfr' v ltac:(rewrite length_app; lia) ltac:(lia)) as [A B];
        rewrite lookup_app_l in A, B by exact Hv; auto|].
  all: split; [eapply keeps_ports_trans; [apply keeps_ports_alloc|exact Hkp']|].
  all: intros k v Hk Hn; destruct (decide (k = l)) as [->|Hne].
  all: try (pose proof (lookup_weaken _ _ _ _ (lookup_insert_eq m l (length h)) Hsub') as E;
            assert (v = length h) as -> by congruence;
            split; [lia|]; exists o0, o'; split; [exact Hl|]; split; [exact Ho'|];
            split; [rewrite Hk', kids_of_blank_copy; exact Hrel|];
            intros Hs; exfalso; apply Hs; reflexivity).
  all: destruct (Hcomp' k v Hk ltac:(rewrite lookup_insert_ne by auto; exact Hn))
         as (Hv & o1 & o1' & Hk1 & Hv1 & Hrel1 & Hp1);
       rewrite length_app in Hv; split; [lia|];
       exists o1, o1'; split; [exact Hk1|]; split; [exact Hv1|];
       split; [exact Hrel1|]; intros _; apply Hp1; discriminate.
Qed.

(** [_clone] of a node that is no Port is [Compound._clone]. *)
Lemma Compound_clone_plain l m h o :
  orig !! l = Some o -> (forall c a u, o <> OPort c a u) ->
  Forall (fun kid : string * loc => height_le orig d' (snd kid)) (kids_of o) ->
  clone_inv orig m h ->
  clone_post orig m h l (Compound_clone rec l m rc h).
Proof.
  intros Hl Hnp Hkids Hinv.
  destruct (Compound_clone_spec l m h o Hl Hkids Hinv)
    as (l' & m' & h' & Hres & Hinv' & Hsub & Hm & Hfr & Hkp & Hcomp).
  exists l', m', h'. split; [exact Hres|]. split; [exact Hinv'|].
  split; [exact Hsub|]. split; [exact Hm|]. split; [exact Hfr|]. split; [exact Hkp|].
  eapply completed_upgrade; [exact Hcomp|].
  intros v o1 o1' _ Ho1 _. rewrite Hl in Ho1. injection Ho1 as <-.
  destruct o as [p|c|c a u]; [exact I|exact I|].
  exfalso. eapply Hnp. reflexivity.
Qed.

Lemma height_le_particle a : is_particle orig a -> 1 <= d' -> height_le orig d' a.
Proof.
  intros [p Hp] Hd. destruct d' as [|d'']; [lia|]. cbn [height_le]. rewrite Hp. exact I.
Qed.

(** [Port._clone] on a Port that has an anchor. *)
Lemma Port_clone_spec l m h c a u :
  orig !! l = Some (OPort c (Some a) u) ->
  Forall (fun kid : string * loc => height_le orig d' (snd kid)) (c_children c) ->
  is_particle orig a -> 1 <= d' ->
  clone_inv orig m h ->
  exists l' m' h' c' a',
    Port_clone rec l m rc h = Ok (l', m', h') /\
    clone_inv orig m' h' /\ m ⊆ m' /\ m' !! l = Some l' /\
    frame h h' /\ keeps_ports h h' /\ completed orig m h m' h' /\
    h' !! l' = Some (OPort c' (Some a') u) /\ m' !! a = Some a'.
Proof.
  intros Hl Hkids Hp Hd Hinv. unfold Port_clone.
  destruct (Compound_clone_spec l m h _ Hl Hkids Hinv)
    as (newone & m2 & h2 & -> & Hinv2 & Hsub2 & Hm2 & Hfr2 & Hkp2 & Hcomp2).
  cbn [mbind result_bind].
  unfold anchor_of. rewrite (inv_lookup_Some _ _ _ _ _ Hinv2 Hl). cbn [mbind result_bind].
  unfold clone_ref.
  destruct (rec_spec a m2 h2 (height_le_particle _ Hp Hd) Hinv2)
    as (a1 & m3 & h3 & -> & Hinv3 & Hsub3 & Ha1 & Hfr3 & Hkp3 & Hcomp3).
  cbn [mbind result_bind].
  pose proof (lookup_weaken _ _ _ _ Hm2 Hsub3) as Hm3.
  destruct (inv_map _ _ _ Hinv3 l newone Hm3) as (Hlo & [Hn1 Hn2] & Hshell).
  rewrite Hl in Hshell. destruct (h3 !! newone) as [o3|] eqn:Ho3; [|discriminate].
  destruct o3 as [|c3|c3 a3 u3]; try discriminate.
  unfold set_anchor. rewrite Ho3. cbn [mbind result_bind].
  assert (Hl3 : h3 !! l = Some (OPort c (Some a) u))
    by exact (inv_lookup_Some _ _ _ _ _ Hinv3 Hl).
  unfold used_of. rewrite list_lookup_insert_ne by lia. rewrite Hl3.
  cbn [mbind result_bind].
  unfold set_used. rewrite list_lookup_insert_eq by exact Hn2. cbn [mbind result_bind].
  rewrite list_insert_insert_eq.
  set (h5 := <[newone := OPort c3 (Some a1) u]> h3).
  assert (Hinv5 : clone_inv orig m3 h5).
  { eapply inv_overwrite; [exact Hinv3|exact Hn1|exact Ho3|reflexivity|].
    intros k c' a' u' Hk [= <- <- <-].
    rewrite (inv_inj _ _ _ Hinv3 k l newone Hk Hm3). eauto. }
  assert (Hfr35 : frame h3 h5) by (eapply frame_insert; [exact Ho3|reflexivity..]).
  assert (Hkp35 : keeps_ports h3 h5).
  { eapply keeps_ports_insert; [exact Ho3|]. intros c0 a0 u0 [= -> -> ->].
    destruct (inv_port _ _ _ Hinv3 l newone c0 a0 u0 Hm3 Ho3) as (c1 & a2 & Hl' & Ha2).
    rewrite Hl in Hl'. injection Hl' as _ <- <-.
    assert (a0 = a1) as -> by congruence. eauto. }
  assert (Ho5 : h5 !! newone = Some (OPort c3 (Some a1) u))
    by (apply list_lookup_insert_eq; exact Hn2).
  exists newone, m3, h5, c3, a1.
  split; [reflexivity|]. split; [exact Hinv5|].
  split; [etrans; eassumption|]. split; [exact Hm3|].
  split; [eapply frame_trans; [exact Hfr2|eapply frame_trans; eassumption]|].
  split; [eapply keeps_ports_trans; [exact Hkp2|eapply keeps_ports_trans; eassumption]|].
  split; [|split; [exact Ho5|exact Ha1]].
  eapply completed_upgrade.
  - eapply (completed_step orig (Some l) m h m3 h3 m3 h5).
    + eapply completed_step; [exact Hcomp2|apply completed_weaken; exact Hcomp3
                             |exact Hinv2|exact Hsub3|exact Hfr2|exact Hfr3|exact Hkp3].
    + apply completed_refl.
    + exact Hinv3.
    + reflexivity.
    + eapply frame_trans; eassumption.
    + exact Hfr35.
    + exact Hkp35.
  - intros v o o' Hv Ho Ho'. rewrite Hm3 in Hv. injection Hv as <-.
    rewrite Hl in Ho. injection Ho as <-. rewrite Ho5 in Ho'. injection Ho' as <-.
    exists c3, a, a1. split; [reflexivity|]. split; [reflexivity|exact Ha1].
Qed.

(** [Port._clone] on a Port that has no anchor: line 79 copies the Port and
    its children, line 80 hands [None] to [clone]. *)
Lemma Port_clone_no_anchor l m h c u :
  orig !! l = Some (OPort c None u) ->
  Forall (fun kid : string * loc => height_le orig d' (snd kid)) (c_children c) ->
  clone_inv orig m h ->
  Port_clone rec l m rc h = Raise AttributeError.
Proof.
  intros Hl Hkids Hinv. unfold Port_clone.
  destruct (Compound_clone_spec l m h _ Hl Hkids Hinv)
    as (newone & m2 & h2 & -> & Hinv2 & _).
  cbn [mbind result_bind].
  unfold anchor_of. rewrite (inv_lookup_Some _ _ _ _ _ Hinv2 Hl). reflexivity.
Qed.
End clone_spec.

Section clone_from_facts.
Context (orig : heap) (rc : option loc).
Implicit Types (m : clone_map) (h : heap) (l k v : loc).

Lemma height_le_lookup d l : height_le orig d l -> exists o, orig !! l = Some o.
Proof.
  destruct d as [|d]; [contradiction|]. cbn [height_le].
  destruct (orig !! l); [eauto|contradiction].
Qed.

Lemma clone_from_spec d : forall fuel l m h,
  d <= fuel -> height_le orig d l -> clone_inv orig m h ->
  clone_post orig m h l (clone_from fuel l m rc h).
Proof.
  induction d as [|d IH]; intros fuel l m h Hfuel Hh Hinv; [contradiction|].
  destruct fuel as [|fuel]; [lia|]. cbn [clone_from].
  assert (Hrec : forall child m0 h0, height_le orig d child -> clone_inv orig m0 h0 ->
                   clone_post orig m0 h0 child (clone_from fuel child m0 rc h0)).
  { intros child m0 h0. apply IH. lia. }
  destruct (height_le_lookup _ _ Hh) as [o Ho].
  rewrite (inv_lookup_Some _ _ _ _ _ Hinv Ho).
  cbn [height_le] in Hh. rewrite Ho in Hh.
  destruct o as [p|c|c a u].
  - eapply Compound_clone_plain; [exact Hrec|exact Ho|discriminate|constructor|exact Hinv].
  - eapply Compound_clone_plain; [exact Hrec|exact Ho|discriminate|exact Hh|exact Hinv].
  - destruct Hh as [Hkids Ha]. destruct a as [a|]; [|contradiction].
    destruct Ha as [Hp Hd].
    destruct (Port_clone_spec orig rc d _ Hrec l m h c a u Ho Hkids Hp Hd Hinv)
      as (l' & m' & h' & c' & a' & Hres & Hinv' & Hsub & Hm & Hfr & Hkp & Hcomp & _).
    exists l', m', h'. split; [exact Hres|]. split; [exact Hinv'|].
    split; [exact Hsub|]. split; [exact Hm|]. split; [exact Hfr|].
    split; [exact Hkp|exact Hcomp].
Qed.

(** Cloning a Port without anchor whose sub-frames can be copied. *)
Lemma clone_from_no_anchor d fuel l m h c u :
  d <= fuel -> clone_inv orig m h ->
  orig !! l = Some (OPort c None u) ->
  Forall (fun kid : string * loc => height_le orig d (snd kid)) (c_children c) ->
  clone_from (S fuel) l m rc h = Raise AttributeError.
Proof.
  intros Hfuel Hinv Ho Hkids. cbn [clone_from].
  rewrite (inv_lookup_Some _ _ _ _ _ Hinv Ho).
  eapply Port_clone_no_anchor; try eassumption.
  intros child m0 h0. apply clone_from_spec. exact Hfuel.
Qed.
End clone_from_facts.

Lemma clone_inv_start (h : heap) : clone_inv h ∅ h.
Proof.
  split.
  - apply firstn_all.
  - lia.
  - intros k v Hk. rewrite lookup_empty in Hk. discriminate.
  - intros k k' v Hk. rewrite lookup_empty in Hk. discriminate.
  - intros k v c' a' u' Hk. rewrite lookup_empty in Hk. discriminate.
Qed.

(** What [clone] leaves: the store it was given, then the copies; every
    entry of the identity map a finished copy. *)
Lemma clone_spec (h : heap) (d : nat) (l : loc) :
  height_le h d l -> d <= S (length h) ->
  exists l' m' h',
    clone l h = Ok (l', h') /\ clone_inv h m' h' /\ m' !! l = Some l' /\
    completed h ∅ h m' h'.
Proof.
  intros Hh Hd.
  destruct (clone_from_spec h None d (S (length h)) l ∅ h Hd Hh (clone_inv_start h))
    as (l' & m' & h' & Hres & Hinv & _ & Hm & _ & _ & Hcomp).
  exists l', m', h'. unfold clone. rewrite Hres.
  split; [reflexivity|]. split; [exact Hinv|]. split; [exact Hm|exact Hcomp].
Qed.

Section clone_image.
Context (orig : heap) (m' : clone_map) (h' : heap).
Hypothesis Hinv : clone_inv orig m' h'.
Hypothesis Hcomp : completed orig ∅ orig m' h'.

(** The particles of a copy are the copies of the particles, in order. *)
Lemma particles_from_image fuel : forall k v locs,
  m' !! k = Some v -> particles_from fuel orig k = Ok locs ->
  exists locs', particles_from fuel h' v = Ok locs' /\
                Forall2 (fun x x' => m' !! x = Some x') locs locs'.
Proof.
  induction fuel as [|fuel IH]; intros k v locs Hk Hp; [discriminate|].
  destruct (Hcomp k v Hk (lookup_empty k)) as (_ & o & o' & Ho & Ho' & Hrel & _).
  destruct (inv_map _ _ _ Hinv k v Hk) as (_ & _ & Hshell).
  rewrite Ho, Ho' in Hshell. injection Hshell as Hshell.
  cbn [particles_from] in *. rewrite Ho in Hp. rewrite Ho'.
  assert (Hkids : forall kids kids' locs0,
    relabelled m' kids kids' ->
    concat_results (fun kid : string * loc => particles_from fuel orig (snd kid)) kids
      = Ok locs0 ->
    exists locs', concat_results (fun kid : string * loc => particles_from fuel h' (snd kid))
                    kids' = Ok locs' /\
                  Forall2 (fun x x' => m' !! x = Some x') locs0 locs').
  { clear -IH. intros kids kids' locs0 Hrel. revert locs0.
    induction Hrel as [|kid kid' kids kids' [_ Hkid] _ IHrel]; intros locs0 Hc.
    - injection Hc as <-. exists []. split; [reflexivity|constructor].
    - cbn [concat_results] in *.
      destruct (particles_from fuel orig kid.2) as [r|] eqn:Hr; [|discriminate].
      cbn [mbind result_bind] in Hc.
      destruct (concat_results _ kids) as [rest|] eqn:Hrest; [|discriminate].
      cbn [mbind result_bind] in Hc. injection Hc as <-.
      destruct (IH _ _ _ Hkid Hr) as (r' & -> & Hr').
      destruct (IHrel _ eq_refl) as (rest' & -> & Hrest').
      cbn [mbind result_bind]. eexists; split; [reflexivity|].
      apply Forall2_app; assumption. }
  destruct o as [p|c|c a u], o' as [p'|c1|c1 a1 u1]; try discriminate.
  - injection Hp as <-. exists [v]. split; [reflexivity|].
    constructor; [exact Hk|constructor].
  - apply (Hkids _ _ _ Hrel Hp).
  - apply (Hkids _ _ _ Hrel Hp).
Qed.

Lemma lookup_label_relabelled label kids kids' child :
  relabelled m' kids kids' -> lookup_label label kids = Some child ->
  exists child', lookup_label label kids' = Some child' /\ m' !! child = Some child'.
Proof.
  induction 1 as [|[k c] [k' c'] kids kids' [Hlab Hm] _ IH]; cbn [lookup_label];
    [discriminate|].
  cbn [fst snd] in Hlab, Hm. subst k'.
  destruct (String.eqb k label); [|exact IH].
  intros [= <-]. eauto.
Qed.

(** The node at a path below a copy is the copy of the node at that path
    below the original. *)
Lemma follow_image path : forall k v x,
  m' !! k = Some v -> follow orig k path = Some x ->
  exists x', m' !! x = Some x' /\ follow h' v path = Some x'.
Proof.
  induction path as [|label rest IH]; intros k v x Hk Hf; cbn [follow] in *.
  - injection Hf as <-. eauto.
  - destruct (Hcomp k v Hk (lookup_empty k)) as (_ & o & o' & Ho & Ho' & Hrel & _).
    destruct (inv_map _ _ _ Hinv k v Hk) as (_ & _ & Hshell).
    rewrite Ho, Ho' in Hshell. injection Hshell as Hshell.
    unfold getitem, children_of in *. rewrite Ho in Hf. rewrite Ho'.
    assert (Hgo : forall child, lookup_label label (kids_of o) = Some child ->
              follow orig child rest = Some x ->
              exists x', m' !! x = Some x' /\
                match lookup_label label (kids_of o') with
                | Some child' => follow h' child' rest
                | None => None
                end = Some x').
    { intros child Hc Hx. destruct (lookup_label_relabelled _ _ _ _ Hrel Hc)
        as (child' & -> & Hm). exact (IH child child' x Hm Hx). }
    destruct o as [p|c|c a u], o' as [p'|c1|c1 a1 u1]; try discriminate;
      cbn [mbind result_bind kids_of] in *.
    + destruct (lookup_label label (c_children c)) as [child|] eqn:Hc; [|discriminate].
      destruct (Hgo child eq_refl Hf) as (x' & Hx' & Hf').
      exists x'. split; [exact Hx'|].
      destruct (lookup_label label (c_children c1)); [exact Hf'|discriminate].
    + destruct (lookup_label label (c_children c)) as [child|] eqn:Hc; [|discriminate].
      destruct (Hgo child eq_refl Hf) as (x' & Hx' & Hf').
      exists x'. split; [exact Hx'|].
      destruct (lookup_label label (c_children c1)); [exact Hf'|discriminate].
Qed.

(** A Port of the tree and its copy: the copy's anchor is the image of the
    original's anchor and its flag is the original's. *)
Lemma port_copy k v c a u :
  m' !! k = Some v -> orig !! k = Some (OPort c a u) ->
  exists c' a0 a', a = Some a0 /\ h' !! v = Some (OPort c' (Some a') u) /\
                   m' !! a0 = Some a'.
Proof.
  intros Hk Ho.
  destruct (Hcomp k v Hk (lookup_empty k)) as (_ & o & o' & Ho1 & Ho' & _ & Hp).
  rewrite Ho in Ho1. injection Ho1 as <-.
  destruct (Hp ltac:(discriminate)) as (c' & a0 & a' & -> & -> & Ha).
  exists c', a0, a'. split; [reflexivity|]. split; [exact Ho'|exact Ha].
Qed.

(** The copy of a particle is that particle again, in a new cell. *)
Lemma particle_copy k v p :
  m' !! k = Some v -> orig !! k = Some (OParticle p) ->
  length orig <= v /\ h' !! v = Some (OParticle p).
Proof.
  intros Hk Ho. destruct (inv_map _ _ _ Hinv k v Hk) as (_ & [Hv _] & Hs).
  split; [exact Hv|]. rewrite Ho in Hs.
  destruct (h' !! v) as [[q| |]|]; try discriminate. injection Hs as ->. reflexivity.
Qed.
End clone_image.

(** The nodes of a tree of bounded depth have bounded depth. *)
Lemma height_le_follow (h : heap) path : forall d l x,
  height_le h d l -> follow h l path = Some x -> exists d', height_le h d' x.
Proof.
  induction path as [|label rest IH]; intros d l x Hh Hf; cbn [follow] in Hf.
  - injection Hf as <-. eauto.
  - destruct d as [|d]; [contradiction|]. cbn [height_le] in Hh.
    unfold getitem, children_of in Hf.
    assert (Hgo : forall kids,
              Forall (fun kid : string * loc => height_le h d (snd kid)) kids ->
              forall child, lookup_label label kids = Some child -> height_le h d child).
    { clear. induction 1 as [|[k c] kids Hc _ IHk]; cbn [lookup_label]; [discriminate|].
      intros child. destruct (String.eqb k label); [|apply IHk].
      intros [= <-]. exact Hc. }
    destruct (h !! l) as [[p|c|c a u]|]; try discriminate; cbn [mbind result_bind] in Hf.
    + destruct (lookup_label label (c_children c)) as [child|] eqn:Hc; [|discriminate].
      exact (IH d child x (Hgo _ Hh child Hc) Hf).
    + destruct Hh as [Hh _].
      destruct (lookup_label label (c_children c)) as [child|] eqn:Hc; [|discriminate].
      exact (IH d child x (Hgo _ Hh child Hc) Hf).
Qed.

(** The anchor of a Port of such a tree is a particle. *)
Lemma height_le_anchor (h : heap) d l c a u :
  height_le h d l -> h !! l = Some (OPort c a u) ->
  exists a0 p, a = Some a0 /\ h !! a0 = Some (OParticle p).
Proof.
  destruct d as [|d]; [contradiction|]. cbn [height_le]. intros Hh Hl.
  rewrite Hl in Hh. destruct Hh as [_ Ha].
  destruct a as [a0|]; [|contradiction]. destruct Ha as [[p Hp] _]. eauto.
Qed.

Local Open Scope R_scope.

(** ** Construction succeeds *)

Section construction.
Import Vec.
Context (h0 : heap) (anchor : option loc) (orientation : option Vec3)
        (separation : R).
Let n := length h0.
Let o := default default_direction orientation.

Lemma position_Ok_lt h a A : position h a = Ok A -> (a < length h)%nat.
Proof.
  unfold position. destruct (h !! a) eqn:E; [|discriminate].
  intros _. eapply lookup_lt_Some; eassumption.
Qed.

Lemma anchor_is_particle_position :
  anchor_is_particle h0 anchor ->
  (forall a, anchor = Some a -> (a < n)%nat) /\
  exists pos, anchor_position h0 anchor = Ok pos /\
              (forall a, anchor = Some a -> exists A, pos = Some A /\ position h0 a = Ok A) /\
              (anchor = None -> pos = None).
Proof.
  intros Ha. split.
  - intros a E. destruct (Ha a E) as [A HA]. eapply position_Ok_lt; eassumption.
  - unfold anchor_position. destruct anchor as [a|].
    + destruct (Ha a eq_refl) as [A HA]. rewrite HA. cbn [mbind result_bind].
      eexists; split; [reflexivity|]. split; [|discriminate].
      intros ? [= <-]. eauto.
    + eexists; split; [reflexivity|]. split; [discriminate|reflexivity].
Qed.

(** Construction succeeds on every non-zero orientation, and leaves the
    store as it was, followed by the cells of the Port. *)
Lemma Port_init_frames :
  o <> zero -> anchor_is_particle h0 anchor ->
  exists b u up down du pos,
    alignment o = Ok b /\
    unit_vector o = Ok u /\
    anchor_position h0 anchor = Ok pos /\
    Port_init anchor orientation separation h0 =
      Ok (n, h0 ++ port_cells n anchor false up down) /\
    unit_vector (frame_axis up) = Ok du /\
    unit_vector (frame_axis down) = Ok (neg du) /\
    dot du du = 1 /\
    close_to 1e-6 du u /\
    du = match b with
         | Antiparallel => neg default_direction
         | Parallel => default_direction
         | General => u
         end /\
    centroid (up, down) =
      add (match pos with Some A => A | None => zero end) (scale separation u).
Proof.
  intros Ho Ha.
  destruct (anchor_is_particle_position Ha) as (Hlt & pos & Hpos & _).
  destruct (alignment_total _ Ho) as [b Hb].
  pose proof (unit_vector_nonzero _ Ho) as Hu.
  destruct (orient_frames_spec _ _ _ Hu Hb)
    as (up & down & du & Hof & Hup & Hdown & Hdu & Hclose & Hbr & Hsu & Hsd).
  set (fs := match pos with
             | Some p => shift (sub p (centroid (up, down))) (up, down)
             | None => (up, down)
             end).
  set (fs' := shift (scale separation (divide o (norm o))) fs).
  assert (Hinit : Port_init anchor orientation separation h0 =
                    Ok (n, h0 ++ port_cells n anchor false (fst fs') (snd fs'))).
  { rewrite (Port_init_cells h0 anchor Hlt). cbv zeta. fold o.
    rewrite Hof, Hpos. cbn [mbind result_bind].
    unfold place_frames. rewrite Hu. cbn [mbind result_bind]. fold fs. fold fs'.
    destruct fs' as [up' down']. rewrite Nat.add_0_r. reflexivity. }
  assert (Hfs : frame_axis (fst fs) = frame_axis up /\
                frame_axis (snd fs) = frame_axis down /\
                centroid fs = match pos with Some A => A | None => zero end).
  { unfold fs. destruct pos as [A|].
    - rewrite centroid_shift. unfold shift; cbn [fst snd].
      rewrite !frame_axis_shift. repeat split.
      rewrite (centroid_zero _ _ Hsu Hsd). apply vec_eq; simpl; ring.
    - cbn [fst snd]. repeat split. apply centroid_zero; assumption. }
  destruct Hfs as (Hfu & Hfd & Hfc).
  exists b, (divide o (norm o)), (fst fs'), (snd fs'), du, pos.
  split; [exact Hb|]. split; [exact Hu|]. split; [exact Hpos|].
  split; [exact Hinit|].
  unfold fs', shift; cbn [fst snd].
  rewrite !frame_axis_shift, Hfu, Hfd.
  split; [exact Hup|]. split; [exact Hdown|]. split; [exact Hdu|].
  split; [exact Hclose|]. split; [exact Hbr|].
  rewrite <- Hfc. destruct fs as [up1 down1]. apply centroid_shift.
Qed.
End construction.

Section port_cells_children.
Context (h0 : heap) (a : option loc) (u : bool) (up down : Frame).
Let n := length h0.
Let h := h0 ++ port_cells n a u up down.

Lemma lookup_port_cell k : h !! (n + k)%nat = port_cells n a u up down !! k.
Proof. apply lookup_cells. Qed.

Lemma port_cells_head :
  h !! n = Some (OPort (mkCompound "Port" true [("up", (n + 1)%nat); ("down", (n + 6)%nat)])
                       a u).
Proof. rewrite <- (Nat.add_0_r n) at 1. rewrite lookup_port_cell. reflexivity. Qed.

(** The two sub-frames are Compounds of particles. *)
Lemma port_cells_subframes_height :
  Forall (fun kid : string * loc => height_le h 2 (snd kid))
         [("up", (n + 1)%nat); ("down", (n + 6)%nat)].
Proof.
  repeat apply Forall_cons_2; [| |apply Forall_nil_2].
  all: cbn [snd height_le]; rewrite lookup_port_cell; cbn [port_cells lookup list_lookup].
  all: unfold subport_cell; cbn [c_children].
  all: repeat apply Forall_cons_2; try apply Forall_nil_2.
  all: cbn [snd]; rewrite lookup_port_cell; exact I.
Qed.

Lemma getitem_up_cells : getitem h n "up" = Ok (n + 1)%nat.
Proof.
  unfold getitem, children_of. rewrite <- (Nat.add_0_r n) at 1.
  rewrite lookup_port_cell. reflexivity.
Qed.

Lemma getitem_down_cells : getitem h n "down" = Ok (n + 6)%nat.
Proof.
  unfold getitem, children_of. rewrite <- (Nat.add_0_r n) at 1.
  rewrite lookup_port_cell. reflexivity.
Qed.
End port_cells_children.

Section angle_facts.
Import Vec.

Lemma angle_opposite u : dot u u = 1 -> angle u (neg u) = Ok PI.
Proof.
  intros Hu. unfold angle.
  rewrite (unit_vector_of_unit _ Hu), (unit_vector_of_unit _ (neg_unit _ Hu)).
  cbn [mbind result_bind]. f_equal.
  replace (dot u (neg u)) with (-1) by (unfold dot in *; simpl; lra).
  unfold clip. rewrite Rmax_left by lra. rewrite Rmin_right by lra.
  replace (-1) with (- (1)) by ring. rewrite acos_opp, acos_1. ring.
Qed.

Lemma allclose_refl v : allclose v v.
Proof.
  unfold allclose, isclose, atol, rtol. rewrite !Rminus_diag, Rabs_R0.
  pose proof (Rabs_pos (x v)). pose proof (Rabs_pos (y v)). pose proof (Rabs_pos (z v)).
  repeat split; lra.
Qed.

Lemma alignment_antiparallel o :
  antiparallel_to_default o -> alignment o = Ok Antiparallel.
Proof.
  intros (w & Hw & Hc). unfold alignment. rewrite Hw. cbn [mbind result_bind].
  destruct (allclose_dec default_direction w); [reflexivity|contradiction].
Qed.

Lemma alignment_parallel o :
  parallel_to_default o ->
  alignment o = Ok Antiparallel \/ alignment o = Ok Parallel.
Proof.
  intros (w & Hw & Hc). unfold alignment.
  destruct (unit_vector_Ok _ _ Hw) as [Hn _].
  assert (Ho : neg o <> zero).
  { intros E. apply Hn. rewrite <- norm_neg, E. apply norm_zero. reflexivity. }
  rewrite (unit_vector_nonzero _ Ho). cbn [mbind result_bind].
  destruct (allclose_dec _ _); [left; reflexivity|].
  rewrite Hw. cbn [mbind result_bind].
  destruct (allclose_dec default_direction w); [right; reflexivity|contradiction].
Qed.

Lemma unit_vector_Ok_nonzero o w : unit_vector o = Ok w -> o <> zero.
Proof.
  intros [Hn _]%unit_vector_Ok E. apply Hn. rewrite E. apply norm_zero. reflexivity.
Qed.

Lemma antiparallel_nonzero o : antiparallel_to_default o -> o <> zero.
Proof.
  intros (w & Hw & _) E. apply (unit_vector_Ok_nonzero _ _ Hw).
  rewrite E. apply vec_eq; simpl; ring.
Qed.
End angle_facts.

Lemma particles_from_fuel_mono fuel : forall fuel' (h : heap) l locs,
  (fuel <= fuel')%nat -> particles_from fuel h l = Ok locs ->
  particles_from fuel' h l = Ok locs.
Proof.
  induction fuel as [|fuel IH]; intros fuel' h l locs Hle Hp; [discriminate|].
  destruct fuel' as [|fuel']; [lia|]. cbn [particles_from] in *.
  assert (Hkids : forall (kids : list (string * loc)) r,
    concat_results (fun kid : string * loc => particles_from fuel h (snd kid)) kids = Ok r ->
    concat_results (fun kid : string * loc => particles_from fuel' h (snd kid)) kids = Ok r).
  { induction kids as [|kid kids IHk]; intros r Hr; [exact Hr|].
    cbn [concat_results] in *.
    destruct (particles_from fuel h kid.2) as [r1|] eqn:H1; [|discriminate].
    cbn [mbind result_bind] in Hr.
    destruct (concat_results _ kids) as [r2|] eqn:H2; [|discriminate].
    rewrite (IH fuel' h _ r1 ltac:(lia) H1), (IHk r2 eq_refl). exact Hr. }
  destruct (h !! l) as [[p|c|c a u]|]; auto.
Qed.

(** * The claims

    Each theorem is followed by its instance at a concrete input. *)

(** ** Inputs of the worked instances *)

Lemma nonzero_x (v : Vec3) : Vec.x v <> 0 -> v <> Vec.zero.
Proof. intros Hx ->. apply Hx. reflexivity. Qed.

Lemma nonzero_y (v : Vec3) : Vec.y v <> 0 -> v <> Vec.zero.
Proof. intros Hy ->. apply Hy. reflexivity. Qed.

Lemma nonzero_z (v : Vec3) : Vec.z v <> 0 -> v <> Vec.zero.
Proof. intros Hz ->. apply Hz. reflexivity. Qed.

Lemma carbon_anchor : anchor_is_particle [carbon] (Some 0%nat).
Proof. intros a [= <-]. eexists. reflexivity. Qed.

Lemma no_anchor (h : heap) : anchor_is_particle h None.
Proof. intros a E. discriminate. Qed.

Lemma minus_y_antiparallel : antiparallel_to_default (Vec.mk 0 (-1) 0).
Proof.
  exists default_direction. split; [|apply allclose_refl].
  replace (Vec.neg (Vec.mk 0 (-1) 0)) with default_direction
    by (apply vec_eq; simpl; ring).
  apply default_direction_unit.
Qed.

Lemma plus_y_parallel : parallel_to_default (Vec.mk 0 1 0).
Proof.
  exists default_direction. split; [apply default_direction_unit|apply allclose_refl].
Qed.

Lemma port_particles_NoDup (n : nat) :
  NoDup [n + 2; n + 3; n + 4; n + 5; n + 7; n + 8; n + 9; n + 10]%nat.
Proof.
  repeat (apply NoDup_cons_2; [rewrite ?elem_of_cons, elem_of_nil; lia|]).
  apply NoDup_nil_2.
Qed.

Lemma sample_store_height : height_le sample_store 3 1.
Proof. cbn. repeat constructor; eexists; reflexivity. Qed.

Lemma sample_tree_height : height_le sample_tree 4 0.
Proof. cbn. repeat constructor; eexists; reflexivity. Qed.

Lemma sample_tree_depth : (4 <= S (length sample_tree))%nat.
Proof. cbn. lia. Qed.

(** ** A scenario of the spec, run through the model *)

(** Scenario A of the spec: anchor at the origin, orientation (1, 0, 0),
    separation 0.5. *)
Example scenario_A :
  exists port h',
    Port_init (Some 0%nat) (Some (Vec.mk 1 0 0)) 0.5 [carbon] = Ok (port, h') /\
    direction h' port = Ok (Vec.mk 1 0 0) /\
    center h' port = Ok (Vec.mk 0.5 0 0).
Proof.
  assert (Ho : default default_direction (Some (Vec.mk 1 0 0)) <> Vec.zero)
    by (apply nonzero_x; simpl; lra).
  destruct (Port_init_frames [carbon] (Some 0%nat) (Some (Vec.mk 1 0 0)) 0.5 Ho carbon_anchor)
    as (b & u & up & down & du & pos & _ & Hu & Hpos & Hinit & Hup & _ & _ & Hclose & Hdu & Hc).
  assert (Hx : Vec.unit_vector (Vec.mk 1 0 0) = Ok (Vec.mk 1 0 0))
    by (apply unit_vector_of_unit; unfold Vec.dot; simpl; ring).
  change (Vec.unit_vector (Vec.mk 1 0 0) = Ok u) in Hu.
  rewrite Hx in Hu. injection Hu as <-.
  injection Hpos as <-.
  assert (Hdir : du = Vec.mk 1 0 0).
  { destruct b; [| |exact Hdu]; exfalso; subst du;
      destruct Hclose as (Hcx & _); simpl in Hcx;
      unfold Rabs in Hcx; destruct (Rcase_abs _); lra. }
  exists 1%nat, ([carbon] ++ port_cells 1 (Some 0%nat) false up down).
  split; [exact Hinit|]. split.
  - rewrite (direction_port_cells [carbon]), <- Hdir. exact Hup.
  - rewrite (center_port_cells [carbon]).
    change (Ok (centroid (up, down)) = Ok (Vec.mk 0.5 0 0)). rewrite Hc.
    f_equal. apply vec_eq; simpl; lra.
Qed.

(** ** Construction *)

(** C1. For every non-zero orientation (the default included), any anchor
    particle and any separation, construction returns a Port whose
    [direction] is within 1e-6, component by component, of the unit vector
    of the orientation -- whichever branch of the alignment was taken. *)
Theorem Port_direction_parallel (h0 : heap) (anchor : option loc)
    (orientation : option Vec3) (separation : R) :
  default default_direction orientation <> Vec.zero ->
  anchor_is_particle h0 anchor ->
  exists port h' dir u,
    Port_init anchor orientation separation h0 = Ok (port, h') /\
    direction h' port = Ok dir /\
    Vec.unit_vector (default default_direction orientation) = Ok u /\
    close_to 1e-6 dir u.
Proof.
  intros Ho Ha.
  destruct (Port_init_frames h0 anchor orientation separation Ho Ha)
    as (b & u & up & down & du & pos & _ & Hu & _ & Hinit & Hup & _ & _ & Hclose & _).
  exists (length h0), (h0 ++ port_cells (length h0) anchor false up down), du, u.
  split; [exact Hinit|]. split; [|split; [exact Hu|exact Hclose]].
  rewrite <- (Nat.add_0_r (length h0)) at 2. rewrite direction_port_cells. exact Hup.
Qed.

Lemma Port_direction_parallel_witness :
  default default_direction (Some (Vec.mk 1 0 0)) <> Vec.zero /\
  anchor_is_particle [carbon] (Some 0%nat) /\
  exists port h' dir u,
    Port_init (Some 0%nat) (Some (Vec.mk 1 0 0)) 0.5 [carbon] = Ok (port, h') /\
    direction h' port = Ok dir /\
    Vec.unit_vector (default default_direction (Some (Vec.mk 1 0 0))) = Ok u /\
    close_to 1e-6 dir u.
Proof.
  assert (Ho : default default_direction (Some (Vec.mk 1 0 0)) <> Vec.zero)
    by (apply nonzero_x; simpl; lra).
  split; [exact Ho|]. split; [exact carbon_anchor|].
  exact (Port_direction_parallel [carbon] (Some 0%nat) (Some (Vec.mk 1 0 0)) 0.5
           Ho carbon_anchor).
Defined.

(** C2. For every non-zero orientation, the directions of the sub-frames
    [self['up']] and [self['down']] of the constructed Port make the angle
    π, whichever branch of the alignment was taken. *)
Theorem Port_up_down_opposed (h0 : heap) (anchor : option loc)
    (orientation : option Vec3) (separation : R) :
  default default_direction orientation <> Vec.zero ->
  anchor_is_particle h0 anchor ->
  exists port h' up down dir_up dir_down,
    Port_init anchor orientation separation h0 = Ok (port, h') /\
    getitem h' port "up" = Ok up /\ getitem h' port "down" = Ok down /\
    direction h' up = Ok dir_up /\ direction h' down = Ok dir_down /\
    Vec.angle dir_up dir_down = Ok PI.
Proof.
  intros Ho Ha.
  destruct (Port_init_frames h0 anchor orientation separation Ho Ha)
    as (b & u & up & down & du & pos & _ & _ & _ & Hinit & Hup & Hdown & Hdu & _).
  exists (length h0), (h0 ++ port_cells (length h0) anchor false up down),
         (length h0 + 1)%nat, (length h0 + 6)%nat, du, (Vec.neg du).
  split; [exact Hinit|]. split; [apply getitem_up_cells|].
  split; [apply getitem_down_cells|].
  split; [rewrite direction_up_cells; exact Hup|].
  split; [rewrite direction_down_cells; exact Hdown|].
  apply angle_opposite. exact Hdu.
Qed.

Lemma Port_up_down_opposed_witness :
  default default_direction (Some (Vec.mk 1 1 0)) <> Vec.zero /\
  anchor_is_particle [] None /\
  exists port h' up down dir_up dir_down,
    Port_init None (Some (Vec.mk 1 1 0)) 0 [] = Ok (port, h') /\
    getitem h' port "up" = Ok up /\ getitem h' port "down" = Ok down /\
    direction h' up = Ok dir_up /\ direction h' down = Ok dir_down /\
    Vec.angle dir_up dir_down = Ok PI.
Proof.
  assert (Ho : default default_direction (Some (Vec.mk 1 1 0)) <> Vec.zero)
    by (apply nonzero_x; simpl; lra).
  split; [exact Ho|]. split; [exact (no_anchor [])|].
  exact (Port_up_down_opposed [] None (Some (Vec.mk 1 1 0)) 0 Ho (no_anchor [])).
Defined.

(** C3. For every non-zero orientation and every separation, the [center]
    of the constructed Port is the anchor's position plus the separation
    times the unit vector of the orientation when an anchor particle was
    given, and the separation times that unit vector when none was. *)
Theorem Port_center_placement (h0 : heap) (anchor : option loc)
    (orientation : option Vec3) (separation : R) :
  default default_direction orientation <> Vec.zero ->
  anchor_is_particle h0 anchor ->
  exists port h' u,
    Port_init anchor orientation separation h0 = Ok (port, h') /\
    Vec.unit_vector (default default_direction orientation) = Ok u /\
    (forall a A, anchor = Some a -> position h0 a = Ok A ->
       center h' port = Ok (Vec.add A (Vec.scale separation u))) /\
    (anchor = None -> center h' port = Ok (Vec.scale separation u)).
Proof.
  intros Ho Ha.
  destruct (Port_init_frames h0 anchor orientation separation Ho Ha)
    as (b & u & up & down & du & pos & _ & Hu & Hpos & Hinit & _ & _ & _ & _ & _ & Hc).
  exists (length h0), (h0 ++ port_cells (length h0) anchor false up down), u.
  split; [exact Hinit|]. split; [exact Hu|].
  assert (Hcenter : center (h0 ++ port_cells (length h0) anchor false up down) (length h0)
                    = Ok (centroid (up, down))).
  { rewrite <- (Nat.add_0_r (length h0)) at 2. apply center_port_cells. }
  rewrite Hcenter, Hc. unfold anchor_position in Hpos. split.
  - intros a A -> HA. rewrite HA in Hpos. injection Hpos as <-. reflexivity.
  - intros ->. injection Hpos as <-. f_equal. apply vec_eq; simpl; ring.
Qed.

Lemma Port_center_placement_witness :
  default default_direction (Some (Vec.mk 0 0 2)) <> Vec.zero /\
  anchor_is_particle [carbon] (Some 0%nat) /\
  exists port h' u,
    Port_init (Some 0%nat) (Some (Vec.mk 0 0 2)) (-0.3) [carbon] = Ok (port, h') /\
    Vec.unit_vector (default default_direction (Some (Vec.mk 0 0 2))) = Ok u /\
    (forall a A, Some 0%nat = Some a -> position [carbon] a = Ok A ->
       center h' port = Ok (Vec.add A (Vec.scale (-0.3) u))) /\
    (Some 0%nat = None -> center h' port = Ok (Vec.scale (-0.3) u)).
Proof.
  assert (Ho : default default_direction (Some (Vec.mk 0 0 2)) <> Vec.zero)
    by (apply nonzero_z; simpl; lra).
  split; [exact Ho|]. split; [exact carbon_anchor|].
  exact (Port_center_placement [carbon] (Some 0%nat) (Some (Vec.mk 0 0 2)) (-0.3)
           Ho carbon_anchor).
Defined.

(** C4. When the orientation is antiparallel to the default direction within
    the tolerance of [np.allclose], the alignment step is: rotate "down" by
    π about the z axis, then rotate the whole Port by π about the z axis;
    after construction the direction of "up" is (0, -1, 0) and that of
    "down" is (0, 1, 0). *)
Theorem Port_antiparallel_construction (h0 : heap) (anchor : option loc)
    (o : Vec3) (separation : R) :
  antiparallel_to_default o -> anchor_is_particle h0 anchor ->
  (forall self down h,
     Port_orient self down o h =
       (h1 ← rotate PI z_axis down h; rotate PI z_axis self h1)) /\
  exists port h' up down,
    Port_init anchor (Some o) separation h0 = Ok (port, h') /\
    getitem h' port "up" = Ok up /\ getitem h' port "down" = Ok down /\
    direction h' up = Ok (Vec.mk 0 (-1) 0) /\
    direction h' down = Ok (Vec.mk 0 1 0).
Proof.
  intros Hanti Ha. pose proof (alignment_antiparallel _ Hanti) as Hal. split.
  - intros self down h. unfold Port_orient. rewrite Hal. reflexivity.
  - destruct (Port_init_frames h0 anchor (Some o) separation
                (antiparallel_nonzero _ Hanti) Ha)
      as (b & u & up & down & du & pos & Hb & _ & _ & Hinit & Hup & Hdown & _ & _ & Hdu & _).
    change (alignment o = Ok b) in Hb. rewrite Hal in Hb. injection Hb as <-.
    exists (length h0), (h0 ++ port_cells (length h0) anchor false up down),
           (length h0 + 1)%nat, (length h0 + 6)%nat.
    split; [exact Hinit|]. split; [apply getitem_up_cells|].
    split; [apply getitem_down_cells|].
    unfold frame_axis in Hup, Hdown.
    rewrite direction_up_cells, direction_down_cells, Hup, Hdown, Hdu.
    split; f_equal; apply vec_eq; simpl; ring.
Qed.

Lemma Port_antiparallel_construction_witness :
  antiparallel_to_default (Vec.mk 0 (-1) 0) /\ anchor_is_particle [] None /\
  (forall self down h,
     Port_orient self down (Vec.mk 0 (-1) 0) h =
       (h1 ← rotate PI z_axis down h; rotate PI z_axis self h1)) /\
  exists port h' up down,
    Port_init None (Some (Vec.mk 0 (-1) 0)) 0 [] = Ok (port, h') /\
    getitem h' port "up" = Ok up /\ getitem h' port "down" = Ok down /\
    direction h' up = Ok (Vec.mk 0 (-1) 0) /\
    direction h' down = Ok (Vec.mk 0 1 0).
Proof.
  split; [exact minus_y_antiparallel|]. split; [exact (no_anchor [])|].
  exact (Port_antiparallel_construction [] None (Vec.mk 0 (-1) 0) 0
           minus_y_antiparallel (no_anchor [])).
Defined.

(** C5. When the orientation is parallel or antiparallel to the default
    direction within the tolerance of [np.allclose], one of the two
    dedicated branches is taken: the alignment step rotates about the z axis
    only, never about a cross product, and construction returns a Port
    instead of raising. *)
Theorem Port_degenerate_orientation_succeeds (h0 : heap) (anchor : option loc)
    (o : Vec3) (separation : R) :
  antiparallel_to_default o \/ parallel_to_default o ->
  anchor_is_particle h0 anchor ->
  (alignment o = Ok Antiparallel \/ alignment o = Ok Parallel) /\
  (forall self down h,
     Port_orient self down o h =
       (h1 ← rotate PI z_axis down h; rotate PI z_axis self h1) \/
     Port_orient self down o h = rotate PI z_axis down h) /\
  exists port h', Port_init anchor (Some o) separation h0 = Ok (port, h').
Proof.
  intros Hdeg Ha.
  assert (Hal : alignment o = Ok Antiparallel \/ alignment o = Ok Parallel).
  { destruct Hdeg as [H|H]; [left; apply alignment_antiparallel, H
                            |apply alignment_parallel, H]. }
  assert (Ho : o <> Vec.zero).
  { destruct Hdeg as [H|(w & Hw & _)];
      [apply antiparallel_nonzero, H|eapply unit_vector_Ok_nonzero, Hw]. }
  split; [exact Hal|]. split.
  - intros self down h. unfold Port_orient.
    destruct Hal as [-> | ->]; [left|right]; reflexivity.
  - destruct (Port_init_frames h0 anchor (Some o) separation Ho Ha)
      as (b & u & up & down & du & pos & _ & _ & _ & Hinit & _).
    eauto.
Qed.

Lemma Port_degenerate_orientation_succeeds_witness :
  (antiparallel_to_default (Vec.mk 0 1 0) \/ parallel_to_default (Vec.mk 0 1 0)) /\
  anchor_is_particle [] None /\
  (alignment (Vec.mk 0 1 0) = Ok Antiparallel \/ alignment (Vec.mk 0 1 0) = Ok Parallel) /\
  (forall self down h,
     Port_orient self down (Vec.mk 0 1 0) h =
       (h1 ← rotate PI z_axis down h; rotate PI z_axis self h1) \/
     Port_orient self down (Vec.mk 0 1 0) h = rotate PI z_axis down h) /\
  exists port h', Port_init None (Some (Vec.mk 0 1 0)) 0 [] = Ok (port, h').
Proof.
  split; [right; exact plus_y_parallel|]. split; [exact (no_anchor [])|].
  exact (Port_degenerate_orientation_succeeds [] None (Vec.mk 0 1 0) 0
           (or_intror plus_y_parallel) (no_anchor [])).
Defined.

(** C8. Lines 38-59 append eleven cells to the store: the Port (name
    "Port", ghost) with exactly the children "up" and "down"; each of these
    a Compound named "subport" (ghost) with exactly the children "middle",
    "top", "left" and "right", ghost particles named "G" at the canonical
    offsets; the eight particles are eight distinct objects.  The alignment
    and the placement run on that store, and the constructed Port has the
    same cells, positions apart. *)
Theorem Port_structure (h0 : heap) (anchor : option loc)
    (orientation : option Vec3) (separation : R) :
  default default_direction orientation <> Vec.zero ->
  anchor_is_particle h0 anchor ->
  let n := length h0 in
  Port_build anchor h0 =
    Ok (n, (n + 1)%nat, (n + 6)%nat,
        h0 ++ port_cells n anchor false canonical canonical) /\
  NoDup [n + 2; n + 3; n + 4; n + 5; n + 7; n + 8; n + 9; n + 10]%nat /\
  Port_init anchor orientation separation h0 =
    ('(self, up, down, h) ← Port_build anchor h0;
     h ← Port_orient self down (default default_direction orientation) h;
     h ← Port_place self anchor (default default_direction orientation) separation h;
     Ok (self, h)) /\
  exists up down,
    Port_init anchor orientation separation h0 =
      Ok (n, h0 ++ port_cells n anchor false up down).
Proof.
  intros Ho Ha n. split; [|split; [|split]].
  - rewrite Port_build_cells, Nat.add_0_r. reflexivity.
  - apply port_particles_NoDup.
  - reflexivity.
  - destruct (Port_init_frames h0 anchor orientation separation Ho Ha)
      as (b & u & up & down & du & pos & _ & _ & _ & Hinit & _).
    eauto.
Qed.

Lemma Port_structure_witness :
  default default_direction None <> Vec.zero /\
  anchor_is_particle [] None /\
  Port_build None [] =
    Ok (0%nat, 1%nat, 6%nat, port_cells 0 None false canonical canonical) /\
  NoDup [2; 3; 4; 5; 7; 8; 9; 10]%nat /\
  Port_init None None 0 [] =
    ('(self, up, down, h) ← Port_build None [];
     h ← Port_orient self down default_direction h;
     h ← Port_place self None default_direction 0 h;
     Ok (self, h)) /\
  exists up down,
    Port_init None None 0 [] = Ok (0%nat, port_cells 0 None false up down).
Proof.
  assert (Ho : default default_direction None <> Vec.zero)
    by (apply nonzero_y; simpl; lra).
  split; [exact Ho|]. split; [exact (no_anchor [])|].
  exact (Port_structure [] None None 0 Ho (no_anchor [])).
Defined.

(** C10. Construction with an anchor leaves every cell the store held
    before it as it was -- the anchor, its position and the rest of its
    tree -- and the anchor is not among the particles of the new Port. *)
Theorem Port_init_preserves_store (h0 : heap) (anchor : option loc)
    (orientation : option Vec3) (separation : R) :
  default default_direction orientation <> Vec.zero ->
  anchor_is_particle h0 anchor ->
  exists port h' locs,
    Port_init anchor orientation separation h0 = Ok (port, h') /\
    take (length h0) h' = h0 /\
    (forall a, anchor = Some a -> position h' a = position h0 a) /\
    particles h' port = Ok locs /\
    (forall a, anchor = Some a -> a ∉ locs).
Proof.
  intros Ho Ha.
  destruct (Port_init_frames h0 anchor orientation separation Ho Ha)
    as (b & u & up & down & du & pos & _ & _ & _ & Hinit & _).
  destruct (anchor_is_particle_position h0 anchor Ha) as [Hlt _].
  eexists _, _, _. split; [exact Hinit|].
  split; [apply take_app_length|].
  split; [intros a E; apply position_old_cell, Hlt, E|].
  split; [rewrite <- (Nat.add_0_r (length h0)) at 2; apply particles_port_cells|].
  intros a E%Hlt Hin. rewrite !elem_of_cons, elem_of_nil in Hin. lia.
Qed.

Lemma Port_init_preserves_store_witness :
  default default_direction None <> Vec.zero /\
  anchor_is_particle [carbon] (Some 0%nat) /\
  exists port h' locs,
    Port_init (Some 0%nat) None 1 [carbon] = Ok (port, h') /\
    take (length [carbon]) h' = [carbon] /\
    (forall a, Some 0%nat = Some a -> position h' a = position [carbon] a) /\
    particles h' port = Ok locs /\
    (forall a, Some 0%nat = Some a -> a ∉ locs).
Proof.
  assert (Ho : default default_direction None <> Vec.zero)
    by (apply nonzero_y; simpl; lra).
  split; [exact Ho|]. split; [exact carbon_anchor|].
  exact (Port_init_preserves_store [carbon] (Some 0%nat) None 1 Ho carbon_anchor).
Defined.

(** ** Rigid transforms *)

(** C6. For every Port that owns each of its particles once and has at least
    one (spec 3 gives it eight), and every point [p]: [translate_to(p)]
    returns, and [center] read afterwards is [p]. *)
Theorem translate_to_then_center (h : heap) (l : loc) (c : Compound)
    (a : option loc) (u : bool) (locs : list loc) (p : Vec3) :
  h !! l = Some (OPort c a u) ->
  particles h l = Ok locs -> NoDup locs -> locs <> [] ->
  exists h', translate_to p l h = Ok h' /\ center h' l = Ok p.
Proof.
  intros _ Hp Hnd Hne.
  destruct (move_rows (fun q => Vec.add q (Vec.sub p (Vec.mean
              (default [] (match xyz_with_ports h l with Ok r => Some r | _ => None end)))))
              h l locs Hp Hnd)
    as (xyz & h' & Hxyz & Hlen & Hmove & Hxyz').
  rewrite Hxyz in Hmove, Hxyz'. cbn [default] in Hmove, Hxyz'.
  exists h'. split.
  - unfold translate_to, center. rewrite Hxyz. cbn [mbind result_bind].
    rewrite translate_move. exact Hmove.
  - unfold center. rewrite Hxyz'. cbn [mbind result_bind]. f_equal.
    rewrite mean_shift by (destruct xyz, locs; try discriminate; congruence).
    apply vec_eq; simpl; ring.
Qed.

Lemma translate_to_then_center_witness :
  let h := [] ++ port_cells 0 None false canonical canonical in
  let locs := [2; 3; 4; 5; 7; 8; 9; 10]%nat in
  h !! 0%nat =
    Some (OPort (mkCompound "Port" true [("up", 1%nat); ("down", 6%nat)]) None false) /\
  particles h 0%nat = Ok locs /\ NoDup locs /\ locs <> [] /\
  exists h', translate_to (Vec.mk 1 2 3) 0%nat h = Ok h' /\
             center h' 0%nat = Ok (Vec.mk 1 2 3).
Proof.
  intros h locs.
  assert (H0 : h !! 0%nat =
            Some (OPort (mkCompound "Port" true [("up", 1%nat); ("down", 6%nat)])
                        None false)) by reflexivity.
  assert (H1 : particles h 0%nat = Ok locs)
    by exact (particles_port_cells [] None false canonical canonical).
  assert (H2 : NoDup locs) by exact (port_particles_NoDup 0).
  assert (H3 : locs <> []) by discriminate.
  split; [exact H0|]. split; [exact H1|]. split; [exact H2|]. split; [exact H3|].
  exact (translate_to_then_center h 0%nat _ _ _ locs (Vec.mk 1 2 3) H0 H1 H2 H3).
Defined.

Local Close Scope R_scope.

(** ** Clones *)

(** The clone of [sample_tree], run through the model: the copy of the
    Compound is cell 13, the copy of its atom cell 14, the copy of its Port
    cell 15, and the anchor of that Port is cell 14. *)
Example clone_sample_tree :
  exists h',
    clone 0 sample_tree = Ok (13, h') /\
    h' !! 13 = Some (OCompound (mkCompound "CH" false [("C", 14); ("port", 15)])) /\
    h' !! 14 = sample_tree !! 1 /\
    h' !! 15 =
      Some (OPort (mkCompound "Port" true [("up", 16); ("down", 21)]) (Some 14) true).
Proof.
  eexists. split; [vm_compute; reflexivity|]. repeat split.
Qed.

(** C9. A Port made without anchor, by any orientation and separation,
    cannot be cloned: line 79 of [Port._clone] copies the Port and its
    sub-frames, line 80 hands the missing anchor to [clone], and the call
    raises [AttributeError] before line 81 copies the [used] flag. *)
Theorem Port_clone_without_anchor_raises (h0 : heap) (orientation : option Vec3)
    (separation : R) :
  default default_direction orientation <> Vec.zero ->
  exists l h,
    Port_init None orientation separation h0 = Ok (l, h) /\
    anchor_of h l = Ok None /\
    used_of h l = Ok false /\
    clone l h = Raise AttributeError.
Proof.
  intros Ho.
  destruct (Port_init_frames h0 None orientation separation Ho (no_anchor h0))
    as (b & u & up & down & du & pos & _ & _ & _ & Hinit & _).
  pose proof (port_cells_head h0 None false up down) as Hl.
  pose proof (port_cells_subframes_height h0 None false up down) as Hkids.
  set (h := h0 ++ port_cells (length h0) None false up down) in *.
  exists (length h0), h. split; [exact Hinit|].
  split; [unfold anchor_of; rewrite Hl; reflexivity|].
  split; [unfold used_of; rewrite Hl; reflexivity|].
  assert (Hd : 2 <= length h).
  { unfold h. rewrite length_app. cbn [port_cells length]. lia. }
  unfold clone.
  rewrite (clone_from_no_anchor h None 2 (length h) (length h0) ∅ h _ false Hd
             (clone_inv_start h) Hl Hkids).
  reflexivity.
Qed.

Lemma Port_clone_without_anchor_raises_witness :
  default default_direction None <> Vec.zero /\
  exists l h,
    Port_init None None 0%R [] = Ok (l, h) /\
    anchor_of h l = Ok None /\
    used_of h l = Ok false /\
    clone l h = Raise AttributeError.
Proof.
  assert (Ho : default default_direction None <> Vec.zero)
    by (apply nonzero_y; simpl; lra).
  split; [exact Ho|].
  exact (Port_clone_without_anchor_raises [] None 0%R Ho).
Defined.

(** C7. Take a tree that [clone] can descend, a Port [p] of it -- the node
    at [path] below the root, the root itself when the path is empty --
    and the anchor [a] of [p].  [clone] returns a tree whose node at [path]
    is a new Port [p'].  The anchor [a'] of [p'] is another object than
    [a]: a particle made by the clone, with the name, position and flag of
    [a]; the original store is untouched.  When [a] lies in the tree, at
    [path_a] below the root, [a'] is the node at [path_a] below the root of
    the copy: the copy of [a] the new tree owns. *)
Theorem Port_clone_anchor (h : heap) (root p a : loc) (path : list string)
    (d : nat) :
  height_le h d root -> d <= S (length h) ->
  follow h root path = Some p -> anchor_of h p = Ok (Some a) ->
  exists root' h' p' a' q,
    clone root h = Ok (root', h') /\
    take (length h) h' = h /\
    length h <= root' /\
    follow h' root' path = Some p' /\ length h <= p' /\
    anchor_of h' p' = Ok (Some a') /\
    a' <> a /\ length h <= a' /\
    h !! a = Some (OParticle q) /\ h' !! a' = Some (OParticle q) /\
    (forall path_a, follow h root path_a = Some a ->
       follow h' root' path_a = Some a').
Proof.
  intros Hh Hd Hf Ha.
  destruct (clone_spec h d root Hh Hd) as (root' & m' & h' & Hc & Hinv & Hm & Hcomp).
  destruct (follow_image _ _ _ Hinv Hcomp path _ _ _ Hm Hf) as (p' & Hp' & Hf').
  unfold anchor_of in Ha.
  destruct (h !! p) as [[|?|c a0 u]|] eqn:Hp; try discriminate.
  injection Ha as ->.
  destruct (port_copy _ _ _ Hcomp _ _ _ _ _ Hp' Hp) as (c' & a0 & a' & E & Hp'' & Ha').
  injection E as <-.
  destruct (height_le_follow h path d root p Hh Hf) as [dp Hdp].
  destruct (height_le_anchor h dp p c (Some a) u Hdp Hp) as (a1 & q & E & Hq).
  injection E as <-.
  destruct (particle_copy _ _ _ Hinv _ _ _ Ha' Hq) as [Hge Hq'].
  exists root', h', p', a', q.
  split; [exact Hc|]. split; [apply (inv_orig _ _ _ Hinv)|].
  split; [apply (inv_map _ _ _ Hinv root root' Hm)|].
  split; [exact Hf'|].
  split; [apply (inv_map _ _ _ Hinv p p' Hp')|].
  split; [unfold anchor_of; rewrite Hp''; reflexivity|].
  split; [pose proof (lookup_lt_Some _ _ _ Hq); lia|].
  split; [exact Hge|]. split; [exact Hq|]. split; [exact Hq'|].
  intros path_a Hfa.
  destruct (follow_image _ _ _ Hinv Hcomp path_a _ _ _ Hm Hfa) as (a2 & Ha2 & Hfa').
  rewrite Hfa'. congruence.
Qed.

Lemma Port_clone_anchor_witness :
  height_le sample_tree 4 0 /\ 4 <= S (length sample_tree) /\
  follow sample_tree 0 ["port"] = Some 2 /\
  anchor_of sample_tree 2 = Ok (Some 1) /\
  follow sample_tree 0 ["C"] = Some 1 /\
  exists root' h' p' a' q,
    clone 0 sample_tree = Ok (root', h') /\
    take (length sample_tree) h' = sample_tree /\
    length sample_tree <= root' /\
    follow h' root' ["port"] = Some p' /\ length sample_tree <= p' /\
    anchor_of h' p' = Ok (Some a') /\
    a' <> 1 /\ length sample_tree <= a' /\
    sample_tree !! 1 = Some (OParticle q) /\ h' !! a' = Some (OParticle q) /\
    (forall path_a, follow sample_tree 0 path_a = Some 1 ->
       follow h' root' path_a = Some a').
Proof.
  split; [exact sample_tree_height|]. split; [exact sample_tree_depth|].
  split; [reflexivity|]. split; [reflexivity|]. split; [reflexivity|].
  exact (Port_clone_anchor sample_tree 0 2 1 ["port"] 4
           sample_tree_height sample_tree_depth eq_refl eq_refl).
Defined.

(** * Further properties of the Port *)

Local Open Scope R_scope.

(** ** Rotations keep scalar products *)

Section isometry_facts.
Import Vec.

Lemma rotation_matrix_isometry theta axis m u v :
  rotation_matrix theta axis = Ok m -> dot (apply m u) (apply m v) = dot u v.
Proof.
  unfold rotation_matrix. destruct (unit_vector axis) as [n|] eqn:Hn; [|discriminate].
  cbn [mbind result_bind]. intros [= <-].
  pose proof (unit_vector_dot _ _ Hn) as Hn1.
  pose proof (sin2_cos2 theta) as Hsc. unfold Rsqr in Hsc.
  destruct n as [nx ny nz], u as [ux uy uz], v as [vx vy vz].
  unfold apply, dot in *; simpl in *.
  set (c := cos theta) in *. set (s := sin theta) in *.
  clearbody c s. clear Hn.
  nsatz.
Qed.

Lemma rotation_linear_isometry theta axis m :
  rotation_matrix theta axis = Ok m -> linear_isometry (apply m).
Proof.
  intros Hm. split; [|split].
  - intros p q. apply apply_add.
  - intros p q. apply apply_sub.
  - intros p q. eapply rotation_matrix_isometry, Hm.
Qed.

Lemma linear_isometry_id : linear_isometry (fun p => p).
Proof. repeat split. Qed.

Lemma linear_isometry_compose L1 L2 :
  linear_isometry L1 -> linear_isometry L2 -> linear_isometry (fun p => L2 (L1 p)).
Proof.
  intros (A1 & S1 & D1) (A2 & S2 & D2). split; [|split]; intros p q.
  - rewrite A1, A2. reflexivity.
  - rewrite S1, S2. reflexivity.
  - rewrite D2, D1. reflexivity.
Qed.

Lemma linear_isometry_zero L : linear_isometry L -> L zero = zero.
Proof.
  intros (_ & S & _).
  assert (E : sub zero zero = zero) by (apply vec_eq; simpl; lra).
  rewrite <- E at 1. rewrite S. apply vec_eq; simpl; lra.
Qed.

Lemma norm_apply theta axis m v :
  rotation_matrix theta axis = Ok m -> norm (apply m v) = norm v.
Proof. intros Hm. unfold norm. rewrite (rotation_matrix_isometry _ _ _ _ _ Hm). reflexivity. Qed.

Lemma apply_divide m v k : apply m (divide v k) = divide (apply m v) k.
Proof. apply vec_eq; unfold apply, dot; simpl; unfold Rdiv; ring. Qed.

(** Rotating before or after normalising is the same. *)
Lemma unit_vector_apply theta axis m v :
  rotation_matrix theta axis = Ok m ->
  unit_vector (apply m v) = (w ← unit_vector v; Ok (apply m w)).
Proof.
  intros Hm. unfold unit_vector. rewrite (norm_apply _ _ _ _ Hm).
  destruct (Req_dec_T (norm v) 0); [reflexivity|].
  cbn [mbind result_bind]. rewrite apply_divide. reflexivity.
Qed.

Lemma sum_apply m (ps : list Vec3) : sum (map (apply m) ps) = apply m (sum ps).
Proof.
  induction ps as [|p ps IH]; [symmetry; apply apply_zero|].
  cbn [map sum foldr]. fold (sum (map (apply m) ps)). fold (sum ps).
  rewrite IH, apply_add. reflexivity.
Qed.

Lemma mean_apply m (ps : list Vec3) : mean (map (apply m) ps) = apply m (mean ps).
Proof. unfold mean. rewrite sum_apply, length_map, apply_divide. reflexivity. Qed.

Lemma unit_vector_scale_pos k v :
  0 < k -> unit_vector (scale k v) = unit_vector v.
Proof.
  intros Hk. unfold unit_vector. rewrite norm_scale by lra.
  destruct (Req_dec_T (norm v) 0) as [E|E].
  - rewrite E, Rmult_0_r. destruct (Req_dec_T 0 0); [reflexivity|contradiction].
  - destruct (Req_dec_T (k * norm v) 0) as [E'|E'].
    + exfalso. apply Rmult_integral in E'. destruct E'; [lra|contradiction].
    + f_equal. apply vec_eq; simpl; field; split; lra || assumption.
Qed.
End isometry_facts.

(** ** Moves and the two queries *)

Section moves.
Implicit Types (h : heap) (l : loc) (locs : list loc).

(** A move keeps the traversal: the same particles, in the same order. *)
Lemma move_particles f h l locs :
  particles h l = Ok locs -> NoDup locs ->
  exists xyz h',
    xyz_with_ports h l = Ok xyz /\
    move f l h = Ok h' /\
    particles h' l = Ok locs /\
    xyz_with_ports h' l = Ok (map f xyz).
Proof.
  intros Hp Hnd.
  pose proof (particles_from_are_particles _ _ _ _ Hp) as Hall.
  destruct (collect_positions _ _ Hall) as (xyz & Hxyz & Hlen).
  assert (Hget : xyz_with_ports h l = Ok xyz).
  { unfold xyz_with_ports. rewrite Hp. exact Hxyz. }
  assert (Hp' : particles (assign_positions locs (map f xyz) h) l = Ok locs).
  { rewrite <- (particles_skeleton h _ l (assign_positions_skeleton _ _ _)). exact Hp. }
  exists xyz, (assign_positions locs (map f xyz) h).
  split; [exact Hget|]. split; [|split; [exact Hp'|]].
  - unfold move, set_xyz_with_ports. rewrite Hget. cbn [mbind result_bind].
    rewrite Hp. reflexivity.
  - unfold xyz_with_ports. rewrite Hp'. cbn [mbind result_bind].
    apply collect_assign_positions; try assumption.
    rewrite length_map. exact Hlen.
Qed.

Lemma direction_rows h l xyz :
  xyz_with_ports h l = Ok xyz ->
  direction h l =
    match xyz !! 1%nat, xyz !! 0%nat with
    | Some p1, Some p0 => Vec.unit_vector (Vec.sub p1 p0)
    | _, _ => Raise IndexError
    end.
Proof. intros Hx. unfold direction. rewrite Hx. reflexivity. Qed.

Lemma xyz_length h l locs xyz :
  particles h l = Ok locs -> xyz_with_ports h l = Ok xyz -> length xyz = length locs.
Proof.
  intros Hp. unfold xyz_with_ports. rewrite Hp. cbn [mbind result_bind].
  pose proof (particles_from_are_particles _ _ _ _ Hp) as Hall.
  destruct (collect_positions _ _ Hall) as (xyz' & -> & Hlen). intros [= <-]. exact Hlen.
Qed.

Lemma xyz_total h l locs :
  particles h l = Ok locs -> exists xyz, xyz_with_ports h l = Ok xyz /\ length xyz = length locs.
Proof.
  intros Hp. unfold xyz_with_ports. rewrite Hp. cbn [mbind result_bind].
  apply collect_positions. eapply particles_from_are_particles, Hp.
Qed.
End moves.

(** ** The orientation enters through its direction *)

Section orientation_facts.
Import Vec.

Lemma neg_scale k v : neg (scale k v) = scale k (neg v).
Proof. apply vec_eq; simpl; ring. Qed.

Lemma cross_scale_r k u v : cross u (scale k v) = scale k (cross u v).
Proof. apply vec_eq; simpl; ring. Qed.

Lemma rotation_matrix_scale_axis theta k axis :
  0 < k -> rotation_matrix theta (scale k axis) = rotation_matrix theta axis.
Proof. intros Hk. unfold rotation_matrix. rewrite unit_vector_scale_pos by exact Hk. reflexivity. Qed.

Lemma angle_scale_r k u v : 0 < k -> angle u (scale k v) = angle u v.
Proof. intros Hk. unfold angle. rewrite unit_vector_scale_pos by exact Hk. reflexivity. Qed.

Lemma alignment_scale k o : 0 < k -> alignment (scale k o) = alignment o.
Proof.
  intros Hk. unfold alignment.
  rewrite neg_scale, !unit_vector_scale_pos by exact Hk. reflexivity.
Qed.

Lemma rotate_scale_axis theta k axis l h :
  0 < k -> rotate theta (scale k axis) l h = rotate theta axis l h.
Proof. intros Hk. unfold rotate. rewrite rotation_matrix_scale_axis by exact Hk. reflexivity. Qed.

Lemma Port_orient_scale k o self down h :
  0 < k -> Port_orient self down (scale k o) h = Port_orient self down o h.
Proof.
  intros Hk. unfold Port_orient. rewrite alignment_scale by exact Hk.
  destruct (alignment o) as [[| |]|]; try reflexivity.
  cbn [mbind result_bind]. cbv zeta.
  rewrite angle_scale_r, cross_scale_r by exact Hk.
  destruct (angle default_direction o) as [theta|]; [|reflexivity].
  cbn [mbind result_bind]. rewrite rotate_scale_axis by exact Hk.
  destruct (rotate theta _ self h); [|reflexivity].
  cbn [mbind result_bind]. apply rotate_scale_axis, Hk.
Qed.

Lemma Port_place_scale k o self anchor s h :
  0 < k -> Port_place self anchor (scale k o) s h = Port_place self anchor o s h.
Proof. intros Hk. unfold Port_place. rewrite unit_vector_scale_pos by exact Hk. reflexivity. Qed.

Lemma unit_vector_zero : unit_vector zero = Raise DegenerateVectorError.
Proof.
  unfold unit_vector. destruct (Req_dec_T (norm zero) 0) as [|E]; [reflexivity|].
  exfalso. apply E. apply norm_zero. reflexivity.
Qed.

Lemma alignment_Ok_nonzero o b : alignment o = Ok b -> o <> zero.
Proof.
  unfold alignment. intros H ->.
  replace (neg zero) with zero in H by (apply vec_eq; simpl; ring).
  rewrite unit_vector_zero in H. discriminate.
Qed.
End orientation_facts.

(** ** Where construction puts the ghosts *)

Section normal_form.
Import Vec.

Lemma frame_eq (f g : Frame) :
  f_middle f = f_middle g -> f_top f = f_top g ->
  f_left f = f_left g -> f_right f = f_right g -> f = g.
Proof. destruct f, g; simpl; intros; subst; reflexivity. Qed.

Lemma frame_map_ext (f g : Vec3 -> Vec3) fr :
  (forall p, f p = g p) -> frame_map f fr = frame_map g fr.
Proof. intros H. apply frame_eq; simpl; apply H. Qed.

Lemma frame_map_compose (f g : Vec3 -> Vec3) fr :
  frame_map f (frame_map g fr) = frame_map (fun p => f (g p)) fr.
Proof. reflexivity. Qed.

Lemma frame_sum_linear L fr :
  linear_isometry L -> frame_sum (frame_map L fr) = L (frame_sum fr).
Proof.
  intros (A & _ & _). unfold frame_sum. cbn [frame_map f_middle f_top f_left f_right].
  rewrite !A. reflexivity.
Qed.

Lemma frame_sum_isometry_canonical L :
  linear_isometry L -> frame_sum (frame_map L canonical) = zero.
Proof.
  intros HL. rewrite (frame_sum_linear _ _ HL), frame_sum_canonical.
  apply linear_isometry_zero, HL.
Qed.

Lemma orient_frames_isometries o u b :
  unit_vector o = Ok u -> alignment o = Ok b ->
  exists Lu Ld,
    linear_isometry Lu /\ linear_isometry Ld /\
    orient_frames o = Ok (frame_map Lu canonical, frame_map Ld canonical).
Proof.
  intros Hu Hb. unfold orient_frames. rewrite Hb. cbn [mbind result_bind].
  destruct b.
  - destruct rotation_matrix_PI_z as (m & Hm & _). rewrite Hm. cbn [mbind result_bind].
    pose proof (rotation_linear_isometry _ _ _ Hm) as Hi.
    exists (apply m), (fun p => apply m (apply m p)).
    split; [exact Hi|]. split; [apply linear_isometry_compose; exact Hi|reflexivity].
  - destruct rotation_matrix_PI_z as (m & Hm & _). rewrite Hm. cbn [mbind result_bind].
    exists (fun p => p), (apply m).
    split; [apply linear_isometry_id|].
    split; [eapply rotation_linear_isometry, Hm|reflexivity].
  - pose proof (general_branch_axis _ Hb) as Hax.
    destruct (alignment_rotation _ _ Hax Hu) as (theta & m & -> & Hm & _).
    destruct (rotation_matrix_PI_orthogonal _ Hax) as (m' & Hm' & _).
    cbv zeta. cbn [mbind result_bind]. rewrite Hm, Hm'. cbn [mbind result_bind].
    pose proof (rotation_linear_isometry _ _ _ Hm) as Hi.
    pose proof (rotation_linear_isometry _ _ _ Hm') as Hi'.
    exists (apply m), (fun p => apply m' (apply m p)).
    split; [exact Hi|]. split; [apply linear_isometry_compose; assumption|reflexivity].
Qed.

(** Where construction puts the eight ghosts: a linear isometry of the
    canonical point, plus the anchor's position, plus the separation along
    the orientation. *)
Lemma Port_init_normal_form (h0 : heap) (anchor : option loc)
    (orientation : option Vec3) (separation : R) :
  let o := default default_direction orientation in
  o <> zero -> anchor_is_particle h0 anchor ->
  exists u Lu Ld pos,
    unit_vector o = Ok u /\ anchor_position h0 anchor = Ok pos /\
    linear_isometry Lu /\ linear_isometry Ld /\
    let delta := add (match pos with Some A => A | None => zero end)
                     (scale separation u) in
    Port_init anchor orientation separation h0 =
      Ok (length h0,
          h0 ++ port_cells (length h0) anchor false
                  (frame_map (fun p => add (Lu p) delta) canonical)
                  (frame_map (fun p => add (Ld p) delta) canonical)).
Proof.
  intros o Ho Ha.
  destruct (anchor_is_particle_position h0 anchor Ha) as (Hlt & pos & Hpos & _).
  destruct (alignment_total _ Ho) as [b Hb].
  pose proof (unit_vector_nonzero _ Ho) as Hu.
  destruct (orient_frames_isometries _ _ _ Hu Hb) as (Lu & Ld & HLu & HLd & Hof).
  exists (divide o (norm o)), Lu, Ld, pos.
  split; [exact Hu|]. split; [exact Hpos|]. split; [exact HLu|]. split; [exact HLd|].
  cbv zeta. rewrite (Port_init_cells h0 anchor Hlt). cbv zeta. fold o.
  rewrite Hof, Hpos. cbn [mbind result_bind].
  unfold place_frames. rewrite Hu. cbn [mbind result_bind].
  pose proof (centroid_zero _ _ (frame_sum_isometry_canonical _ HLu)
                (frame_sum_isometry_canonical _ HLd)) as Hc.
  rewrite Nat.add_0_r. do 3 f_equal.
  destruct pos as [A|]; unfold shift; cbn [fst snd]; rewrite ?Hc;
    f_equal; rewrite ?frame_map_compose; apply frame_map_ext; intros p;
    apply vec_eq; simpl; ring.
Qed.
End normal_form.

Lemma dist2_isometry_shift L delta p q :
  linear_isometry L ->
  dist2 (Vec.add (L p) delta) (Vec.add (L q) delta) = dist2 p q.
Proof.
  intros (_ & S & D). unfold dist2.
  replace (Vec.sub (Vec.add (L p) delta) (Vec.add (L q) delta)) with (L (Vec.sub p q)).
  - apply D.
  - rewrite S. apply vec_eq; simpl; ring.
Qed.

Lemma mean_frame_rows L delta :
  linear_isometry L ->
  Vec.mean (frame_rows (frame_map (fun p => Vec.add (L p) delta) canonical)) = delta.
Proof.
  intros HL. pose proof (frame_sum_isometry_canonical _ HL) as Hs.
  unfold frame_sum in Hs. cbn [frame_map f_middle f_top f_left f_right canonical] in Hs.
  unfold Vec.mean. cbn [frame_rows frame_map f_middle f_top f_left f_right canonical
                        length Vec.sum foldr].
  apply (f_equal Vec.x) in Hs as Hx. apply (f_equal Vec.y) in Hs as Hy.
  apply (f_equal Vec.z) in Hs as Hz. simpl in Hx, Hy, Hz.
  replace (INR 4) with 4 by (simpl; ring).
  apply vec_eq; simpl; lra.
Qed.

Local Close Scope R_scope.

(** ** Clones and their originals *)

Section clone_geometry.
Implicit Types (h : heap) (l : loc) (locs : list loc) (m : clone_map).

Lemma concat_results_total {A B} (f : A -> result (list B)) (xs : list A) :
  Forall (fun a => exists r, f a = Ok r) xs -> exists r, concat_results f xs = Ok r.
Proof.
  induction 1 as [|a xs [r Hr] _ [rest IH]]; cbn [concat_results].
  - eauto.
  - rewrite Hr, IH. cbn [mbind result_bind]. eauto.
Qed.

(** A subtree of bounded depth can be traversed. *)
Lemma particles_from_height h d : forall fuel l,
  height_le h d l -> d <= fuel -> exists locs, particles_from fuel h l = Ok locs.
Proof.
  induction d as [|d IH]; intros fuel l Hh Hle; [contradiction|].
  destruct fuel as [|fuel]; [lia|]. cbn [particles_from height_le] in *.
  destruct (h !! l) as [[p|c|c a u]|]; [eauto| | |contradiction].
  - apply concat_results_total. eapply Forall_impl; [exact Hh|].
    intros kid Hk. apply IH; [exact Hk|lia].
  - destruct Hh as [Hh _]. apply concat_results_total. eapply Forall_impl; [exact Hh|].
    intros kid Hk. apply IH; [exact Hk|lia].
Qed.

(** A store that agrees with [h] on the cells of [h] shows the same
    traversal of a subtree of [h]. *)
Lemma particles_from_agree h h' d : forall fuel l,
  (forall i, i < length h -> h' !! i = h !! i) ->
  height_le h d l -> particles_from fuel h' l = particles_from fuel h l.
Proof.
  induction d as [|d IH]; intros fuel l Hag Hh; [contradiction|].
  destruct fuel as [|fuel]; [reflexivity|]. cbn [particles_from height_le] in *.
  destruct (h !! l) as [o|] eqn:Hl; [|contradiction].
  rewrite (Hag l (lookup_lt_Some _ _ _ Hl)), Hl.
  destruct o as [p|c|c a u]; [reflexivity| |destruct Hh as [Hh _]].
  all: apply concat_results_ext; intros kid Hkid;
       apply IH; [exact Hag|]; rewrite Forall_forall in Hh; apply Hh, Hkid.
Qed.

Lemma collect_ext {A B} (f g : A -> result B) (xs : list A) :
  (forall a, a ∈ xs -> f a = g a) -> collect f xs = collect g xs.
Proof.
  induction xs as [|a xs IH]; intros H; [reflexivity|]. cbn [collect].
  rewrite (H a) by left. rewrite IH; [reflexivity|].
  intros b Hb. apply H. right. exact Hb.
Qed.

(** Particles that are images under the identity map carry the same
    positions. *)
Lemma collect_image orig m h' locs locs' :
  clone_inv orig m h' ->
  Forall (is_particle orig) locs ->
  Forall2 (fun x x' => m !! x = Some x') locs locs' ->
  collect (position h') locs' = collect (position orig) locs.
Proof.
  intros Hinv Hp Him. induction Him as [|x x' locs locs' Hx _ IH]; [reflexivity|].
  apply Forall_cons in Hp as [[p Hxp] Hp]. cbn [collect]. rewrite (IH Hp).
  destruct (inv_map _ _ _ Hinv x x' Hx) as (_ & _ & Hs). rewrite Hxp in Hs.
  assert (E : position h' x' = position orig x).
  { unfold position. rewrite Hxp.
    destruct (h' !! x') as [[q| |]|]; try discriminate. injection Hs as ->. reflexivity. }
  rewrite E. reflexivity.
Qed.

Lemma take_set_position n i v h :
  n <= i -> take n (set_position i v h) = take n h.
Proof.
  intros Hi. unfold set_position. destruct (h !! i) as [[p| |]|]; try reflexivity.
  apply take_insert_ge. exact Hi.
Qed.

Lemma take_assign_positions n locs (vs : list Vec3) h :
  Forall (fun x => n <= x) locs -> take n (assign_positions locs vs h) = take n h.
Proof.
  unfold assign_positions. intros Hall. revert vs h.
  induction Hall as [|i locs Hi _ IH]; intros vs h; [reflexivity|].
  destruct vs as [|v vs]; [reflexivity|]. cbn [zip zip_with foldl fst snd].
  rewrite IH. apply take_set_position, Hi.
Qed.

End clone_geometry.

Section clone_extras.
Context (h : heap) (l : loc) (d : nat).
Hypothesis Hh : height_le h d l.
Hypothesis Hd : d <= S (length h).

(** What the clone of a tree is, for the lemmas below. *)
Lemma Port_clone_image :
  exists l' m' h' locs locs',
    clone l h = Ok (l', h') /\
    clone_inv h m' h' /\ length h <= l' /\
    particles h l = Ok locs /\ particles h' l' = Ok locs' /\
    Forall2 (fun x x' => m' !! x = Some x') locs locs'.
Proof.
  destruct (clone_spec h d l Hh Hd) as (l' & m' & h' & Hres & Hinv & Hm & Hcomp).
  destruct (particles_from_height h d (S (length h)) l Hh Hd) as [locs Hlocs].
  destruct (particles_from_image h m' h' Hinv Hcomp _ l l' locs Hm Hlocs)
    as (locs' & Hlocs' & Himage).
  exists l', m', h', locs, locs'.
  split; [exact Hres|]. split; [exact Hinv|].
  split; [apply (inv_map _ _ _ Hinv l l' Hm)|]. split; [exact Hlocs|].
  split; [|exact Himage].
  pose proof (inv_len _ _ _ Hinv) as Hlen.
  eapply particles_from_fuel_mono; [|exact Hlocs']. lia.
Qed.
End clone_extras.

Lemma sample_store_depth : 3 <= S (length sample_store).
Proof. cbn. lia. Qed.

Local Open Scope R_scope.

(** ** Construction, continued *)

(** X1. With an anchor particle or none, construction raises
    [DegenerateVectorError] exactly when the orientation is the zero
    vector: line 62 normalises it before anything else can fail. *)
Theorem Port_init_degenerate_iff_zero (h0 : heap) (anchor : option loc)
    (orientation : option Vec3) (separation : R) :
  anchor_is_particle h0 anchor ->
  (Port_init anchor orientation separation h0 = Raise DegenerateVectorError <->
   default default_direction orientation = Vec.zero).
Proof.
  intros Ha. split.
  - intros Hr.
    destruct (Req_dec_T (Vec.norm (default default_direction orientation)) 0) as [E|E];
      [apply norm_zero; exact E|].
    assert (Ho : default default_direction orientation <> Vec.zero)
      by (intros Hz; apply E, norm_zero, Hz).
    exfalso.
    destruct (Port_init_frames h0 anchor orientation separation Ho Ha)
      as (b & u & up & down & du & pos & _ & _ & _ & Hinit & _).
    rewrite Hinit in Hr. discriminate.
  - intros Ho. unfold Port_init. rewrite Port_build_cells. cbn [mbind result_bind].
    cbv zeta. rewrite Ho. unfold Port_orient, alignment.
    replace (Vec.neg Vec.zero) with Vec.zero by (apply vec_eq; simpl; ring).
    rewrite unit_vector_zero. reflexivity.
Qed.

Lemma Port_init_degenerate_iff_zero_witness :
  anchor_is_particle [] None /\
  (Port_init None (Some Vec.zero) 1 [] = Raise DegenerateVectorError <->
   default default_direction (Some Vec.zero) = Vec.zero).
Proof.
  split; [exact (no_anchor [])|].
  exact (Port_init_degenerate_iff_zero [] None (Some Vec.zero) 1 (no_anchor [])).
Defined.

(** X2. Only the direction of the orientation matters: scaling it by a
    positive factor gives the same result, store and all (lines 61-76 use
    the orientation through [unit_vector], [angle] and the axis of a
    rotation only). *)
Theorem Port_init_orientation_scale (h0 : heap) (anchor : option loc) (o : Vec3)
    (separation k : R) :
  0 < k ->
  Port_init anchor (Some (Vec.scale k o)) separation h0 =
  Port_init anchor (Some o) separation h0.
Proof.
  intros Hk. unfold Port_init. cbv zeta.
  change (default default_direction (Some (Vec.scale k o))) with (Vec.scale k o).
  change (default default_direction (Some o)) with o.
  destruct (Port_build anchor h0) as [[[[self up] down] h]|]; [|reflexivity].
  cbn [mbind result_bind]. rewrite Port_orient_scale by exact Hk.
  destruct (Port_orient self down o h) as [h1|]; [|reflexivity].
  cbn [mbind result_bind]. rewrite Port_place_scale by exact Hk. reflexivity.
Qed.

Lemma Port_init_orientation_scale_witness :
  0 < 3 /\
  Port_init None (Some (Vec.scale 3 (Vec.mk 1 1 0))) 0.5 [] =
  Port_init None (Some (Vec.mk 1 1 0)) 0.5 [].
Proof.
  assert (H : 0 < 3) by lra.
  split; [exact H|]. exact (Port_init_orientation_scale [] None (Vec.mk 1 1 0) 0.5 3 H).
Defined.

(** X3. The direction of the constructed Port, branch by branch: exactly
    (0, -1, 0) in the antiparallel branch and exactly (0, 1, 0) in the
    parallel one -- an orientation within the tolerance of [np.allclose] is
    snapped to the axis -- and exactly the unit vector of the orientation in
    the general branch. *)
Theorem Port_direction_by_branch (h0 : heap) (anchor : option loc)
    (orientation : option Vec3) (separation : R) (b : branch) :
  alignment (default default_direction orientation) = Ok b ->
  anchor_is_particle h0 anchor ->
  exists port h' u,
    Port_init anchor orientation separation h0 = Ok (port, h') /\
    Vec.unit_vector (default default_direction orientation) = Ok u /\
    direction h' port =
      Ok (match b with
          | Antiparallel => Vec.mk 0 (-1) 0
          | Parallel => Vec.mk 0 1 0
          | General => u
          end).
Proof.
  intros Hb Ha.
  destruct (Port_init_frames h0 anchor orientation separation
              (alignment_Ok_nonzero _ _ Hb) Ha)
    as (b' & u & up & down & du & pos & Hb' & Hu & _ & Hinit & Hup & _ & _ & _ & Hdu & _).
  rewrite Hb in Hb'. injection Hb' as <-.
  exists (length h0), (h0 ++ port_cells (length h0) anchor false up down), u.
  split; [exact Hinit|]. split; [exact Hu|].
  rewrite <- (Nat.add_0_r (length h0)) at 2. rewrite direction_port_cells.
  unfold frame_axis in Hup. rewrite Hup, Hdu.
  destruct b; f_equal; apply vec_eq; simpl; ring.
Qed.

Lemma Port_direction_by_branch_witness :
  alignment (default default_direction (Some (Vec.mk 0 (-1) 0))) = Ok Antiparallel /\
  anchor_is_particle [] None /\
  exists port h' u,
    Port_init None (Some (Vec.mk 0 (-1) 0)) 0 [] = Ok (port, h') /\
    Vec.unit_vector (default default_direction (Some (Vec.mk 0 (-1) 0))) = Ok u /\
    direction h' port = Ok (Vec.mk 0 (-1) 0).
Proof.
  assert (Hb : alignment (default default_direction (Some (Vec.mk 0 (-1) 0))) = Ok Antiparallel)
    by exact (alignment_antiparallel _ minus_y_antiparallel).
  split; [exact Hb|]. split; [exact (no_anchor [])|].
  exact (Port_direction_by_branch [] None (Some (Vec.mk 0 (-1) 0)) 0 Antiparallel
           Hb (no_anchor [])).
Defined.

(** X4. The [direction] of a constructed Port is the direction of its
    sub-frame "up": rows 0 and 1 of [xyz_with_ports] are the "middle" and
    "top" ghosts of "up". *)
Theorem Port_direction_is_up (h0 : heap) (anchor : option loc)
    (orientation : option Vec3) (separation : R) :
  default default_direction orientation <> Vec.zero ->
  anchor_is_particle h0 anchor ->
  exists port h' up dir,
    Port_init anchor orientation separation h0 = Ok (port, h') /\
    getitem h' port "up" = Ok up /\
    direction h' port = Ok dir /\ direction h' up = Ok dir.
Proof.
  intros Ho Ha.
  destruct (Port_init_frames h0 anchor orientation separation Ho Ha)
    as (b & u & up & down & du & pos & _ & _ & _ & Hinit & Hup & _).
  exists (length h0), (h0 ++ port_cells (length h0) anchor false up down),
         (length h0 + 1)%nat, du.
  split; [exact Hinit|]. split; [apply getitem_up_cells|]. split.
  - rewrite <- (Nat.add_0_r (length h0)) at 2. rewrite direction_port_cells. exact Hup.
  - rewrite direction_up_cells. exact Hup.
Qed.

Lemma Port_direction_is_up_witness :
  default default_direction None <> Vec.zero /\ anchor_is_particle [] None /\
  exists port h' up dir,
    Port_init None None 0 [] = Ok (port, h') /\
    getitem h' port "up" = Ok up /\
    direction h' port = Ok dir /\ direction h' up = Ok dir.
Proof.
  assert (Ho : default default_direction None <> Vec.zero)
    by (apply nonzero_y; simpl; lra).
  split; [exact Ho|]. split; [exact (no_anchor [])|].
  exact (Port_direction_is_up [] None None 0 Ho (no_anchor [])).
Defined.

(** X5. Construction is rigid: the rows of the constructed Port are the
    four canonical points under one distance-preserving map for "up" and
    under another for "down"; both sub-frames keep the canonical shape. *)
Theorem Port_frames_congruent (h0 : heap) (anchor : option loc)
    (orientation : option Vec3) (separation : R) :
  default default_direction orientation <> Vec.zero ->
  anchor_is_particle h0 anchor ->
  exists port h' Tu Td,
    Port_init anchor orientation separation h0 = Ok (port, h') /\
    (forall p q, dist2 (Tu p) (Tu q) = dist2 p q) /\
    (forall p q, dist2 (Td p) (Td q) = dist2 p q) /\
    xyz_with_ports h' port =
      Ok (map Tu [middle_pos; top_pos; left_pos; right_pos] ++
          map Td [middle_pos; top_pos; left_pos; right_pos]).
Proof.
  intros Ho Ha.
  destruct (Port_init_normal_form h0 anchor orientation separation Ho Ha)
    as (u & Lu & Ld & pos & _ & _ & HLu & HLd & Hinit).
  cbv zeta in Hinit.
  eexists _, _, _, _. split; [exact Hinit|].
  split; [intros p q; apply dist2_isometry_shift, HLu|].
  split; [intros p q; apply dist2_isometry_shift, HLd|].
  rewrite <- (Nat.add_0_r (length h0)) at 2. rewrite xyz_port_cells. reflexivity.
Qed.

Lemma Port_frames_congruent_witness :
  default default_direction (Some (Vec.mk 1 1 0)) <> Vec.zero /\
  anchor_is_particle [carbon] (Some 0%nat) /\
  exists port h' Tu Td,
    Port_init (Some 0%nat) (Some (Vec.mk 1 1 0)) 0.5 [carbon] = Ok (port, h') /\
    (forall p q, dist2 (Tu p) (Tu q) = dist2 p q) /\
    (forall p q, dist2 (Td p) (Td q) = dist2 p q) /\
    xyz_with_ports h' port =
      Ok (map Tu [middle_pos; top_pos; left_pos; right_pos] ++
          map Td [middle_pos; top_pos; left_pos; right_pos]).
Proof.
  assert (Ho : default default_direction (Some (Vec.mk 1 1 0)) <> Vec.zero)
    by (apply nonzero_x; simpl; lra).
  split; [exact Ho|]. split; [exact carbon_anchor|].
  exact (Port_frames_congruent [carbon] (Some 0%nat) (Some (Vec.mk 1 1 0)) 0.5
           Ho carbon_anchor).
Defined.

(** X6. After construction "up" and "down" have the same centre, which is
    the centre of the Port. *)
Theorem Port_subframes_share_center (h0 : heap) (anchor : option loc)
    (orientation : option Vec3) (separation : R) :
  default default_direction orientation <> Vec.zero ->
  anchor_is_particle h0 anchor ->
  exists port h' up down c,
    Port_init anchor orientation separation h0 = Ok (port, h') /\
    getitem h' port "up" = Ok up /\ getitem h' port "down" = Ok down /\
    center h' port = Ok c /\ center h' up = Ok c /\ center h' down = Ok c.
Proof.
  intros Ho Ha.
  destruct (Port_init_normal_form h0 anchor orientation separation Ho Ha)
    as (u & Lu & Ld & pos & _ & _ & HLu & HLd & Hinit).
  cbv zeta in Hinit.
  set (delta := Vec.add (match pos with Some A => A | None => Vec.zero end)
                        (Vec.scale separation u)) in *.
  exists (length h0),
         (h0 ++ port_cells (length h0) anchor false
                  (frame_map (fun p => Vec.add (Lu p) delta) canonical)
                  (frame_map (fun p => Vec.add (Ld p) delta) canonical)),
         (length h0 + 1)%nat, (length h0 + 6)%nat, delta.
  split; [exact Hinit|]. split; [apply getitem_up_cells|].
  split; [apply getitem_down_cells|].
  split; [|split].
  - rewrite <- (Nat.add_0_r (length h0)) at 2. rewrite center_port_cells. f_equal.
    change (centroid (frame_map (fun p => Vec.add (Lu p) delta) canonical,
                      frame_map (fun p => Vec.add (Ld p) delta) canonical) = delta).
    rewrite centroid_sums.
    pose proof (mean_frame_rows Lu delta HLu) as Hu.
    pose proof (mean_frame_rows Ld delta HLd) as Hd.
    unfold Vec.mean in Hu, Hd.
    cbn [frame_rows length Vec.sum foldr] in Hu, Hd.
    replace (INR 4) with 4 in Hu, Hd by (simpl; ring).
    apply (f_equal Vec.x) in Hu as Hux. apply (f_equal Vec.y) in Hu as Huy.
    apply (f_equal Vec.z) in Hu as Huz. apply (f_equal Vec.x) in Hd as Hdx.
    apply (f_equal Vec.y) in Hd as Hdy. apply (f_equal Vec.z) in Hd as Hdz.
    simpl in Hux, Huy, Huz, Hdx, Hdy, Hdz.
    apply vec_eq; simpl; lra.
  - unfold center. rewrite xyz_up_cells. cbn [mbind result_bind]. f_equal.
    apply mean_frame_rows, HLu.
  - unfold center. rewrite xyz_down_cells. cbn [mbind result_bind]. f_equal.
    apply mean_frame_rows, HLd.
Qed.

Lemma Port_subframes_share_center_witness :
  default default_direction (Some (Vec.mk 0 0 2)) <> Vec.zero /\
  anchor_is_particle [carbon] (Some 0%nat) /\
  exists port h' up down c,
    Port_init (Some 0%nat) (Some (Vec.mk 0 0 2)) 0.5 [carbon] = Ok (port, h') /\
    getitem h' port "up" = Ok up /\ getitem h' port "down" = Ok down /\
    center h' port = Ok c /\ center h' up = Ok c /\ center h' down = Ok c.
Proof.
  assert (Ho : default default_direction (Some (Vec.mk 0 0 2)) <> Vec.zero)
    by (apply nonzero_z; simpl; lra).
  split; [exact Ho|]. split; [exact carbon_anchor|].
  exact (Port_subframes_share_center [carbon] (Some 0%nat) (Some (Vec.mk 0 0 2)) 0.5
           Ho carbon_anchor).
Defined.

(** X7. The separation is a translation along the orientation (line 76):
    constructing with separation [s] and then translating the Port by
    [t * unit_vector(orientation)] is constructing with separation [s + t],
    errors included. *)
Theorem Port_separation_adds (h0 : heap) (anchor : option loc)
    (orientation : option Vec3) (s t : R) :
  anchor_is_particle h0 anchor ->
  ('(port, h) ← Port_init anchor orientation s h0;
   u ← Vec.unit_vector (default default_direction orientation);
   h' ← translate (Vec.scale t u) port h;
   Ok (port, h')) =
  Port_init anchor orientation (s + t) h0.
Proof.
  intros Ha.
  destruct (anchor_is_particle_position h0 anchor Ha) as (Hlt & pos & Hpos & _).
  rewrite !(Port_init_cells h0 anchor Hlt). cbv zeta.
  set (o := default default_direction orientation).
  destruct (orient_frames o) as [[up down]|]; [|reflexivity].
  cbn [mbind result_bind]. rewrite Hpos. cbn [mbind result_bind].
  unfold place_frames.
  set (fs := match pos with
             | Some A => shift (Vec.sub A (centroid (up, down))) (up, down)
             | None => (up, down)
             end).
  destruct (Vec.unit_vector o) as [u|]; [|reflexivity].
  destruct fs as [up1 down1]. unfold shift. cbn [mbind result_bind fst snd].
  rewrite translate_port_cells. cbn [mbind result_bind]. unfold shift. cbn [fst snd].
  assert (E : forall F,
    frame_map (fun p => Vec.add p (Vec.scale t u))
      (frame_map (fun p => Vec.add p (Vec.scale s u)) F) =
    frame_map (fun p => Vec.add p (Vec.scale (s + t) u)) F).
  { intros F. rewrite frame_map_compose. apply frame_map_ext. intros p.
    apply vec_eq; simpl; ring. }
  rewrite !E. reflexivity.
Qed.

Lemma Port_separation_adds_witness :
  anchor_is_particle [carbon] (Some 0%nat) /\
  ('(port, h) ← Port_init (Some 0%nat) None 0.5 [carbon];
   u ← Vec.unit_vector (default default_direction None);
   h' ← translate (Vec.scale 0.25 u) port h;
   Ok (port, h')) =
  Port_init (Some 0%nat) None (0.5 + 0.25) [carbon].
Proof.
  split; [exact carbon_anchor|].
  exact (Port_separation_adds [carbon] (Some 0%nat) None 0.5 0.25 carbon_anchor).
Defined.

(** X8. Rotating a constructed Port about any axis keeps its sub-frames
    facing opposite directions, as the docstring of [up] and [down] says:
    the direction of "down" is the negation of that of "up", at angle π. *)
Theorem Port_rotate_keeps_opposed (h0 : heap) (anchor : option loc)
    (orientation : option Vec3) (separation theta : R) (axis : Vec3) (m : Vec.Mat3) :
  default default_direction orientation <> Vec.zero ->
  anchor_is_particle h0 anchor ->
  Vec.rotation_matrix theta axis = Ok m ->
  exists port h' h'' up down dir_up dir_down,
    Port_init anchor orientation separation h0 = Ok (port, h') /\
    rotate theta axis port h' = Ok h'' /\
    getitem h'' port "up" = Ok up /\ getitem h'' port "down" = Ok down /\
    direction h'' up = Ok dir_up /\ direction h'' down = Ok dir_down /\
    dir_down = Vec.neg dir_up /\
    Vec.angle dir_up dir_down = Ok PI.
Proof.
  intros Ho Ha Hm.
  destruct (Port_init_frames h0 anchor orientation separation Ho Ha)
    as (b & u & up & down & du & pos & _ & _ & _ & Hinit & Hup & Hdown & Hdu & _).
  exists (length h0), (h0 ++ port_cells (length h0) anchor false up down),
         (h0 ++ port_cells (length h0) anchor false
                  (frame_map (Vec.apply m) up) (frame_map (Vec.apply m) down)),
         (length h0 + 1)%nat, (length h0 + 6)%nat, (Vec.apply m du), (Vec.neg (Vec.apply m du)).
  split; [exact Hinit|]. split.
  { rewrite <- (Nat.add_0_r (length h0)) at 1. rewrite rotate_port_cells, Hm. reflexivity. }
  split; [apply getitem_up_cells|]. split; [apply getitem_down_cells|].
  split; [|split; [|split; [reflexivity|]]].
  - rewrite direction_up_cells.
    change (Vec.unit_vector (frame_axis (frame_map (Vec.apply m) up)) = Ok (Vec.apply m du)).
    rewrite frame_axis_apply, (unit_vector_apply _ _ _ _ Hm), Hup. reflexivity.
  - rewrite direction_down_cells.
    change (Vec.unit_vector (frame_axis (frame_map (Vec.apply m) down))
            = Ok (Vec.neg (Vec.apply m du))).
    rewrite frame_axis_apply, (unit_vector_apply _ _ _ _ Hm), Hdown.
    cbn [mbind result_bind]. f_equal. apply vec_eq; unfold Vec.apply, Vec.dot; simpl; ring.
  - apply angle_opposite. rewrite (rotation_matrix_isometry _ _ _ _ _ Hm). exact Hdu.
Qed.

Lemma Port_rotate_keeps_opposed_witness :
  exists m,
    default default_direction (Some (Vec.mk 1 0 0)) <> Vec.zero /\
    anchor_is_particle [] None /\
    Vec.rotation_matrix PI z_axis = Ok m /\
    exists port h' h'' up down dir_up dir_down,
      Port_init None (Some (Vec.mk 1 0 0)) 0 [] = Ok (port, h') /\
      rotate PI z_axis port h' = Ok h'' /\
      getitem h'' port "up" = Ok up /\ getitem h'' port "down" = Ok down /\
      direction h'' up = Ok dir_up /\ direction h'' down = Ok dir_down /\
      dir_down = Vec.neg dir_up /\
      Vec.angle dir_up dir_down = Ok PI.
Proof.
  assert (Ho : default default_direction (Some (Vec.mk 1 0 0)) <> Vec.zero)
    by (apply nonzero_x; simpl; lra).
  destruct rotation_matrix_PI_z as (m & Hm & _).
  exists m. split; [exact Ho|]. split; [exact (no_anchor [])|]. split; [exact Hm|].
  exact (Port_rotate_keeps_opposed [] None (Some (Vec.mk 1 0 0)) 0 PI z_axis m
           Ho (no_anchor []) Hm).
Defined.

(** ** Queries under rigid transforms *)

(** X10. Translating a Port that owns each of its particles once leaves
    its [direction] as it was, a raised error included. *)
Theorem translate_keeps_direction (h : heap) (l : loc) (locs : list loc) (delta : Vec3) :
  particles h l = Ok locs -> NoDup locs ->
  exists h', translate delta l h = Ok h' /\ direction h' l = direction h l.
Proof.
  intros Hp Hnd.
  destruct (move_particles (fun p => Vec.add p delta) h l locs Hp Hnd)
    as (xyz & h' & Hx & Hm & _ & Hx').
  exists h'. split; [rewrite translate_move; exact Hm|].
  rewrite (direction_rows _ _ _ Hx), (direction_rows _ _ _ Hx'), !list_lookup_fmap.
  destruct (xyz !! 1%nat) as [p1|], (xyz !! 0%nat) as [p0|]; cbn; try reflexivity.
  f_equal. apply vec_eq; simpl; ring.
Qed.

Lemma translate_keeps_direction_witness :
  let h := [] ++ port_cells 0 None false canonical canonical in
  let locs := [2; 3; 4; 5; 7; 8; 9; 10]%nat in
  particles h 0%nat = Ok locs /\ NoDup locs /\
  exists h', translate (Vec.mk 1 2 3) 0%nat h = Ok h' /\
             direction h' 0%nat = direction h 0%nat.
Proof.
  intros h locs.
  assert (H1 : particles h 0%nat = Ok locs)
    by exact (particles_port_cells [] None false canonical canonical).
  assert (H2 : NoDup locs) by exact (port_particles_NoDup 0).
  split; [exact H1|]. split; [exact H2|].
  exact (translate_keeps_direction h 0%nat locs (Vec.mk 1 2 3) H1 H2).
Defined.

(** X11. Translating a Port that owns each of its particles once, and has
    one at least, moves its [center] by the translation. *)
Theorem translate_shifts_center (h : heap) (l : loc) (locs : list loc) (delta : Vec3) :
  particles h l = Ok locs -> NoDup locs -> locs <> [] ->
  exists c h',
    center h l = Ok c /\ translate delta l h = Ok h' /\
    center h' l = Ok (Vec.add c delta).
Proof.
  intros Hp Hnd Hne.
  destruct (move_particles (fun p => Vec.add p delta) h l locs Hp Hnd)
    as (xyz & h' & Hx & Hm & _ & Hx').
  exists (Vec.mean xyz), h'. unfold center. rewrite Hx, Hx'. cbn [mbind result_bind].
  split; [reflexivity|]. split; [rewrite translate_move; exact Hm|].
  f_equal. apply mean_shift.
  pose proof (xyz_length _ _ _ _ Hp Hx). destruct xyz, locs; try discriminate; congruence.
Qed.

Lemma translate_shifts_center_witness :
  let h := [] ++ port_cells 0 None false canonical canonical in
  let locs := [2; 3; 4; 5; 7; 8; 9; 10]%nat in
  particles h 0%nat = Ok locs /\ NoDup locs /\ locs <> [] /\
  exists c h',
    center h 0%nat = Ok c /\ translate (Vec.mk 1 2 3) 0%nat h = Ok h' /\
    center h' 0%nat = Ok (Vec.add c (Vec.mk 1 2 3)).
Proof.
  intros h locs.
  assert (H1 : particles h 0%nat = Ok locs)
    by exact (particles_port_cells [] None false canonical canonical).
  assert (H2 : NoDup locs) by exact (port_particles_NoDup 0).
  assert (H3 : locs <> []) by discriminate.
  split; [exact H1|]. split; [exact H2|]. split; [exact H3|].
  exact (translate_shifts_center h 0%nat locs (Vec.mk 1 2 3) H1 H2 H3).
Defined.

(** X12. Rotating a Port that owns each of its particles once turns its
    [center] and its [direction] by the rotation matrix; an error of either
    query is the same error afterwards. *)
Theorem rotate_turns_center_and_direction (h : heap) (l : loc) (locs : list loc)
    (theta : R) (axis : Vec3) (m : Vec.Mat3) :
  Vec.rotation_matrix theta axis = Ok m ->
  particles h l = Ok locs -> NoDup locs ->
  exists h',
    rotate theta axis l h = Ok h' /\
    center h' l = (c ← center h l; Ok (Vec.apply m c)) /\
    direction h' l = (d ← direction h l; Ok (Vec.apply m d)).
Proof.
  intros Hrm Hp Hnd.
  destruct (move_particles (Vec.apply m) h l locs Hp Hnd)
    as (xyz & h' & Hx & Hm & _ & Hx').
  exists h'. split; [rewrite rotate_move, Hrm; exact Hm|]. split.
  - unfold center. rewrite Hx, Hx'. cbn [mbind result_bind].
    rewrite mean_apply. reflexivity.
  - rewrite (direction_rows _ _ _ Hx), (direction_rows _ _ _ Hx'), !list_lookup_fmap.
    destruct (xyz !! 1%nat) as [p1|], (xyz !! 0%nat) as [p0|]; cbn; try reflexivity.
    rewrite <- apply_sub. apply (unit_vector_apply _ _ _ _ Hrm).
Qed.

Lemma rotate_turns_center_and_direction_witness :
  let h := [] ++ port_cells 0 None false canonical canonical in
  let locs := [2; 3; 4; 5; 7; 8; 9; 10]%nat in
  exists m,
    Vec.rotation_matrix PI z_axis = Ok m /\
    particles h 0%nat = Ok locs /\ NoDup locs /\
    exists h',
      rotate PI z_axis 0%nat h = Ok h' /\
      center h' 0%nat = (c ← center h 0%nat; Ok (Vec.apply m c)) /\
      direction h' 0%nat = (d ← direction h 0%nat; Ok (Vec.apply m d)).
Proof.
  intros h locs.
  assert (H1 : particles h 0%nat = Ok locs)
    by exact (particles_port_cells [] None false canonical canonical).
  assert (H2 : NoDup locs) by exact (port_particles_NoDup 0).
  destruct rotation_matrix_PI_z as (m & Hm & _).
  exists m. split; [exact Hm|]. split; [exact H1|]. split; [exact H2|].
  exact (rotate_turns_center_and_direction h 0%nat locs PI z_axis m Hm H1 H2).
Defined.

Local Close Scope R_scope.

(** ** Clones, continued *)

(** X13. The clone of a Port that has an anchor is a new Port, made of new
    particles, with the rows of the original in the same order: same
    [xyz_with_ports], same [center], same [direction]. *)
Theorem Port_clone_same_geometry (h : heap) (l : loc) (c : Compound)
    (a : loc) (u : bool) (d : nat) :
  h !! l = Some (OPort c (Some a) u) -> height_le h d l -> d <= S (length h) ->
  exists l' h' c' a' locs' xyz,
    clone l h = Ok (l', h') /\
    length h <= l' /\ h' !! l' = Some (OPort c' a' u) /\
    particles h' l' = Ok locs' /\ Forall (fun x => length h <= x) locs' /\
    xyz_with_ports h l = Ok xyz /\ xyz_with_ports h' l' = Ok xyz /\
    center h' l' = center h l /\ direction h' l' = direction h l.
Proof.
  intros Hl Hh Hd.
  destruct (Port_clone_image h l d Hh Hd)
    as (l' & m' & h' & locs & locs' & Hc & Hinv & Hl' & Hp & Hp' & Him).
  assert (Hnew : exists c' a', h' !! l' = Some (OPort c' a' u)).
  { destruct (clone_spec h d l Hh Hd) as (l2 & m2 & h2 & Hc2 & _ & Hm2 & Hcomp2).
    rewrite Hc in Hc2. injection Hc2 as <- <-.
    destruct (port_copy _ _ _ Hcomp2 _ _ _ _ _ Hm2 Hl) as (c' & a0 & a' & _ & Hl2 & _).
    eauto. }
  destruct Hnew as (c' & a' & Hnew).
  assert (Hfresh : Forall (fun x => length h <= x) locs').
  { clear -Him Hinv. induction Him as [|x x' locs locs' Hx _ IH]; constructor; [|exact IH].
    apply (inv_map _ _ _ Hinv x x' Hx). }
  destruct (xyz_total _ _ _ Hp) as (xyz & Hx & _).
  assert (Hx' : xyz_with_ports h' l' = Ok xyz).
  { unfold xyz_with_ports in *. rewrite Hp'. rewrite Hp in Hx. cbn [mbind result_bind] in *.
    rewrite <- Hx. eapply collect_image; [exact Hinv| |exact Him].
    eapply particles_from_are_particles, Hp. }
  exists l', h', c', a', locs', xyz. split; [exact Hc|]. split; [exact Hl'|].
  split; [exact Hnew|]. split; [exact Hp'|]. split; [exact Hfresh|].
  split; [exact Hx|]. split; [exact Hx'|].
  unfold center, direction. rewrite Hx, Hx'. split; reflexivity.
Qed.

Lemma Port_clone_same_geometry_witness :
  sample_store !! 1 =
    Some (OPort (mkCompound "Port" true [("up", 2); ("down", 7)]) (Some 0) true) /\
  height_le sample_store 3 1 /\ 3 <= S (length sample_store) /\
  exists l' h' c' a' locs' xyz,
    clone 1 sample_store = Ok (l', h') /\
    length sample_store <= l' /\ h' !! l' = Some (OPort c' a' true) /\
    particles h' l' = Ok locs' /\ Forall (fun x => length sample_store <= x) locs' /\
    xyz_with_ports sample_store 1 = Ok xyz /\ xyz_with_ports h' l' = Ok xyz /\
    center h' l' = center sample_store 1 /\ direction h' l' = direction sample_store 1.
Proof.
  split; [reflexivity|]. split; [exact sample_store_height|].
  split; [exact sample_store_depth|].
  exact (Port_clone_same_geometry sample_store 1 _ 0 true 3
           eq_refl sample_store_height sample_store_depth).
Defined.

(** X14. The clone of a Port that has an anchor is a new object and so is
    each of its particles; translating the clone leaves every cell of the original
    store, and so the rows of the original Port, as they were. *)
Theorem Port_clone_independent (h : heap) (l : loc) (c : Compound)
    (a : loc) (u : bool) (d : nat) :
  h !! l = Some (OPort c (Some a) u) -> height_le h d l -> d <= S (length h) ->
  exists l' h' locs',
    clone l h = Ok (l', h') /\
    length h <= l' /\
    particles h' l' = Ok locs' /\ Forall (fun x => length h <= x) locs' /\
    forall delta, exists h'',
      translate delta l' h' = Ok h'' /\
      take (length h) h'' = h /\
      xyz_with_ports h'' l = xyz_with_ports h l.
Proof.
  intros Hl Hh Hd.
  destruct (Port_clone_image h l d Hh Hd)
    as (l' & m' & h' & locs & locs' & Hc & Hinv & Hl' & Hp & Hp' & Him).
  assert (Hfresh : Forall (fun x => length h <= x) locs').
  { clear -Him Hinv. induction Him as [|x x' locs locs' Hx _ IH]; constructor; [|exact IH].
    apply (inv_map _ _ _ Hinv x x' Hx). }
  exists l', h', locs'. split; [exact Hc|]. split; [exact Hl'|].
  split; [exact Hp'|]. split; [exact Hfresh|].
  intros delta. destruct (xyz_total _ _ _ Hp') as (xyz' & Hx' & _).
  set (h'' := assign_positions locs' (map (fun p => Vec.add p delta) xyz') h').
  assert (Htake : take (length h) h'' = h).
  { unfold h''. rewrite take_assign_positions by exact Hfresh. apply (inv_orig _ _ _ Hinv). }
  exists h''. split.
  { unfold translate, set_xyz_with_ports. rewrite Hx'. cbn [mbind result_bind].
    rewrite Hp'. reflexivity. }
  split; [exact Htake|].
  assert (Hag : forall i, i < length h -> h'' !! i = h !! i).
  { intros i Hi. rewrite <- (lookup_take_lt h'' (length h) i Hi), Htake. reflexivity. }
  unfold xyz_with_ports, particles.
  rewrite (particles_from_agree h h'' d _ l Hag Hh).
  assert (Hlen : length h <= length h'').
  { unfold h''. rewrite <- (same_skeleton_length _ _ (assign_positions_skeleton _ _ h')).
    apply (inv_len _ _ _ Hinv). }
  assert (Hfuel : S (length h) <= S (length h'')) by lia.
  rewrite (particles_from_fuel_mono (S (length h)) (S (length h'')) h l locs Hfuel Hp).
  unfold particles in Hp. rewrite Hp. cbn [mbind result_bind].
  apply collect_ext. intros i Hi. unfold position.
  pose proof (particles_from_are_particles _ _ _ _ Hp) as Hall.
  rewrite Forall_forall in Hall. destruct (Hall i Hi) as [p Hip].
  rewrite (Hag i (lookup_lt_Some _ _ _ Hip)). reflexivity.
Qed.

Lemma Port_clone_independent_witness :
  sample_store !! 1 =
    Some (OPort (mkCompound "Port" true [("up", 2); ("down", 7)]) (Some 0) true) /\
  height_le sample_store 3 1 /\ 3 <= S (length sample_store) /\
  exists l' h' locs',
    clone 1 sample_store = Ok (l', h') /\
    length sample_store <= l' /\
    particles h' l' = Ok locs' /\ Forall (fun x => length sample_store <= x) locs' /\
    forall delta, exists h'',
      translate delta l' h' = Ok h'' /\
      take (length sample_store) h'' = sample_store /\
      xyz_with_ports h'' 1 = xyz_with_ports sample_store 1.
Proof.
  split; [reflexivity|]. split; [exact sample_store_height|].
  split; [exact sample_store_depth|].
  exact (Port_clone_independent sample_store 1 _ 0 true 3
           eq_refl sample_store_height sample_store_depth).
Defined.

(** X15. Take a tree that [clone] can descend and a Port [p] of it, the
    node at [path] below the root (the root itself when the path is
    empty).  The node at [path] below the root of the copy is a new Port
    with the name and the [used] flag of [p]; [p] keeps its flag. *)
Theorem Port_clone_keeps_used (h : heap) (root p : loc) (path : list string)
    (c : Compound) (a : option loc) (u : bool) (d : nat) :
  height_le h d root -> d <= S (length h) ->
  follow h root path = Some p -> h !! p = Some (OPort c a u) ->
  exists root' h' p' c' a',
    clone root h = Ok (root', h') /\
    follow h' root' path = Some p' /\ length h <= p' /\
    h' !! p' = Some (OPort c' a' u) /\ c_name c' = c_name c /\
    used_of h' p' = Ok u /\ used_of h' p = Ok u.
Proof.
  intros Hh Hd Hf Hp.
  destruct (clone_spec h d root Hh Hd) as (root' & m' & h' & Hc & Hinv & Hm & Hcomp).
  destruct (follow_image _ _ _ Hinv Hcomp path _ _ _ Hm Hf) as (p' & Hp' & Hf').
  destruct (port_copy _ _ _ Hcomp _ _ _ _ _ Hp' Hp) as (c' & a0 & a' & _ & Hp'' & _).
  destruct (inv_map _ _ _ Hinv p p' Hp') as (_ & [Hge _] & Hshell).
  rewrite Hp, Hp'' in Hshell. injection Hshell as Hname _.
  exists root', h', p', c', (Some a').
  split; [exact Hc|]. split; [exact Hf'|]. split; [exact Hge|].
  split; [exact Hp''|]. split; [exact Hname|].
  split; [unfold used_of; rewrite Hp''; reflexivity|].
  unfold used_of. rewrite (inv_lookup_Some _ _ _ _ _ Hinv Hp). reflexivity.
Qed.

Lemma Port_clone_keeps_used_witness :
  height_le sample_tree 4 0 /\ 4 <= S (length sample_tree) /\
  follow sample_tree 0 ["port"] = Some 2 /\
  sample_tree !! 2 =
    Some (OPort (mkCompound "Port" true [("up", 3); ("down", 8)]) (Some 1) true) /\
  exists root' h' p' c' a',
    clone 0 sample_tree = Ok (root', h') /\
    follow h' root' ["port"] = Some p' /\ length sample_tree <= p' /\
    h' !! p' = Some (OPort c' a' true) /\ c_name c' = "Port" /\
    used_of h' p' = Ok true /\ used_of h' 2 = Ok true.
Proof.
  split; [exact sample_tree_height|]. split; [exact sample_tree_depth|].
  split; [reflexivity|]. split; [reflexivity|].
  exact (Port_clone_keeps_used sample_tree 0 2 ["port"] _ (Some 1) true 4
           sample_tree_height sample_tree_depth eq_refl eq_refl).
Defined.
